(** * language-simplifier web client: streaming session and output sink

    A shallow embedding of the TypeScript sources of the web client

    - [webapp/src/ui.ts]   (the throttled output sink: [appendOut]),
    - [webapp/src/main.ts] (the [clearOut] button handler),
    - [webapp/src/ws.ts]   (the [WebSocketManager] session),

    together with the properties of their specification.

    The browser runs every handler to completion on one thread, so each
    handler is a function on an explicit state, and the browser itself
    (network events, timers, animation frames) is the environment that
    chooses which handler runs next. *)

From Stdlib Require Import ZArith Lia Bool Ascii String DecimalString.
From stdpp Require Import base tactics option list.

Local Open Scope string_scope.
Local Open Scope Z_scope.

(** ** JavaScript strings *)

(** The double quote and the backslash, as characters and as strings. *)
Definition quote : ascii := ascii_of_nat 34.
Definition backslash : ascii := ascii_of_nat 92.
Definition dquote : string := String quote EmptyString.
Definition bslash : string := String backslash EmptyString.

(** [s1 + s2] on strings. *)
Definition str_cat (s1 s2 : string) : string := String.append s1 s2.

Definition str_concat (l : list string) : string :=
  fold_right str_cat EmptyString l.

(** ** The output sink ([ui.ts], [main.ts]) *)

Module Sink.

(** The part of the page the sink touches: the [#out] element (its
    [textContent] and [scrollTop]; the page is taken to have the element,
    so [el.out()] does not throw), the two module variables of [ui.ts],
    and the browser's list of animation frame callbacks. Every callback
    [appendOut] registers is the same closure, so the list is kept as the
    number of callbacks waiting for the next frame. [painted] records the
    text each render pass added to the element, in order: one entry per
    paint. *)
Record state := mkState {
  textContent : string;
  scrollTop : Z;
  buffer : string;
  rafPending : bool;
  rafQueue : nat;
  painted : list string
}.

(** The state when the module is loaded: [let buffer = ...; let
    rafPending = false], an empty [#out]. *)
Definition initial : state :=
  {| textContent := EmptyString; scrollTop := 0; buffer := EmptyString;
     rafPending := false; rafQueue := 0%nat; painted := [] |}.

Section WithLayout.

(** [out.scrollHeight] is computed by the layout engine from the content
    of the element. *)
Variable scrollHeight : string -> Z.

(** [export function appendOut(s: string)]. *)
Definition appendOut (s : string) (st : state) : state :=
  let st1 :=
    {| textContent := textContent st; scrollTop := scrollTop st;
       buffer := str_cat (buffer st) s;
       rafPending := rafPending st; rafQueue := rafQueue st;
       painted := painted st |} in
  if negb (rafPending st1) then
    {| textContent := textContent st1; scrollTop := scrollTop st1;
       buffer := buffer st1;
       rafPending := true; rafQueue := S (rafQueue st1);
       painted := painted st1 |}
  else st1.

(** The callback [appendOut] hands to [requestAnimationFrame]. *)
Definition renderPass (st : state) : state :=
  let text := str_cat (textContent st) (buffer st) in
  {| textContent := text;
     scrollTop := scrollHeight text;
     buffer := EmptyString;
     rafPending := false;
     rafQueue := rafQueue st;
     painted := painted st ++ [buffer st] |}.

(** One display refresh: the browser runs the callbacks that were waiting
    when the frame started. The callback registers no new one. *)
Definition animationFrame (st : state) : state :=
  let waiting := rafQueue st in
  let st0 :=
    {| textContent := textContent st; scrollTop := scrollTop st;
       buffer := buffer st; rafPending := rafPending st;
       rafQueue := 0%nat; painted := painted st |} in
  Nat.iter waiting renderPass st0.

(** [function clearOut()] of [main.ts], the click handler of [#clear]. *)
Definition clearOut (st : state) : state :=
  {| textContent := EmptyString; scrollTop := scrollTop st;
     buffer := buffer st; rafPending := rafPending st;
     rafQueue := rafQueue st; painted := painted st |}.

(** A burst of [appendOut] calls, in arrival order. *)
Definition appendAll (frags : list string) (st : state) : state :=
  fold_left (fun acc s => appendOut s acc) frags st.

(** What the page can do to the sink. *)
Inductive action :=
| Append (s : string)
| Frame
| Clear.

Definition act (a : action) (st : state) : state :=
  match a with
  | Append s => appendOut s st
  | Frame => animationFrame st
  | Clear => clearOut st
  end.

Definition run (acts : list action) (st : state) : state :=
  fold_left (fun acc a => act a acc) acts st.

(** The sink between two bursts: nothing buffered, no render pass
    waiting. *)
Definition settled (st : state) : Prop :=
  buffer st = EmptyString /\ rafPending st = false /\ rafQueue st = 0%nat.

(** The armed flag and the callback list agree: a pass is waiting exactly
    when the flag is set, and an unarmed sink has nothing buffered. *)
Definition coherent (st : state) : Prop :=
  (rafPending st = true /\ rafQueue st = 1%nat) \/ settled st.

(** The fragments some actions append, in order; how many display
    refreshes there are among them; whether the output is cleared. *)
Definition fragments (acts : list action) : list string :=
  omap (fun a => match a with Append s => Some s | _ => None end) acts.

Definition refreshes (acts : list action) : nat :=
  length (List.filter (fun a => match a with Frame => true | _ => false end)
            acts).

Definition clears (acts : list action) : bool :=
  existsb (fun a => match a with Clear => true | _ => false end) acts.

End WithLayout.

End Sink.

(** ** JSON values and the two JSON primitives *)

Module JSON.

(** What [JSON.parse] can return. A number is kept as the decimal
    [m * 10^e] it was written as; the session only ever asks a number
    whether it is zero. *)
Inductive value :=
| JNull
| JBool (b : bool)
| JNum (m e : Z)
| JStr (s : string)
| JArr (items : list value)
| JObj (fields : list (string * value)).

(** JavaScript's [ToBoolean] on such a value. *)
Definition truthy (v : value) : bool :=
  match v with
  | JNull => false
  | JBool b => b
  | JNum m _ => negb (m =? 0)
  | JStr s => negb (String.eqb s EmptyString)
  | JArr _ => true
  | JObj _ => true
  end.

(** The own property [k] of a parsed object; of two members with the same
    name the later one wins. *)
Fixpoint own (k : string) (fields : list (string * value)) : option value :=
  match fields with
  | [] => None
  | (k', v) :: rest =>
      match own k rest with
      | Some v' => Some v'
      | None => if String.eqb k k' then Some v else None
      end
  end.

(** [m.k] for a name [k] that no prototype defines (the session reads
    [type] and [data]). [None] is the [TypeError] of reading a property of
    [null]; [Some None] is [undefined]. *)
Definition prop (k : string) (m : value) : option (option value) :=
  match m with
  | JNull => None
  | JObj fields => Some (own k fields)
  | _ => Some None
  end.

(** [x || d] for a default [d] that is a string. *)
Definition or_else (x : option value) (d : string) : value :=
  match x with
  | Some v => if truthy v then v else JStr d
  | None => JStr d
  end.

(** [x === s] for a string literal [s]. *)
Definition is_str (x : option value) (s : string) : bool :=
  match x with
  | Some (JStr t) => String.eqb t s
  | _ => false
  end.

(** *** A reference reader and writer for JSON text

    [JSON.parse] and [JSON.stringify] belong to the JavaScript engine. The
    session is stated over any pair of them (see [Session.platform]); the
    two functions below follow the JSON grammar of ECMA-404 on ASCII text
    and serve to run the session on concrete frames. *)

Definition is_ws (c : ascii) : bool :=
  match c with
  | " "%char | "009"%char | "010"%char | "013"%char => true
  | _ => false
  end.

Fixpoint skip_ws (s : string) : string :=
  match s with
  | String c r => if is_ws c then skip_ws r else s
  | EmptyString => s
  end.

Definition digit (c : ascii) : option Z :=
  let n := Z.of_nat (nat_of_ascii c) in
  if (48 <=? n) && (n <=? 57) then Some (n - 48) else None.

Definition hex (c : ascii) : option Z :=
  let n := Z.of_nat (nat_of_ascii c) in
  if (48 <=? n) && (n <=? 57) then Some (n - 48)
  else if (65 <=? n) && (n <=? 70) then Some (n - 55)
  else if (97 <=? n) && (n <=? 102) then Some (n - 87)
  else None.

Definition byte (n : Z) : ascii := ascii_of_nat (Z.to_nat n).

(** The UTF-8 bytes of a code unit below 65536. *)
Definition utf8 (u : Z) : string :=
  if u <? 128 then String (byte u) EmptyString
  else if u <? 2048 then
    String (byte (192 + u / 64)) (String (byte (128 + u mod 64)) EmptyString)
  else
    String (byte (224 + u / 4096))
      (String (byte (128 + (u / 64) mod 64))
         (String (byte (128 + u mod 64)) EmptyString)).

(** The characters of a string literal after its opening quote, up to and
    including the closing quote. *)
Fixpoint read_chars (s : string) : option (string * string) :=
  match s with
  | EmptyString => None
  | String c r =>
      if Ascii.eqb c quote then Some (EmptyString, r)
      else if Ascii.eqb c backslash then
        match r with
        | String e r1 =>
            let plain (x : ascii) :=
              match read_chars r1 with
              | Some (t, rest) => Some (String x t, rest)
              | None => None
              end in
            if Ascii.eqb e quote then plain quote
            else if Ascii.eqb e backslash then plain backslash
            else match e with
            | "/"%char => plain "/"%char
            | "b"%char => plain "008"%char
            | "f"%char => plain "012"%char
            | "n"%char => plain "010"%char
            | "r"%char => plain "013"%char
            | "t"%char => plain "009"%char
            | "u"%char =>
                match r1 with
                | String h1 (String h2 (String h3 (String h4 r2))) =>
                    match hex h1, hex h2, hex h3, hex h4, read_chars r2 with
                    | Some a, Some b, Some c', Some d, Some (t, rest) =>
                        Some (utf8 (((a * 16 + b) * 16 + c') * 16 + d) ++ t,
                              rest)
                    | _, _, _, _, _ => None
                    end
                | _ => None
                end
            | _ => None
            end
        | EmptyString => None
        end
      else if (nat_of_ascii c <? 32)%nat then None
      else
        match read_chars r with
        | Some (t, rest) => Some (String c t, rest)
        | None => None
        end
  end.

(** A run of decimal digits: the digits read so far as a number, how many
    were read, and the rest of the text. *)
Fixpoint read_digits (acc : Z) (n : Z) (s : string) : Z * Z * string :=
  match s with
  | String c r =>
      match digit c with
      | Some d => read_digits (acc * 10 + d) (n + 1) r
      | None => (acc, n, s)
      end
  | EmptyString => (acc, n, s)
  end.

(** The integer part of a number: a single [0], or digits that do not
    start with [0]. *)
Definition read_int (s : string) : option (Z * string) :=
  match s with
  | String "0"%char r => Some (0, r)
  | _ =>
      match read_digits 0 0 s with
      | (v, n, r) => if n =? 0 then None else Some (v, r)
      end
  end.

Definition read_frac (v : Z) (s : string) : option (Z * Z * string) :=
  match s with
  | String "."%char r =>
      match read_digits v 0 r with
      | (v', n, r') => if n =? 0 then None else Some (v', n, r')
      end
  | _ => Some (v, 0, s)
  end.

Definition read_exp (s : string) : option (Z * string) :=
  let unsigned (sign : Z) (r : string) :=
    match read_digits 0 0 r with
    | (v, n, r') => if n =? 0 then None else Some (sign * v, r')
    end in
  match s with
  | String c r =>
      if Ascii.eqb c "e"%char || Ascii.eqb c "E"%char then
        match r with
        | String "+"%char r1 => unsigned 1 r1
        | String "-"%char r1 => unsigned (-1) r1
        | _ => unsigned 1 r
        end
      else Some (0, s)
  | EmptyString => Some (0, s)
  end.

Definition read_number (s : string) : option (value * string) :=
  let '(sign, s1) :=
    match s with
    | String "-"%char r => (-1, r)
    | _ => (1, s)
    end in
  match read_int s1 with
  | Some (i, s2) =>
      match read_frac i s2 with
      | Some (m, k, s3) =>
          match read_exp s3 with
          | Some (e, s4) => Some (JNum (sign * m) (e - k), s4)
          | None => None
          end
      | None => None
      end
  | None => None
  end.

Fixpoint strip (lit s : string) : option string :=
  match lit, s with
  | EmptyString, _ => Some s
  | String a l, String b r => if Ascii.eqb a b then strip l r else None
  | String _ _, EmptyString => None
  end.

(** One value, and the text after it. Every call reads at least one
    character before it calls again, so [fuel] above the length of the
    text is never used up. *)
Fixpoint read_value (fuel : nat) (s : string) : option (value * string) :=
  match fuel with
  | O => None
  | S fuel' =>
      match skip_ws s with
      | EmptyString => None
      | String c r =>
          if Ascii.eqb c quote then
            match read_chars r with
            | Some (t, rest) => Some (JStr t, rest)
            | None => None
            end
          else match c with
          | "{"%char =>
              match skip_ws r with
              | String "}"%char rest => Some (JObj [], rest)
              | r' =>
                  match read_members fuel' r' with
                  | Some (fs, rest) => Some (JObj fs, rest)
                  | None => None
                  end
              end
          | "["%char =>
              match skip_ws r with
              | String "]"%char rest => Some (JArr [], rest)
              | r' =>
                  match read_items fuel' r' with
                  | Some (vs, rest) => Some (JArr vs, rest)
                  | None => None
                  end
              end
          | "t"%char =>
              match strip "rue" r with
              | Some rest => Some (JBool true, rest)
              | None => None
              end
          | "f"%char =>
              match strip "alse" r with
              | Some rest => Some (JBool false, rest)
              | None => None
              end
          | "n"%char =>
              match strip "ull" r with
              | Some rest => Some (JNull, rest)
              | None => None
              end
          | _ => read_number (String c r)
          end
      end
  end
with read_members (fuel : nat) (s : string)
  : option (list (string * value) * string) :=
  match fuel with
  | O => None
  | S fuel' =>
      match skip_ws s with
      | String c r =>
          if Ascii.eqb c quote then
            match read_chars r with
            | Some (k, r1) =>
                match skip_ws r1 with
                | String ":"%char r2 =>
                    match read_value fuel' r2 with
                    | Some (v, r3) =>
                        match skip_ws r3 with
                        | String "}"%char rest => Some ([(k, v)], rest)
                        | String ","%char r4 =>
                            match read_members fuel' r4 with
                            | Some (fs, rest) => Some ((k, v) :: fs, rest)
                            | None => None
                            end
                        | _ => None
                        end
                    | None => None
                    end
                | _ => None
                end
            | None => None
            end
          else None
      | EmptyString => None
      end
  end
with read_items (fuel : nat) (s : string) : option (list value * string) :=
  match fuel with
  | O => None
  | S fuel' =>
      match read_value fuel' s with
      | Some (v, r1) =>
          match skip_ws r1 with
          | String "]"%char rest => Some ([v], rest)
          | String ","%char r2 =>
              match read_items fuel' r2 with
              | Some (vs, rest) => Some (v :: vs, rest)
              | None => None
              end
          | _ => None
          end
      | None => None
      end
  end.

(** [JSON.parse(text)]: one value with nothing but white space after it;
    [None] is the [SyntaxError]. *)
Definition parse (text : string) : option value :=
  match read_value (2 * S (String.length text)) text with
  | Some (v, rest) =>
      match skip_ws rest with
      | EmptyString => Some v
      | String _ _ => None
      end
  | None => None
  end.

(** The decimal digits of an integer. *)
Definition dec (n : Z) : string := NilZero.string_of_int (Z.to_int n).

Definition hex_digit (n : Z) : ascii :=
  if n <? 10 then byte (48 + n) else byte (87 + n).

(** A string literal: quotes around the characters, with the escapes
    [JSON.stringify] writes. *)
Fixpoint write_chars (s : string) : string :=
  match s with
  | EmptyString => EmptyString
  | String c r =>
      let n := Z.of_nat (nat_of_ascii c) in
      let esc (x : string) := bslash ++ x ++ write_chars r in
      if n =? 34 then esc dquote
      else if n =? 92 then esc bslash
      else if n =? 8 then esc "b"
      else if n =? 12 then esc "f"
      else if n =? 10 then esc "n"
      else if n =? 13 then esc "r"
      else if n =? 9 then esc "t"
      else if n <? 32 then
        esc ("u00" ++ String (hex_digit (n / 16))
                        (String (hex_digit (n mod 16)) EmptyString))
      else String c (write_chars r)
  end.

Definition write_string (s : string) : string :=
  dquote ++ write_chars s ++ dquote.

(** [JSON.stringify(v)] with no indentation. An integer is written as its
    digits; any other number in exponent form. *)
Fixpoint stringify (v : value) : string :=
  match v with
  | JNull => "null"
  | JBool true => "true"
  | JBool false => "false"
  | JNum m e => if e =? 0 then dec m else dec m ++ "e" ++ dec e
  | JStr s => write_string s
  | JArr items =>
      let fix go (l : list value) : string :=
        match l with
        | [] => EmptyString
        | [x] => stringify x
        | x :: r => stringify x ++ "," ++ go r
        end in
      "[" ++ go items ++ "]"
  | JObj fields =>
      let fix go (l : list (string * value)) : string :=
        match l with
        | [] => EmptyString
        | [(k, x)] => write_string k ++ ":" ++ stringify x
        | (k, x) :: r => write_string k ++ ":" ++ stringify x ++ "," ++ go r
        end in
      "{" ++ go fields ++ "}"
  end.

End JSON.

(** ** The streaming session ([ws.ts]) *)

Module Session.

Import JSON.

(** *** Data *)

(** [WebSocket.readyState]. *)
Inductive readyState := CONNECTING | OPEN | CLOSING | CLOSED.

#[global] Instance readyState_eq_dec : EqDecision readyState.
Proof. solve_decision. Defined.

(** One [WebSocket] object: the address it was created with, its state,
    and the frames the far end has been sent on it, oldest first. *)
Record channel := mkChannel {
  address : string;
  state : readyState;
  sent : list string
}.

(** [type WSOpts]. A callback is a function of the caller; what the
    session does with it is call it, and the calls are recorded in the
    order they are made (see [calls]); a callback does not call back into
    the manager. For an optional callback the field says whether the
    caller supplied it; [onToken] is always there. The two numbers are
    integers. *)
Record WSOpts := mkOpts {
  url : string;
  init : value;
  onStart : bool;
  onEnd : bool;
  onError : bool;
  maxRetries : option Z;
  heartbeatMs : option Z
}.

(** A call of one of the caller's callbacks, with its argument. *)
Inductive call :=
| OnToken (s : value)
| OnStart
| OnEnd
| OnError (e : value).

(** The two closures the session hands to the browser's timers:
    [setInterval(() => { ...ping... }, hb)] and
    [setTimeout(() => this.open(), delay)]. *)
Inductive closure :=
| Heartbeat (ms : Z)
| Reopen (ms : Z).

(** An active timer of the page. *)
Record timer := mkTimer {
  tid : nat;
  job : closure
}.

(** What a handler can throw. *)
Inductive exn := InvalidStateError | SyntaxError | TypeError.

(** The private fields of [class WebSocketManager]; [ws] is the index of
    the socket in [sockets]. *)
Record manager := mkManager {
  ws : option nat;
  retries : Z;
  closedByClient : bool;
  heartbeatTimer : option nat
}.

(** The manager and the part of the browser it acts on: the sockets it
    has created, the active timers and the next timer id, and, as the
    record of what was observable, the callback calls made, the delays
    passed to [setTimeout], and the exceptions that left a handler. *)
Record world := mkWorld {
  this : manager;
  sockets : list channel;
  timers : list timer;
  nextTimer : nat;
  calls : list call;
  delays : list Z;
  uncaught : list exn
}.

(** The engine and the page the script runs in. [JSON_stringify] is
    total: the init payload is taken to be a value it can serialise;
    [stringify_u] below has the other case too. *)
Record platform := mkPlatform {
  JSON_parse : string -> option value;
  JSON_stringify : value -> string;
  location_protocol : string;
  location_host : string
}.

(** Field updates. *)
Definition set_ws (x : option nat) (m : manager) : manager :=
  mkManager x (retries m) (closedByClient m) (heartbeatTimer m).
Definition set_retries (x : Z) (m : manager) : manager :=
  mkManager (ws m) x (closedByClient m) (heartbeatTimer m).
Definition set_closedByClient (x : bool) (m : manager) : manager :=
  mkManager (ws m) (retries m) x (heartbeatTimer m).
Definition set_heartbeatTimer (x : option nat) (m : manager) : manager :=
  mkManager (ws m) (retries m) (closedByClient m) x.

Definition with_this (f : manager -> manager) (w : world) : world :=
  mkWorld (f (this w)) (sockets w) (timers w) (nextTimer w) (calls w)
          (delays w) (uncaught w).
Definition with_sockets (x : list channel) (w : world) : world :=
  mkWorld (this w) x (timers w) (nextTimer w) (calls w) (delays w)
          (uncaught w).
Definition with_timers (x : list timer) (w : world) : world :=
  mkWorld (this w) (sockets w) x (nextTimer w) (calls w) (delays w)
          (uncaught w).
Definition with_calls (x : list call) (w : world) : world :=
  mkWorld (this w) (sockets w) (timers w) (nextTimer w) x (delays w)
          (uncaught w).
Definition with_uncaught (x : list exn) (w : world) : world :=
  mkWorld (this w) (sockets w) (timers w) (nextTimer w) (calls w)
          (delays w) x.

Definition set_state (x : readyState) (ch : channel) : channel :=
  mkChannel (address ch) x (sent ch).
Definition push_sent (data : string) (ch : channel) : channel :=
  mkChannel (address ch) (state ch) (sent ch ++ [data]).

(** *** Handlers as computations

    A handler runs on the world and either returns or throws; what it did
    before throwing stays done. *)
Inductive outcome (A : Type) :=
| Ret (a : A) (w : world)
| Raise (e : exn) (w : world).
Arguments Ret {A} a w.
Arguments Raise {A} e w.

Definition M (A : Type) : Type := world -> outcome A.

Definition ret {A} (a : A) : M A := fun w => Ret a w.
Definition raise {A} (e : exn) : M A := fun w => Raise e w.
Definition bind {A B} (m : M A) (k : A -> M B) : M B :=
  fun w =>
    match m w with
    | Ret a w' => k a w'
    | Raise e w' => Raise e w'
    end.

Notation "x <- m ;; k" := (bind m (fun x => k))
  (at level 100, m at next level, right associativity).

(** [try { body } catch { }]. *)
Definition try_ignore (body : M unit) : M unit :=
  fun w =>
    match body w with
    | Ret _ w' => Ret tt w'
    | Raise _ w' => Ret tt w'
    end.

Definition get : M manager := fun w => Ret (this w) w.
Definition update (f : manager -> manager) : M unit :=
  fun w => Ret tt (with_this f w).
Definition when (b : bool) (m : M unit) : M unit :=
  if b then m else ret tt.

(** Calling a callback of the caller: the call is recorded. Here the
    callback returns, as those of [main.ts] do; [invoke_u] below is the
    call of a callback that may throw. *)
Definition invoke (c : call) : M unit :=
  fun w => Ret tt (with_calls (calls w ++ [c]) w).

(** [cb?.(...)]. *)
Definition invoke_opt (supplied : bool) (c : call) : M unit :=
  when supplied (invoke c).

(** *** The browser interfaces the session uses *)

(** [new WebSocket(address)]: a fresh socket, connecting. The address
    is taken to be a URL the constructor accepts; [new_WebSocket_u] below
    has the other case too. *)
Definition new_WebSocket (addr : string) : M nat :=
  fun w =>
    Ret (length (sockets w))
        (with_sockets (sockets w ++ [mkChannel addr CONNECTING []]) w).

(** [socket.readyState]. *)
Definition readyState_of (c : nat) (w : world) : option readyState :=
  state <$> sockets w !! c.

(** [socket.send(data)]: throws while connecting, transmits when open,
    and drops the data once the socket is closing or closed. *)
Definition send (c : nat) (data : string) : M unit :=
  fun w =>
    match sockets w !! c with
    | Some ch =>
        match state ch with
        | CONNECTING => Raise InvalidStateError w
        | OPEN => Ret tt (with_sockets (<[c := push_sent data ch]> (sockets w)) w)
        | CLOSING | CLOSED => Ret tt w
        end
    | None => Ret tt w
    end.

(** [socket.close(1000, reason)]: starts the closing handshake unless the
    socket is already closing or closed. The [close] event comes later. *)
Definition close (c : nat) : M unit :=
  fun w =>
    match sockets w !! c with
    | Some ch =>
        match state ch with
        | CONNECTING | OPEN =>
            Ret tt (with_sockets (<[c := set_state CLOSING ch]> (sockets w)) w)
        | CLOSING | CLOSED => Ret tt w
        end
    | None => Ret tt w
    end.

(** [setInterval] and [setTimeout] draw their ids from one counter. *)
Definition add_timer (j : closure) : M nat :=
  fun w =>
    Ret (nextTimer w)
        (mkWorld (this w) (sockets w) (timers w ++ [mkTimer (nextTimer w) j])
                 (S (nextTimer w)) (calls w) (delays w) (uncaught w)).

Definition setInterval (ms : Z) : M nat := add_timer (Heartbeat ms).

Definition setTimeout (ms : Z) : M nat :=
  fun w =>
    add_timer (Reopen ms)
      (mkWorld (this w) (sockets w) (timers w) (nextTimer w) (calls w)
               (delays w ++ [ms]) (uncaught w)).

(** [clearInterval(id)]: the timer with this id, if any, is dropped. *)
Definition clearInterval (id : nat) : M unit :=
  fun w => Ret tt (with_timers (filter (fun t => tid t <> id) (timers w)) w).

(** [if (this.heartbeatTimer) window.clearInterval(this.heartbeatTimer)]:
    an id is a number, and [0] and [undefined] do not pass the test. *)
Definition clear_heartbeat : M unit :=
  m <- get ;;
  match heartbeatTimer m return M unit with
  | Some id => if (id =? 0)%nat then ret tt else clearInterval id
  | None => ret tt
  end.

(** The timers [clear_heartbeat] leaves active. *)
Definition kept (w : world) : list timer :=
  match heartbeatTimer (this w) with
  | Some id =>
      if (id =? 0)%nat then timers w
      else filter (fun t => tid t <> id) (timers w)
  | None => timers w
  end.

(** The keep-alive frame: the text [{"type":"ping"}]. *)
Definition ping : string :=
  "{" ++ dquote ++ "type" ++ dquote ++ ":" ++ dquote ++ "ping" ++ dquote ++ "}".

(** The calls [cb?.(...)] makes. *)
Definition optional (supplied : bool) (c : call) : list call :=
  if supplied then [c] else [].

(** *** The class [WebSocketManager] *)

Section Manager.

(** The engine and page, and the options the manager was constructed
    with ([this.opts]). *)
Variable P : platform.
Variable o : WSOpts.

(** [new WebSocketManager(opts)] in a page with no socket and no timer.
    Timer ids start at 1. *)
Definition created : world :=
  {| this := {| ws := None; retries := 0; closedByClient := false;
                heartbeatTimer := None |};
     sockets := []; timers := []; nextTimer := 1%nat;
     calls := []; delays := []; uncaught := [] |}.

(** [open()]. The four handlers it installs on the new socket are the
    same closures over [this] for every socket; they are [onopen],
    [onmessage], [onerror] and [onclose] below. *)
Definition open : M unit :=
  let proto :=
    if String.eqb (location_protocol P) "https:" then "wss" else "ws" in
  c <- new_WebSocket (proto ++ "://" ++ location_host P ++ url o) ;;
  update (set_ws (Some c)).

(** The interval callback installed by [onopen]:
    [if (this.ws?.readyState === WebSocket.OPEN) this.ws.send(ping)]. *)
Definition heartbeat : M unit :=
  m <- get ;;
  match ws m return M unit with
  | Some c =>
      fun w =>
        match readyState_of c w with
        | Some OPEN => send c ping w
        | _ => Ret tt w
        end
  | None => ret tt
  end.

(** [this.ws.onopen]. *)
Definition onopen : M unit :=
  _ <- update (set_retries 0) ;;
  _ <- update (set_closedByClient false) ;;
  m <- get ;;
  _ <- match ws m return M unit with
       | Some c => send c (JSON_stringify P (init o))
       | None => raise TypeError
       end ;;
  _ <- invoke_opt (onStart o) OnStart ;;
  let hb := default 20000 (heartbeatMs o) in
  id <- setInterval hb ;;
  update (set_heartbeatTimer (Some id)).

(** [this.ws.onmessage], for the frame text [ev.data]. *)
Definition onmessage (data : string) : M unit :=
  try_ignore
    (m <- match JSON_parse P data return M value with
          | Some v => ret v
          | None => raise SyntaxError
          end ;;
     type <- match prop "type" m return M (option value) with
             | Some t => ret t
             | None => raise TypeError
             end ;;
     let m_data := default None (prop "data" m) in
     if is_str type "token" then invoke (OnToken (or_else m_data EmptyString))
     else if is_str type "start" then invoke_opt (onStart o) OnStart
     else if is_str type "end" then invoke_opt (onEnd o) OnEnd
     else if is_str type "error" then
       invoke_opt (onError o) (OnError (or_else m_data "error"))
     else ret tt).

(** [this.ws.onerror]. *)
Definition onerror : M unit :=
  invoke_opt (onError o) (OnError (JStr "ws_error")).

(** [this.ws.onclose]. [this.retries++] yields the old count. *)
Definition onclose : M unit :=
  _ <- clear_heartbeat ;;
  m <- get ;;
  when (negb (closedByClient m))
    (let cap := default 3 (maxRetries o) in
     when (retries m <? cap)
       (let delay := 500 * 2 ^ retries m in
        _ <- update (set_retries (retries m + 1)) ;;
        _ <- setTimeout delay ;;
        ret tt)).

(** [stop()]. *)
Definition stop : M unit :=
  _ <- update (set_closedByClient true) ;;
  _ <- clear_heartbeat ;;
  m <- get ;;
  match ws m return M unit with
  | Some c => close c
  | None => ret tt
  end.

(** *** The environment

    What can happen to a session: the caller calls one of the two public
    methods, the network opens a connecting socket, delivers a frame on an
    open one, reports an error on a socket whose [close] event is still
    to come, or closes a socket that is not closed yet, or an active timer
    fires (an interval any number of times, a timeout once). Each event
    runs one handler to completion. *)
Inductive event :=
| CallOpen
| CallStop
| Opened (c : nat)
| Message (c : nat) (data : string)
| Errored (c : nat)
| Closed (c : nat)
| Fired (id : nat).

(** The world after a handler or method has run: an exception that
    leaves it is recorded. *)
Definition settle (r : outcome unit) : world :=
  match r with
  | Ret _ w => w
  | Raise e w => with_uncaught (uncaught w ++ [e]) w
  end.

(** The browser changes the socket's state, then dispatches the event. *)
Definition become (c : nat) (s : readyState) (w : world) : world :=
  match sockets w !! c with
  | Some ch => with_sockets (<[c := set_state s ch]> (sockets w)) w
  | None => w
  end.

Definition find_timer (id : nat) (w : world) : option timer :=
  List.find (fun t => (tid t =? id)%nat) (timers w).

(** One event; [None] when the event cannot happen in this world. *)
Definition step (e : event) (w : world) : option world :=
  match e with
  | CallOpen => Some (settle (open w))
  | CallStop => Some (settle (stop w))
  | Opened c =>
      match readyState_of c w with
      | Some CONNECTING => Some (settle (onopen (become c OPEN w)))
      | _ => None
      end
  | Message c data =>
      match readyState_of c w with
      | Some OPEN => Some (settle (onmessage data w))
      | _ => None
      end
  | Errored c =>
      match readyState_of c w with
      | Some CLOSED | None => None
      | Some _ => Some (settle (onerror w))
      end
  | Closed c =>
      match readyState_of c w with
      | Some CLOSED | None => None
      | Some _ => Some (settle (onclose (become c CLOSED w)))
      end
  | Fired id =>
      match find_timer id w with
      | Some t =>
          match job t with
          | Heartbeat _ => Some (settle (heartbeat w))
          | Reopen _ =>
              Some (settle
                (open (with_timers
                         (filter (fun t' => tid t' <> id) (timers w)) w)))
          end
      | None => None
      end
  end.

Fixpoint run (evs : list event) (w : world) : option world :=
  match evs with
  | [] => Some w
  | e :: rest =>
      match step e w with
      | Some w' => run rest w'
      | None => None
      end
  end.

(** *** Sessions opened only when idle

    [main.ts] makes a new manager for every stream and calls [open()] on
    it once; every later [open()] is the retry timer's. The condition
    below is the general form of that use: the caller calls [open()] only
    while no socket of the session is alive and no retry is waiting. *)
Definition retry_waiting (t : timer) : bool :=
  match job t with
  | Reopen _ => true
  | Heartbeat _ => false
  end.

Definition beating (t : timer) : bool := negb (retry_waiting t).

Definition alive (ch : channel) : bool :=
  negb (bool_decide (state ch = CLOSED)).

Definition idle (w : world) : bool :=
  forallb (fun ch => negb (alive ch)) (sockets w)
  && forallb (fun t => negb (retry_waiting t)) (timers w).

Definition allowed (e : event) (w : world) : bool :=
  match e with
  | CallOpen => idle w
  | _ => true
  end.

Fixpoint orderly_run (evs : list event) (w : world) : option world :=
  match evs with
  | [] => Some w
  | e :: rest =>
      if allowed e w then
        match step e w with
        | Some w' => orderly_run rest w'
        | None => None
        end
      else None
  end.

(** *** Auxiliary notions for the proofs *)

(** The world the open handler leaves once the init payload is out (or
    dropped): the [onStart] call made, the new heartbeat interval
    running. *)
Definition onopen_rest (socks : list channel) (w : world) : world :=
  {| this :=
       {| ws := ws (this w); retries := 0; closedByClient := false;
          heartbeatTimer := Some (nextTimer w) |};
     sockets := socks;
     timers :=
       (timers w ++ [mkTimer (nextTimer w)
                             (Heartbeat (default 20000 (heartbeatMs o)))])%list;
     nextTimer := S (nextTimer w);
     calls := (calls w ++ optional (onStart o) OnStart)%list;
     delays := delays w;
     uncaught := uncaught w |}.

(** The attempt count is a count within the budget. *)
Definition within_budget (w : world) : Prop :=
  0 <= retries (this w) <= default 3 (maxRetries o).

(** The frames a socket may have been sent: none, or the init payload
    followed by keep-alive frames only. *)
Definition init_then_pings (frames : list string) : Prop :=
  exists n, frames = JSON_stringify P (init o) :: replicate n ping.

(** Every socket that is not closed is the session's socket. *)
Definition only_current (cur : option nat) (socks : list channel) : Prop :=
  forall c ch, socks !! c = Some ch -> state ch <> CLOSED -> cur = Some c.

(** Timer ids in use are positive and below the counter. *)
Definition ids_fresh (next : nat) (hbt : option nat) (tms : list timer)
  : Prop :=
  (1 <= next)%nat
  /\ (forall h, hbt = Some h -> (h < next)%nat)
  /\ (forall t, t ∈ tms -> (tid t < next)%nat).

(** At most one timer is active. A waiting retry means that every socket
    is closed; a heartbeat is the one the manager remembers, and the
    session's socket is open. *)
Definition timers_ok (cur : option nat) (hbt : option nat)
    (socks : list channel) (tms : list timer) : Prop :=
  match tms with
  | [] => True
  | [t] =>
      match job t with
      | Reopen _ =>
          (forall c ch, socks !! c = Some ch -> state ch = CLOSED)
          /\ hbt <> Some (tid t)
      | Heartbeat _ =>
          hbt = Some (tid t) /\ tid t <> 0%nat
          /\ exists c ch, cur = Some c /\ socks !! c = Some ch /\ state ch = OPEN
      end
  | _ :: _ :: _ => False
  end.

(** A connecting socket has been sent nothing, an open one the init
    payload first, and no socket anything but the init payload followed
    by keep-alive frames. *)
Definition frames_ok (socks : list channel) : Prop :=
  forall c ch,
    socks !! c = Some ch ->
    (state ch = CONNECTING -> sent ch = [])
    /\ (state ch = OPEN -> init_then_pings (sent ch))
    /\ (sent ch = [] \/ init_then_pings (sent ch)).

(** The invariant of sessions opened only when idle. *)
Definition orderly (w : world) : Prop :=
  only_current (ws (this w)) (sockets w)
  /\ ids_fresh (nextTimer w) (heartbeatTimer (this w)) (timers w)
  /\ timers_ok (ws (this w)) (heartbeatTimer (this w)) (sockets w) (timers w)
  /\ frames_ok (sockets w).

End Manager.

(** *** Inbound messages as the specification lists them

    A well-formed frame is an object whose [type] is a string and whose
    [data], when present, is a string. *)
Record inbound := mkInbound {
  kind : string;
  carried : option string
}.

Definition reads_as (m : value) (f : inbound) : Prop :=
  prop "type" m = Some (Some (JStr (kind f)))
  /\ prop "data" m = Some (JStr <$> carried f).

(** The dispatch table in the words of the specification: the message of
    an [error] frame is passed on, and replaced by [error] only when the
    frame carries none. *)
Definition dispatch_stated (o : WSOpts) (f : inbound) : list call :=
  if String.eqb (kind f) "token" then
    [OnToken (JStr (default EmptyString (carried f)))]
  else if String.eqb (kind f) "start" then optional (onStart o) OnStart
  else if String.eqb (kind f) "end" then optional (onEnd o) OnEnd
  else if String.eqb (kind f) "error" then
    optional (onError o) (OnError (JStr (default "error" (carried f))))
  else [].

(** The same table with the one difference the code has: an [error]
    frame whose message is the empty string is reported as [error]
    too. *)
Definition dispatch_amended (o : WSOpts) (f : inbound) : list call :=
  if String.eqb (kind f) "token" then
    [OnToken (JStr (default EmptyString (carried f)))]
  else if String.eqb (kind f) "start" then optional (onStart o) OnStart
  else if String.eqb (kind f) "end" then optional (onEnd o) OnEnd
  else if String.eqb (kind f) "error" then
    optional (onError o)
      (OnError (JStr (match carried f with
                      | Some EmptyString | None => "error"
                      | Some d => d
                      end)))
  else [].

(** The world with some more callback calls made. *)
Definition called (cs : list call) (w : world) : world :=
  with_calls (calls w ++ cs) w.

(** *** The session seen from outside *)

Section Outside.

Variable P : platform.
Variable o : WSOpts.

(** The calls the message handler makes for a frame, as a function of the
    frame text alone. *)
Definition frame_calls (data : string) : list call :=
  match JSON_parse P data with
  | Some m =>
      match prop "type" m with
      | Some type =>
          let m_data := default None (prop "data" m) in
          if is_str type "token" then [OnToken (or_else m_data EmptyString)]
          else if is_str type "start" then optional (onStart o) OnStart
          else if is_str type "end" then optional (onEnd o) OnEnd
          else if is_str type "error" then
            optional (onError o) (OnError (or_else m_data "error"))
          else []
      | None => []
      end
  | None => []
  end.

(** The calls an event leads to in a session opened only when idle. *)
Definition event_calls (e : event) : list call :=
  match e with
  | Opened _ => optional (onStart o) OnStart
  | Message _ data => frame_calls data
  | Errored _ => optional (onError o) (OnError (JStr "ws_error"))
  | CallOpen | CallStop | Closed _ | Fired _ => []
  end.

(** The address [open()] computes. *)
Definition socket_address : string :=
  (if String.eqb (location_protocol P) "https:" then "wss" else "ws")
    ++ "://" ++ location_host P ++ url o.

(** A session that was stopped with nothing left to run: marked as
    stopped, no timer active, no socket connecting or open. *)
Definition halted (w : world) : Prop :=
  closedByClient (this w) = true
  /\ timers w = []
  /\ forall c ch, sockets w !! c = Some ch ->
       state ch = CLOSING \/ state ch = CLOSED.

(** The events of the network and of the timers; the others are the
    caller's two methods. *)
Definition from_caller (e : event) : bool :=
  match e with
  | CallOpen | CallStop => true
  | _ => false
  end.

Definition is_call_open (e : event) : bool :=
  match e with
  | CallOpen => true
  | _ => false
  end.



(** The arguments of the [onToken] calls among some calls, in order. *)
Definition tokens (cs : list call) : list value :=
  omap (fun c => match c with OnToken s => Some s | _ => None end) cs.

(** The four kinds of frame the message handler knows. *)
Definition known_kind (t : string) : bool :=
  String.eqb t "token" || String.eqb t "start" || String.eqb t "end"
  || String.eqb t "error".

(** How a socket may change over time: it keeps its address, what was
    sent on it stays sent, and once closed it does not change at all. *)
Definition extends (ch ch' : channel) : Prop :=
  address ch' = address ch
  /\ sent ch `prefix_of` sent ch'
  /\ (state ch = CLOSED -> ch' = ch).

(** How the sockets of a session may change: none is removed or moved,
    each one that was there extends what it was, and a new one is
    connecting to the session's address with nothing sent. *)
Definition grown (socks socks' : list channel) : Prop :=
  (length socks <= length socks')%nat
  /\ forall c ch',
       socks' !! c = Some ch' ->
       (exists ch, socks !! c = Some ch /\ extends ch ch')
       \/ (socks !! c = None
           /\ ch' = mkChannel socket_address CONNECTING []).



(** Once a socket exists the manager holds one. *)
Definition holds_socket (w : world) : Prop :=
  sockets w = [] \/ is_Some (ws (this w)).

(** *** The history of a session *)










End Outside.

(** *** What the caller and the browser can make fail

    The handlers of [Manager] are written for callbacks that return, an
    address the [WebSocket] constructor accepts and an init payload
    [JSON.stringify] can serialise. The source has the three calls
    outside any [try], but for the callbacks of the message handler;
    these are the handlers with the three failures in. A callback still
    does not call back into the manager. *)

Section Unguarded.

Variable P : platform.
Variable o : WSOpts.

(** What a callback throws, if it throws, when it is called after the
    calls made so far (the exception is one of the model's three kinds;
    no handler looks at it); the addresses the constructor accepts; the
    values that can be serialised. *)
Variable throws : list call -> call -> option exn.
Variable accepts : string -> bool.
Variable serialisable : value -> bool.

(** Calling a callback: the call is made, and the callback returns or
    throws. *)
Definition invoke_u (c : call) : M unit :=
  fun w =>
    match throws (calls w) c with
    | Some x => Raise x (with_calls (calls w ++ [c]) w)
    | None => Ret tt (with_calls (calls w ++ [c]) w)
    end.

Definition invoke_opt_u (supplied : bool) (c : call) : M unit :=
  when supplied (invoke_u c).

(** [new WebSocket(address)]: a [SyntaxError] for an address the
    constructor rejects. *)
Definition new_WebSocket_u (addr : string) : M nat :=
  if accepts addr then new_WebSocket addr else raise SyntaxError.

(** [JSON.stringify(v)]: a [TypeError] for a value that cannot be
    serialised. *)
Definition stringify_u (v : value) : M string :=
  if serialisable v then ret (JSON_stringify P v) else raise TypeError.

(** [open()]. *)
Definition open_u : M unit :=
  let proto :=
    if String.eqb (location_protocol P) "https:" then "wss" else "ws" in
  c <- new_WebSocket_u (proto ++ "://" ++ location_host P ++ url o) ;;
  update (set_ws (Some c)).

(** [this.ws.onopen]: [this.ws!.send] is looked up before the argument
    [JSON.stringify(this.opts.init)] is evaluated. *)
Definition onopen_u : M unit :=
  _ <- update (set_retries 0) ;;
  _ <- update (set_closedByClient false) ;;
  m <- get ;;
  _ <- match ws m return M unit with
       | Some c => payload <- stringify_u (init o) ;; send c payload
       | None => raise TypeError
       end ;;
  _ <- invoke_opt_u (onStart o) OnStart ;;
  let hb := default 20000 (heartbeatMs o) in
  id <- setInterval hb ;;
  update (set_heartbeatTimer (Some id)).

(** [this.ws.onmessage]: the callbacks are called inside the [try]. *)
Definition onmessage_u (data : string) : M unit :=
  try_ignore
    (m <- match JSON_parse P data return M value with
          | Some v => ret v
          | None => raise SyntaxError
          end ;;
     type <- match prop "type" m return M (option value) with
             | Some t => ret t
             | None => raise TypeError
             end ;;
     let m_data := default None (prop "data" m) in
     if is_str type "token" then invoke_u (OnToken (or_else m_data EmptyString))
     else if is_str type "start" then invoke_opt_u (onStart o) OnStart
     else if is_str type "end" then invoke_opt_u (onEnd o) OnEnd
     else if is_str type "error" then
       invoke_opt_u (onError o) (OnError (or_else m_data "error"))
     else ret tt).

(** [this.ws.onerror]. *)
Definition onerror_u : M unit :=
  invoke_opt_u (onError o) (OnError (JStr "ws_error")).

(** One event, as [step]; the close handler, the heartbeat and [stop()]
    call neither a callback nor the constructor. *)
Definition step_u (e : event) (w : world) : option world :=
  match e with
  | CallOpen => Some (settle (open_u w))
  | CallStop => Some (settle (stop w))
  | Opened c =>
      match readyState_of c w with
      | Some CONNECTING => Some (settle (onopen_u (become c OPEN w)))
      | _ => None
      end
  | Message c data =>
      match readyState_of c w with
      | Some OPEN => Some (settle (onmessage_u data w))
      | _ => None
      end
  | Errored c =>
      match readyState_of c w with
      | Some CLOSED | None => None
      | Some _ => Some (settle (onerror_u w))
      end
  | Closed c =>
      match readyState_of c w with
      | Some CLOSED | None => None
      | Some _ => Some (settle (onclose o (become c CLOSED w)))
      end
  | Fired id =>
      match find_timer id w with
      | Some t =>
          match job t with
          | Heartbeat _ => Some (settle (heartbeat w))
          | Reopen _ =>
              Some (settle
                (open_u (with_timers
                           (filter (fun t' => tid t' <> id) (timers w)) w)))
          end
      | None => None
      end
  end.

Fixpoint run_u (evs : list event) (w : world) : option world :=
  match evs with
  | [] => Some w
  | e :: rest =>
      match step_u e w with
      | Some w' => run_u rest w'
      | None => None
      end
  end.

Fixpoint orderly_run_u (evs : list event) (w : world) : option world :=
  match evs with
  | [] => Some w
  | e :: rest =>
      if allowed e w then
        match step_u e w with
        | Some w' => orderly_run_u rest w'
        | None => None
        end
      else None
  end.

(** The caller and the page the handlers of [Manager] are written
    for. *)
Definition well_behaved : Prop :=
  (forall past c, throws past c = None)
  /\ accepts (socket_address P o) = true
  /\ serialisable (init o) = true.

(** The exceptions that can leave a handler or a method: that of a
    [send] on a connecting socket, that of the constructor for the
    session's address, that of [JSON.stringify] for the init payload,
    and what [onStart] or [onError] (called with [ws_error]) throws. *)
Definition accounted (x : exn) : Prop :=
  x = InvalidStateError
  \/ (x = SyntaxError /\ accepts (socket_address P o) = false)
  \/ (x = TypeError /\ serialisable (init o) = false)
  \/ (onStart o = true /\ exists past, throws past OnStart = Some x)
  \/ (onError o = true
      /\ exists past, throws past (OnError (JStr "ws_error")) = Some x).

End Unguarded.

End Session.

(** ** Telegram's WebApp object ([telegram.d.ts]) *)

Module Telegram.

(** The fields of [window.Telegram.WebApp] the page reads. An optional
    field that is missing is [None]; [themeParams] is the list of the
    object's properties, each name once. *)
Record WebApp := mkWebApp {
  initData : string;
  colorScheme : option string;
  themeParams : option (list (string * string))
}.

(** [p.k] on such an object. *)
Fixpoint get (k : string) (p : list (string * string)) : option string :=
  match p with
  | [] => None
  | (k', v) :: rest => if String.eqb k k' then Some v else get k rest
  end.

(** [x || d] where [x] is a string or [undefined]. *)
Definition or_str (x : option string) (d : string) : string :=
  match x with
  | Some (String c s) => String c s
  | Some EmptyString | None => d
  end.

End Telegram.

(** ** Theme colours ([theme.ts]) *)

Module Theme.

Import Telegram.

(** [applyThemeFromTelegram(tg)], as the calls
    [document.documentElement.style.setProperty(k, v)] it makes, in
    order; [tg] is [None] when the page runs outside Telegram. *)
Definition applyThemeFromTelegram (tg : option WebApp)
  : list (string * string) :=
  let p :=
    match tg with
    | Some t => default [] (themeParams t)
    | None => []
    end in
  let isDark :=
    String.eqb
      (or_str (match tg with Some t => colorScheme t | None => None end) "dark")
      "dark" in
  [("--bg", or_str (get "bg_color" p) (if isDark then "#0b0d0f" else "#fafafa"));
   ("--card",
    or_str (get "secondary_bg_color" p) (if isDark then "#111418" else "#ffffff"));
   ("--text", or_str (get "text_color" p) (if isDark then "#e6edf3" else "#111827"));
   ("--muted", or_str (get "hint_color" p) (if isDark then "#9aa4b2" else "#6b7280"));
   ("--border",
    or_str (get "section_separator_color" p)
      (if isDark then "#1f242b" else "#e5e7eb"))].

(** The five theme parameters the function reads. *)
Definition theme_keys : list string :=
  ["bg_color"; "secondary_bg_color"; "text_color"; "hint_color";
   "section_separator_color"].

(** A theme parameter that is set to a string that is not empty. *)
Definition usable (k : string) (p : list (string * string)) : bool :=
  match get k p with
  | Some (String _ _) => true
  | _ => false
  end.

(** The two palettes. *)
Definition dark_palette : list (string * string) :=
  [("--bg", "#0b0d0f"); ("--card", "#111418"); ("--text", "#e6edf3");
   ("--muted", "#9aa4b2"); ("--border", "#1f242b")].

Definition light_palette : list (string * string) :=
  [("--bg", "#fafafa"); ("--card", "#ffffff"); ("--text", "#111827");
   ("--muted", "#6b7280"); ("--border", "#e5e7eb")].

(** The colour scheme and the theme parameters of a page, outside
    Telegram too. *)
Definition scheme_of (tg : option WebApp) : option string :=
  match tg with
  | Some t => colorScheme t
  | None => None
  end.

Definition params_of (tg : option WebApp) : list (string * string) :=
  match tg with
  | Some t => default [] (themeParams t)
  | None => []
  end.

End Theme.

(** ** The page ([ui.ts], [main.ts]) *)

Module App.

Import Session Telegram.

(** *** The document *)

(** An element of the page, with the properties the script reads or
    writes. *)
Record element := mkElement {
  textContent : string;
  value : string;
  disabled : bool;
  scrollTop : Z
}.

Definition set_textContent (x : string) (e : element) : element :=
  mkElement x (value e) (disabled e) (scrollTop e).
Definition set_disabled (x : bool) (e : element) : element :=
  mkElement (textContent e) (value e) x (scrollTop e).
Definition set_scrollTop (x : Z) (e : element) : element :=
  mkElement (textContent e) (value e) (disabled e) x.

(** The document, as the elements its selectors find: a selector of [el]
    with the element it denotes, in document order. The script never adds
    or removes an element. *)
Definition document := list (string * element).

(** [document.querySelector(sel)]: the first match, or [null]. *)
Fixpoint querySelector (sel : string) (d : document) : option element :=
  match d with
  | [] => None
  | (s, e) :: rest =>
      if String.eqb sel s then Some e else querySelector sel rest
  end.

(** The document after a write to a property of the element [sel]
    finds. *)
Fixpoint assign (sel : string) (e' : element) (d : document) : document :=
  match d with
  | [] => []
  | (s, e) :: rest =>
      if String.eqb sel s then (s, e') :: rest
      else (s, e) :: assign sel e' rest
  end.

(** *** The state of the page

    The document; the two module variables of [ui.ts] and the animation
    frame callbacks waiting (all the same closure, so their number); the
    managers [startStream] has created, each with the world it acts on,
    and [mgr], the index of the latest; and what was observable: the text
    of each paint, the alerts shown, the texts handed to the clipboard,
    and the messages of the errors that left a handler. *)
Record page := mkPage {
  dom : document;
  buffer : string;
  rafPending : bool;
  rafQueue : nat;
  managers : list (WSOpts * world);
  mgr : option nat;
  painted : list string;
  alerts : list string;
  copied : list string;
  errors : list string
}.

Definition with_dom (x : document) (pg : page) : page :=
  mkPage x (buffer pg) (rafPending pg) (rafQueue pg) (managers pg) (mgr pg)
         (painted pg) (alerts pg) (copied pg) (errors pg).
Definition with_buffer (x : string) (pg : page) : page :=
  mkPage (dom pg) x (rafPending pg) (rafQueue pg) (managers pg) (mgr pg)
         (painted pg) (alerts pg) (copied pg) (errors pg).
Definition with_rafPending (x : bool) (pg : page) : page :=
  mkPage (dom pg) (buffer pg) x (rafQueue pg) (managers pg) (mgr pg)
         (painted pg) (alerts pg) (copied pg) (errors pg).
Definition with_rafQueue (x : nat) (pg : page) : page :=
  mkPage (dom pg) (buffer pg) (rafPending pg) x (managers pg) (mgr pg)
         (painted pg) (alerts pg) (copied pg) (errors pg).
Definition with_managers (x : list (WSOpts * world)) (pg : page) : page :=
  mkPage (dom pg) (buffer pg) (rafPending pg) (rafQueue pg) x (mgr pg)
         (painted pg) (alerts pg) (copied pg) (errors pg).
Definition with_mgr (x : option nat) (pg : page) : page :=
  mkPage (dom pg) (buffer pg) (rafPending pg) (rafQueue pg) (managers pg) x
         (painted pg) (alerts pg) (copied pg) (errors pg).
Definition with_painted (x : list string) (pg : page) : page :=
  mkPage (dom pg) (buffer pg) (rafPending pg) (rafQueue pg) (managers pg)
         (mgr pg) x (alerts pg) (copied pg) (errors pg).
Definition with_alerts (x : list string) (pg : page) : page :=
  mkPage (dom pg) (buffer pg) (rafPending pg) (rafQueue pg) (managers pg)
         (mgr pg) (painted pg) x (copied pg) (errors pg).
Definition with_copied (x : list string) (pg : page) : page :=
  mkPage (dom pg) (buffer pg) (rafPending pg) (rafQueue pg) (managers pg)
         (mgr pg) (painted pg) (alerts pg) x (errors pg).
Definition with_errors (x : list string) (pg : page) : page :=
  mkPage (dom pg) (buffer pg) (rafPending pg) (rafQueue pg) (managers pg)
         (mgr pg) (painted pg) (alerts pg) (copied pg) x.

(** The page when the script is loaded, on a given document. *)
Definition loaded (d : document) : page :=
  {| dom := d; buffer := EmptyString; rafPending := false; rafQueue := 0%nat;
     managers := []; mgr := None;
     painted := []; alerts := []; copied := []; errors := [] |}.

(** *** Handlers as computations

    A function of the script runs on the page and either returns or
    throws an [Error] with a message. *)
Inductive result (A : Type) :=
| Done (a : A) (pg : page)
| Threw (msg : string) (pg : page).
Arguments Done {A} a pg.
Arguments Threw {A} msg pg.

Definition H (A : Type) : Type := page -> result A.

Definition done {A} (a : A) : H A := fun pg => Done a pg.
Definition throw {A} (msg : string) : H A := fun pg => Threw msg pg.
Definition and_then {A B} (m : H A) (k : A -> H B) : H B :=
  fun pg =>
    match m pg with
    | Done a pg' => k a pg'
    | Threw msg pg' => Threw msg pg'
    end.

Notation "x <~ m ;; k" := (and_then m (fun x => k))
  (at level 100, m at next level, right associativity).

(** The page after a handler has run: an error that leaves it is
    reported and otherwise lost. *)
Definition settle (r : result unit) : page :=
  match r with
  | Done _ pg => pg
  | Threw msg pg => with_errors (errors pg ++ [msg]) pg
  end.

(** The name of an exception of the session, as an error message. *)
Definition exn_name (e : exn) : string :=
  match e with
  | InvalidStateError => "InvalidStateError"
  | SyntaxError => "SyntaxError"
  | TypeError => "TypeError"
  end.

(** *** [ui.ts] *)

(** [qs(sel)]. *)
Definition qs (sel : string) : H element :=
  fun pg =>
    match querySelector sel (dom pg) with
    | Some e => Done e pg
    | None => Threw ("Missing element: " ++ sel) pg
    end.

(** A write [qs(sel).prop = ...], where the new value may depend on the
    element. *)
Definition modify (sel : string) (f : element -> element) : H unit :=
  e <~ qs sel ;;
  fun pg => Done tt (with_dom (assign sel (f e) (dom pg)) pg).

(** [setWsStatus(s)]. *)
Definition setWsStatus (s : string) : H unit :=
  modify "#wsStatus" (set_textContent ("WS: " ++ s)).

(** [appendOut(s)]. *)
Definition appendOut (s : string) : H unit :=
  fun pg =>
    let pg1 := with_buffer (buffer pg ++ s) pg in
    if negb (rafPending pg1) then
      Done tt (with_rafQueue (S (rafQueue pg1)) (with_rafPending true pg1))
    else Done tt pg1.

Section Script.

(** The surroundings of the script: the engine and the page's address
    (for the sessions), [window.Telegram?.WebApp], whether a string is
    empty after [trim()], the engine's conversion of a JSON value to a
    string, the layout's [scrollHeight] for a text, and whether
    [navigator.clipboard] exists. *)
Variable P : platform.
Variable tg : option WebApp.
Variable blank : string -> bool.
Variable to_text : JSON.value -> string.
Variable scrollHeight : string -> Z.
Variable clipboard : bool.

(** The callback [appendOut] hands to [requestAnimationFrame]. *)
Definition renderPass : H unit :=
  out <~ qs "#out" ;;
  _ <~ (fun pg =>
          Done tt
            (with_painted (painted pg ++ [buffer pg])
               (with_dom
                  (assign "#out"
                     (set_textContent (textContent out ++ buffer pg) out)
                     (dom pg))
                  pg))) ;;
  _ <~ (fun pg => Done tt (with_rafPending false (with_buffer EmptyString pg))) ;;
  out' <~ qs "#out" ;;
  modify "#out" (set_scrollTop (scrollHeight (textContent out'))).

(** One display refresh: the callbacks that were waiting run, each to
    its end or to its error. *)
Definition animationFrame (pg : page) : page :=
  Nat.iter (rafQueue pg) (fun p => settle (renderPass p))
    (with_rafQueue 0 pg).

(** *** [main.ts] *)

(** [alert(msg)]. *)
Definition alert (msg : string) : H unit :=
  fun pg => Done tt (with_alerts (alerts pg ++ [msg]) pg).

(** A call of a method of the manager [i]; what the method throws reaches
    the caller. *)
Definition call_method (m : M unit) (i : nat) : H unit :=
  fun pg =>
    match managers pg !! i with
    | Some (o, w) =>
        match m w with
        | Ret _ w' => Done tt (with_managers (<[i := (o, w')]> (managers pg)) pg)
        | Raise e w' =>
            Threw (exn_name e)
              (with_managers (<[i := (o, w')]> (managers pg)) pg)
        end
    | None => Done tt pg
    end.

(** [mgr?.stop()]. *)
Definition stop_mgr : H unit :=
  fun pg =>
    match mgr pg with
    | Some i => call_method stop i pg
    | None => Done tt pg
    end.

(** The options [startStream] passes to the constructor. *)
Definition stream_options (t : WebApp) (payload level : string) : WSOpts :=
  {| url := "/ws/adapt";
     init :=
       JSON.JObj [("init_data", JSON.JStr (initData t));
                  ("source_type", JSON.JStr "text");
                  ("payload", JSON.JStr payload);
                  ("level", JSON.JStr level)];
     onStart := true;
     onEnd := true;
     onError := true;
     maxRetries := Some 2;
     heartbeatMs := Some 20000 |}.

(** [mgr = new WebSocketManager(opts)]. *)
Definition new_manager (o : WSOpts) : H nat :=
  fun pg =>
    let i := length (managers pg) in
    Done i (with_mgr (Some i) (with_managers (managers pg ++ [(o, created)]) pg)).

(** [startStream()], the click handler of [#start]. *)
Definition startStream : H unit :=
  match tg with
  | None => alert "Open via Telegram"
  | Some t =>
      input <~ qs "#input" ;;
      if blank (value input) then alert "Paste text first"
      else
        _ <~ stop_mgr ;;
        _ <~ modify "#start" (set_disabled true) ;;
        _ <~ modify "#stop" (set_disabled false) ;;
        _ <~ setWsStatus "connecting…" ;;
        input' <~ qs "#input" ;;
        level <~ qs "#level" ;;
        i <~ new_manager (stream_options t (value input') (value level)) ;;
        fun pg =>
          match managers pg !! i with
          | Some (o, _) => call_method (open P o) i pg
          | None => Done tt pg
          end
  end.

(** [stopStream()], the click handler of [#stop]. *)
Definition stopStream : H unit :=
  _ <~ stop_mgr ;;
  _ <~ setWsStatus "closed" ;;
  _ <~ modify "#start" (set_disabled false) ;;
  modify "#stop" (set_disabled true).

(** [clearOut()], the click handler of [#clear]. *)
Definition clearOut : H unit :=
  modify "#out" (set_textContent EmptyString).

(** [copyOut()], the click handler of [#copy]; the promise of
    [writeText] is not awaited and its failure is ignored, so what is
    recorded is the text handed over. *)
Definition copyOut : H unit :=
  out <~ qs "#out" ;;
  let text := or_str (Some (textContent out)) EmptyString in
  match text with
  | EmptyString => done tt
  | String _ _ =>
      if clipboard then
        fun pg => Done tt (with_copied (copied pg ++ [text]) pg)
      else done tt
  end.

(** The line feed, and the two texts the callbacks of [startStream]
    append besides tokens. *)
Definition nl : string := String (ascii_of_nat 10) EmptyString.
Definition done_text : string := nl ++ nl ++ "— done —".
Definition error_text (e : JSON.value) : string := nl ++ "[error] " ++ to_text e.

(** A callback of the options of [startStream], called by a manager. *)
Definition perform (c : call) : H unit :=
  match c with
  | OnToken s => appendOut (to_text s)
  | OnStart => setWsStatus "connected"
  | OnEnd => appendOut done_text
  | OnError e => appendOut (error_text e)
  end.

Definition perform_all (cs : list call) (pg : page) : page :=
  fold_left (fun p c => settle (perform c p)) cs pg.

(** *** The environment of the page

    A click on one of the four buttons (a button that is missing or
    disabled gets no click), a display refresh, or an event of the
    network or of a timer for one of the managers, whose handler runs and
    makes its callback calls. A manager exists only after [startStream]
    has written the status, so its [onStart] finds [#wsStatus]. *)
Inductive event :=
| ClickStart
| ClickStop
| ClickClear
| ClickCopy
| Refresh
| Net (i : nat) (e : Session.event).

Definition clickable (sel : string) (pg : page) : bool :=
  match querySelector sel (dom pg) with
  | Some b => negb (disabled b)
  | None => false
  end.

Definition click (sel : string) (handler : H unit) (pg : page) : option page :=
  if clickable sel pg then Some (settle (handler pg)) else None.

Definition step (ev : event) (pg : page) : option page :=
  match ev with
  | ClickStart => click "#start" startStream pg
  | ClickStop => click "#stop" stopStream pg
  | ClickClear => click "#clear" clearOut pg
  | ClickCopy => click "#copy" copyOut pg
  | Refresh => Some (animationFrame pg)
  | Net i e =>
      match managers pg !! i with
      | Some (o, w) =>
          if from_caller e then None
          else
            match Session.step P o e w with
            | Some w' =>
                Some (perform_all (drop (length (calls w)) (calls w'))
                        (with_managers (<[i := (o, w')]> (managers pg)) pg))
            | None => None
            end
      | None => None
      end
  end.

Fixpoint run (evs : list event) (pg : page) : option page :=
  match evs with
  | [] => Some pg
  | ev :: rest =>
      match step ev pg with
      | Some pg' => run rest pg'
      | None => None
      end
  end.

(** *** Notions for the properties *)

(** The text of [#out], empty when the page has no such element. *)
Definition shown (pg : page) : string :=
  match querySelector "#out" (dom pg) with
  | Some out => textContent out
  | None => EmptyString
  end.

(** What a callback call adds to the output. *)
Definition say (c : call) : string :=
  match c with
  | OnToken s => to_text s
  | OnStart => EmptyString
  | OnEnd => done_text
  | OnError e => error_text e
  end.


(** The options of a manager of this page, but for the init payload. *)
Definition stream_like (o : WSOpts) : Prop :=
  url o = "/ws/adapt"
  /\ onStart o = true /\ onEnd o = true /\ onError o = true
  /\ maxRetries o = Some 2 /\ heartbeatMs o = Some 20000.

(** What holds of the managers of the page at any time: each one is a
    session opened only when idle, out of which no exception came, with
    the options of [startStream]; [mgr] is one of them; and once there is
    one the page has [#wsStatus]. *)
Definition managed (pg : page) : Prop :=
  (forall i o w,
      managers pg !! i = Some (o, w) ->
      orderly P o w /\ uncaught w = [] /\ stream_like o)
  /\ (forall i, mgr pg = Some i -> (i < length (managers pg))%nat)
  /\ (managers pg <> [] -> is_Some (querySelector "#wsStatus" (dom pg))).

(** Exactly one of the two buttons [#start] and [#stop] is enabled. *)
Definition one_enabled (d : document) : Prop :=
  exists b1 b2,
    querySelector "#start" d = Some b1
    /\ querySelector "#stop" d = Some b2
    /\ disabled b1 = negb (disabled b2).

(** The page after [mgr?.stop()]. *)
Definition stopped (pg : page) : page :=
  match mgr pg with
  | Some i =>
      match managers pg !! i with
      | Some (o, w) =>
          with_managers (<[i := (o, Session.settle (stop w))]> (managers pg)) pg
      | None => pg
      end
  | None => pg
  end.

(** The page after [mgr = new WebSocketManager(o); mgr.open()]. *)
Definition started (o : WSOpts) (pg : page) : page :=
  with_mgr (Some (length (managers pg)))
    (with_managers
       (managers pg ++ [(o, Session.settle (open P o created))])%list pg).

(** A change of the page that leaves the managers alone, adds or removes
    no element, and writes to the elements of the selectors [sels] at
    most. *)
Definition touches (sels : list string) (pg pg' : page) : Prop :=
  managers pg' = managers pg
  /\ mgr pg' = mgr pg
  /\ (forall sel,
        is_Some (querySelector sel (dom pg'))
        <-> is_Some (querySelector sel (dom pg)))
  /\ (forall sel, sel ∉ sels ->
        querySelector sel (dom pg') = querySelector sel (dom pg)).

(** A handler run from a page where [pre] holds ends in a page where
    [post] holds, whether it returns or throws. *)
Definition keeps {A} (pre : page -> Prop) (m : H A)
    (post : A -> page -> Prop) (err : page -> Prop) : Prop :=
  forall pg,
    pre pg ->
    match m pg with
    | Done a pg' => post a pg'
    | Threw _ pg' => err pg'
    end.

Definition is_clear (ev : event) : bool :=
  match ev with
  | ClickClear => true
  | _ => false
  end.

(** The sink of [ui.ts] as the claims see it, for a page that has
    [#out]. *)
Definition sink_of (pg : page) : option Sink.state :=
  match querySelector "#out" (dom pg) with
  | Some out =>
      Some {| Sink.textContent := textContent out;
              Sink.scrollTop := scrollTop out;
              Sink.buffer := buffer pg;
              Sink.rafPending := rafPending pg;
              Sink.rafQueue := rafQueue pg;
              Sink.painted := painted pg |}
  | None => None
  end.

End Script.

End App.

(** ** A concrete page

    The engine's JSON functions as above, a page served over https, and
    the options [startStream] of [main.ts] constructs its manager with
    (for some text and level chosen by the user). *)

Definition page : Session.platform :=
  {| Session.JSON_parse := JSON.parse;
     Session.JSON_stringify := JSON.stringify;
     Session.location_protocol := "https:";
     Session.location_host := "example.org" |}.

Definition stream_opts : Session.WSOpts :=
  {| Session.url := "/ws/adapt";
     Session.init :=
       JSON.JObj [("init_data", JSON.JStr "user=u1");
                  ("source_type", JSON.JStr "text");
                  ("payload", JSON.JStr "Hello");
                  ("level", JSON.JStr "B1")];
     Session.onStart := true;
     Session.onEnd := true;
     Session.onError := true;
     Session.maxRetries := Some 2;
     Session.heartbeatMs := Some 20000 |}.

(** The session of [stream_opts] once its first socket is open. *)
Definition streaming : Session.world :=
  default (Session.created)
    (Session.run page stream_opts [Session.CallOpen; Session.Opened 0]
       Session.created).




(** A caller whose callbacks return, with a constructor that accepts the
    address and a payload that can be serialised; and a caller whose
    [onStart] throws. *)
Definition never_throws (past : list Session.call) (c : Session.call)
  : option Session.exn := None.

Definition any_address (addr : string) : bool := true.

Definition any_value (v : JSON.value) : bool := true.

Definition start_throws (past : list Session.call) (c : Session.call)
  : option Session.exn :=
  match c with
  | Session.OnStart => Some Session.TypeError
  | _ => None
  end.

(** A layout in which every character is one unit high. *)
Definition tall (s : string) : Z := Z.of_nat (String.length s).

(** The frame [{"type": t, "data": d}] as text. *)
Definition frame (t d : string) : string :=
  "{" ++ dquote ++ "type" ++ dquote ++ ":" ++ dquote ++ t ++ dquote ++ ","
      ++ dquote ++ "data" ++ dquote ++ ":" ++ dquote ++ d ++ dquote ++ "}".

(** The frame [{"type": t}] as text. *)
Definition bare_frame (t : string) : string :=
  "{" ++ dquote ++ "type" ++ dquote ++ ":" ++ dquote ++ t ++ dquote ++ "}".

(** ** A concrete document

    The elements the handlers of [main.ts] ask for, with some text typed
    in and the stop button disabled, as before any stream. *)

Definition plain (text : string) (off : bool) : App.element :=
  {| App.textContent := EmptyString; App.value := text;
     App.disabled := off; App.scrollTop := 0 |}.

Definition markup : App.document :=
  [("#input", plain "Hello" false);
   ("#level", plain "B1" false);
   ("#out", plain EmptyString false);
   ("#wsStatus", plain EmptyString false);
   ("#start", plain EmptyString false);
   ("#stop", plain EmptyString true);
   ("#clear", plain EmptyString false);
   ("#copy", plain EmptyString false)].


(** A Telegram client with a light theme that sets one colour. *)
Definition telegram : Telegram.WebApp :=
  {| Telegram.initData := "user=u1";
     Telegram.colorScheme := Some "light";
     Telegram.themeParams := Some [("bg_color", "#202020")] |}.

(** A Telegram client that sets no colour. *)
Definition telegram_plain : Telegram.WebApp :=
  {| Telegram.initData := "user=u1";
     Telegram.colorScheme := Some "light";
     Telegram.themeParams := None |}.

(** Whether [trim()] leaves nothing, for a text of ASCII characters. *)
Fixpoint only_spaces (s : string) : bool :=
  match s with
  | EmptyString => true
  | String c rest =>
      let n := nat_of_ascii c in
      ((n =? 32) || ((9 <=? n) && (n <=? 13)))%nat && only_spaces rest
  end.

(** The engine's conversion to a string, exact on strings, [null],
    booleans, the empty array and objects; for a number or another array
    the JSON text stands in for it. *)
Definition as_text (v : JSON.value) : string :=
  match v with
  | JSON.JStr s => s
  | JSON.JNull => "null"
  | JSON.JBool true => "true"
  | JSON.JBool false => "false"
  | JSON.JArr [] => EmptyString
  | JSON.JObj _ => "[object Object]"
  | _ => JSON.stringify v
  end.

(** A stream on that document: the user starts it, its socket opens, two
    tokens and the end arrive, the display refreshes. *)
Definition session_events : list App.event :=
  [App.ClickStart;
   App.Net 0 (Session.Opened 0);
   App.Net 0 (Session.Message 0 (frame "start" "x"));
   App.Net 0 (Session.Message 0 (frame "token" "Hi "));
   App.Net 0 (Session.Message 0 (frame "token" "there"));
   App.Refresh;
   App.Net 0 (Session.Message 0 (bare_frame "end"));
   App.ClickStop].

Definition replay (d : App.document) (evs : list App.event)
  : option App.page :=
  App.run page (Some telegram) only_spaces as_text tall true evs
    (App.loaded d).

(** A stream of which the first token is on screen and copied, and the
    second still in the buffer. *)
Definition copying : list App.event :=
  [App.ClickStart;
   App.Net 0 (Session.Opened 0);
   App.Net 0 (Session.Message 0 (frame "token" "Hi "));
   App.Refresh;
   App.ClickCopy;
   App.Net 0 (Session.Message 0 (frame "token" "there"))].

Definition copy_page : App.page :=
  default (App.loaded markup) (replay markup copying).

(** * Properties *)

Local Open Scope list_scope.

(** ** Strings *)

Lemma str_cat_empty_r (s : string) : str_cat s EmptyString = s.
Proof.
  unfold str_cat. induction s as [|c s IH]; simpl; [reflexivity|].
  now rewrite IH.
Qed.

Lemma str_cat_assoc (a b c : string) :
  str_cat (str_cat a b) c = str_cat a (str_cat b c).
Proof.
  unfold str_cat. induction a as [|x a IH]; simpl; [reflexivity|].
  now rewrite IH.
Qed.

(** ** The output sink *)

Module SinkProps.

Import Sink.

Section WithLayout.

Variable scrollHeight : string -> Z.

(** Once a render pass is waiting, a burst only grows the buffer. *)
Lemma appendAll_armed (frags : list string) (st : state) :
  rafPending st = true ->
  appendAll frags st =
    {| textContent := textContent st; scrollTop := scrollTop st;
       buffer := str_cat (buffer st) (str_concat frags);
       rafPending := true; rafQueue := rafQueue st;
       painted := painted st |}.
Proof.
  revert st. induction frags as [|s frags IH]; intros st Harmed.
  - destruct st as [t sc b p q pa]. simpl in *. subst p.
    now rewrite str_cat_empty_r.
  - unfold appendAll in *. simpl fold_left.
    rewrite IH.
    + unfold appendOut. simpl. rewrite Harmed. simpl.
      now rewrite str_cat_assoc.
    + unfold appendOut. simpl. now rewrite Harmed.
Qed.

(** The first fragment of a burst arms the sink. *)
Lemma appendOut_settled (s : string) (st : state) :
  settled st ->
  appendOut s st =
    {| textContent := textContent st; scrollTop := scrollTop st;
       buffer := s; rafPending := true; rafQueue := 1%nat;
       painted := painted st |}.
Proof.
  intros (Hb & Hp & Hq). unfold appendOut. simpl.
  rewrite Hb, Hp, Hq. reflexivity.
Qed.

Lemma coherent_act (a : action) (st : state) :
  coherent st -> coherent (act scrollHeight a st).
Proof.
  intros [[Hp Hq] | Hs].
  - destruct a; simpl.
    + left. unfold appendOut. simpl. rewrite Hp. simpl. auto.
    + right. unfold animationFrame. rewrite Hq. simpl. repeat split.
    + left. simpl. auto.
  - destruct a; simpl.
    + left. rewrite (appendOut_settled _ _ Hs). simpl. auto.
    + right. destruct Hs as (Hb & Hp & Hq).
      unfold animationFrame. rewrite Hq. simpl. repeat split; assumption.
    + right. destruct Hs as (Hb & Hp & Hq). repeat split; assumption.
Qed.

(** Whatever the page does, the flag and the callback list agree. *)
Lemma coherent_run (acts : list action) (st : state) :
  coherent st -> coherent (run scrollHeight acts st).
Proof.
  revert st. unfold run.
  induction acts as [|a acts IH]; intros st H; simpl; [assumption|].
  apply IH. now apply coherent_act.
Qed.

(** After a display refresh the sink is settled: every burst starts from
    a settled sink. *)
Lemma settled_after_frame (acts : list action) :
  settled (animationFrame scrollHeight (run scrollHeight acts initial)).
Proof.
  assert (H : coherent (run scrollHeight acts initial)).
  { apply coherent_run. right. repeat split. }
  destruct H as [[Hp Hq] | (Hb & Hp & Hq)];
    unfold animationFrame; rewrite Hq; simpl; repeat split; assumption.
Qed.

(** C5. A burst of [appendOut] calls between two display refreshes,
    starting from a settled sink, registers exactly one render pass (none
    if the burst is empty); that pass adds to the rendered output exactly
    the fragments concatenated in arrival order, in a single paint, and
    leaves the buffer empty and the sink settled. *)
Theorem burst_painted_once (frags : list string) (st : state) :
  settled st ->
  let st1 := appendAll frags st in
  let st2 := animationFrame scrollHeight st1 in
  rafQueue st1 = (match frags with [] => 0 | _ :: _ => 1 end)%nat
  /\ textContent st2 = str_cat (textContent st) (str_concat frags)
  /\ painted st2 =
       (painted st ++
        match frags with [] => [] | _ :: _ => [str_concat frags] end)
  /\ buffer st2 = EmptyString
  /\ settled st2.
Proof.
  intros Hs. destruct frags as [|s frags].
  - destruct Hs as (Hb & Hp & Hq). simpl.
    unfold animationFrame. rewrite Hq. simpl.
    rewrite str_cat_empty_r, app_nil_r. repeat split; assumption.
  - simpl. unfold appendAll. simpl fold_left.
    rewrite (appendOut_settled _ _ Hs).
    change (fold_left (fun acc s0 => appendOut s0 acc) frags ?x)
      with (appendAll frags x).
    rewrite appendAll_armed by reflexivity. simpl.
    unfold animationFrame. simpl. repeat split.
Qed.

(** C4, as the code has it. [clearOut] empties the rendered output at
    once and nothing else: the buffer, the armed flag and the waiting
    render pass stay as they were, so when a pass is waiting it paints the
    fragments appended before the call. *)
Theorem clearOut_clears_output_only (st : state) :
  textContent (clearOut st) = EmptyString
  /\ buffer (clearOut st) = buffer st
  /\ rafPending (clearOut st) = rafPending st
  /\ rafQueue (clearOut st) = rafQueue st
  /\ (rafQueue st = 1%nat ->
      textContent (animationFrame scrollHeight (clearOut st)) = buffer st
      /\ painted (animationFrame scrollHeight (clearOut st)) =
           (painted st ++ [buffer st])).
Proof.
  repeat split; unfold animationFrame; simpl; rewrite H; reflexivity.
Qed.

End WithLayout.

Lemma burst_painted_once_witness :
  settled initial /\
  textContent (animationFrame tall (appendAll ["Hello"; " "; "world"] initial))
    = "Hello world".
Proof.
  split; [repeat split|].
  exact (proj1 (proj2 (burst_painted_once tall ["Hello"; " "; "world"] initial
                         (conj eq_refl (conj eq_refl eq_refl))))).
Defined.

(** C4, as stated, fails: a fragment appended before [clearOut] and not
    yet rendered stays in the buffer and is painted by the next pass. *)
Lemma clearOut_keeps_buffer :
  let st := clearOut (appendOut "x" initial) in
  buffer st <> EmptyString
  /\ textContent (animationFrame tall st) = "x".
Proof. split; [discriminate | reflexivity]. Qed.

Lemma clearOut_clears_output_only_witness :
  rafQueue (appendOut "x" initial) = 1%nat /\
  textContent (animationFrame tall (clearOut (appendOut "x" initial))) = "x".
Proof.
  split; [reflexivity|].
  exact (proj1 (proj2 (proj2 (proj2 (proj2
    (clearOut_clears_output_only tall (appendOut "x" initial))))) eq_refl)).
Defined.

End SinkProps.

(** ** The session *)

Module SessionProps.

Import JSON Session.

Lemma called_nil (w : world) : called [] w = w.
Proof. destruct w. unfold called, with_calls. simpl. now rewrite app_nil_r. Qed.

Lemma invoke_opt_called (b : bool) (c : call) (w : world) :
  invoke_opt b c w = Ret tt (called (optional b c) w).
Proof. destruct b; simpl; [reflexivity|]. now rewrite called_nil. Qed.

Section Manager.

Variable P : platform.
Variable o : WSOpts.

(** *** Inbound frames *)

(** C6. A frame that [JSON.parse] rejects makes the message handler
    return normally with the world exactly as it was: no callback is
    called, no exception leaves the handler, the session is untouched;
    and so the [message] event on an open socket changes nothing. *)
Theorem malformed_frame_ignored (data : string) (w : world) (c : nat) :
  JSON_parse P data = None ->
  onmessage P o data w = Ret tt w
  /\ (readyState_of c w = Some OPEN -> step P o (Message c data) w = Some w).
Proof.
  intros Hbad.
  assert (H : onmessage P o data w = Ret tt w).
  { unfold onmessage, try_ignore, bind. rewrite Hbad. reflexivity. }
  split; [exact H|].
  intros Hopen. unfold step. rewrite Hopen, H. reflexivity.
Qed.

(** C7, as the code has it. For a well-formed frame the message handler
    makes exactly the calls of the dispatch table: [onToken] with the data
    (the empty string when there is none) for [token], [onStart] for
    [start], [onEnd] for [end], [onError] for [error] with the message, or
    with [error] when the message is missing or empty, nothing for any
    other kind; an optional callback that was not supplied is skipped. The
    error handler calls [onError] with [ws_error]. Neither changes
    anything else. *)
Theorem frame_dispatch (data : string) (m : value) (f : inbound) (w : world) :
  JSON_parse P data = Some m ->
  reads_as m f ->
  onmessage P o data w = Ret tt (called (dispatch_amended o f) w)
  /\ onerror o w = Ret tt (called (optional (onError o) (OnError (JStr "ws_error"))) w).
Proof.
  intros Hparse [Htype Hdata]. split.
  - unfold onmessage, try_ignore, bind. rewrite Hparse. unfold ret at 1.
    rewrite Htype, Hdata. unfold ret at 1. simpl default.
    unfold dispatch_amended, is_str.
    destruct (String.eqb (kind f) "token").
    { unfold invoke, called. destruct (carried f) as [d|]; simpl; [|reflexivity].
      destruct d; reflexivity. }
    destruct (String.eqb (kind f) "start").
    { now rewrite invoke_opt_called. }
    destruct (String.eqb (kind f) "end").
    { now rewrite invoke_opt_called. }
    destruct (String.eqb (kind f) "error").
    { rewrite invoke_opt_called.
      destruct (carried f) as [d|]; simpl; [|reflexivity].
      destruct d; reflexivity. }
    unfold ret. now rewrite called_nil.
  - unfold onerror. apply invoke_opt_called.
Qed.

(** *** What the handlers compute *)

Lemma with_timers_same (w : world) : with_timers (timers w) w = w.
Proof. now destruct w. Qed.

Lemma clear_heartbeat_eq (w : world) :
  clear_heartbeat w = Ret tt (with_timers (kept w) w).
Proof.
  unfold clear_heartbeat, kept, bind, get.
  destruct (heartbeatTimer (this w)) as [id|]; simpl.
  - destruct (id =? 0)%nat; simpl; [|reflexivity].
    unfold ret. now rewrite with_timers_same.
  - unfold ret. now rewrite with_timers_same.
Qed.

(** The close handler, written out. *)
Lemma onclose_eq (w : world) :
  onclose o w =
    Ret tt
      (if negb (closedByClient (this w))
          && (retries (this w) <? default 3 (maxRetries o))
       then
         let delay := 500 * 2 ^ retries (this w) in
         {| this := set_retries (retries (this w) + 1) (this w);
            sockets := sockets w;
            timers := kept w ++ [mkTimer (nextTimer w) (Reopen delay)];
            nextTimer := S (nextTimer w);
            calls := calls w;
            delays := delays w ++ [delay];
            uncaught := uncaught w |}
       else with_timers (kept w) w).
Proof.
  unfold onclose, bind. rewrite clear_heartbeat_eq. unfold get. simpl.
  destruct (closedByClient (this w)); simpl; [reflexivity|].
  destruct (retries (this w) <? default 3 (maxRetries o)); reflexivity.
Qed.

(** [stop()], written out. *)
Lemma stop_eq (w : world) :
  stop w =
    Ret tt
      (let w1 := with_timers (kept w) (with_this (set_closedByClient true) w) in
       match ws (this w) with
       | Some c =>
           match sockets w !! c with
           | Some ch =>
               match state ch with
               | CONNECTING | OPEN =>
                   with_sockets (<[c := set_state CLOSING ch]> (sockets w)) w1
               | CLOSING | CLOSED => w1
               end
           | None => w1
           end
       | None => w1
       end).
Proof.
  unfold stop, bind, update. rewrite clear_heartbeat_eq. unfold get. simpl.
  unfold kept. simpl.
  destruct (ws (this w)) as [c|]; [|reflexivity].
  unfold close. simpl.
  destruct (sockets w !! c) as [ch|]; [|reflexivity].
  destruct (state ch); reflexivity.
Qed.

(** [open()], written out: one more socket, connecting, which becomes
    the session's socket. Nothing else changes. *)
Lemma open_eq (w : world) :
  exists addr,
    open P o w =
      Ret tt
        {| this := set_ws (Some (length (sockets w))) (this w);
           sockets := sockets w ++ [mkChannel addr CONNECTING []];
           timers := timers w;
           nextTimer := nextTimer w;
           calls := calls w;
           delays := delays w;
           uncaught := uncaught w |}.
Proof. eexists. reflexivity. Qed.

(** The open handler either completes or stops at the [send] with an
    [InvalidStateError]; either way the retry count is back to 0 and the
    session no longer counts as stopped. *)
Lemma onopen_resets (w : world) :
  exists w',
    (onopen P o w = Ret tt w' \/ exists e, onopen P o w = Raise e w')
    /\ retries (this w') = 0
    /\ closedByClient (this w') = false
    /\ delays w' = delays w.
Proof.
  unfold onopen, bind, update, get. simpl.
  destruct (ws (this w)) as [c|]; simpl.
  - unfold send. simpl.
    destruct (sockets w !! c) as [ch|]; [destruct (state ch)|];
      try (eexists; split; [right; eexists; reflexivity | repeat split]);
      destruct (onStart o); simpl;
      eexists; (split; [left; reflexivity | repeat split]).
  - eexists. split; [right; eexists; reflexivity | repeat split].
Qed.

(** The message handler only ever makes callback calls, and never
    throws. *)
Lemma onmessage_called (data : string) (w : world) :
  exists cs, onmessage P o data w = Ret tt (called cs w).
Proof.
  unfold onmessage, try_ignore, bind.
  destruct (JSON_parse P data) as [m|]; simpl;
    [|exists []; now rewrite called_nil].
  destruct (prop "type" m) as [t|]; simpl;
    [|exists []; now rewrite called_nil].
  destruct (is_str t "token"); [eexists; reflexivity|].
  destruct (is_str t "start"); [rewrite invoke_opt_called; eexists; reflexivity|].
  destruct (is_str t "end"); [rewrite invoke_opt_called; eexists; reflexivity|].
  destruct (is_str t "error"); [rewrite invoke_opt_called; eexists; reflexivity|].
  exists []. now rewrite called_nil.
Qed.

(** The heartbeat callback, written out. *)
Lemma heartbeat_eq (w : world) :
  heartbeat w =
    Ret tt
      (match ws (this w) with
       | Some c =>
           match sockets w !! c with
           | Some ch =>
               match state ch with
               | OPEN => with_sockets (<[c := push_sent ping ch]> (sockets w)) w
               | _ => w
               end
           | None => w
           end
       | None => w
       end).
Proof.
  unfold heartbeat, bind, get, readyState_of, send.
  destruct (ws (this w)) as [c|]; [|reflexivity].
  destruct (sockets w !! c) as [ch|] eqn:Hc; simpl; [|reflexivity].
  destruct (state ch) eqn:Hs; try reflexivity.
Qed.

(** The open handler, written out. *)
Lemma onopen_eq (w : world) :
  let w1 :=
    with_this (fun m => set_closedByClient false (set_retries 0 m)) w in
  onopen P o w =
    match ws (this w) with
    | Some c =>
        match sockets w !! c with
        | Some ch =>
            match state ch with
            | CONNECTING => Raise InvalidStateError w1
            | OPEN =>
                Ret tt (onopen_rest o
                          (<[c := push_sent (JSON_stringify P (init o)) ch]>
                             (sockets w)) w)
            | CLOSING | CLOSED => Ret tt (onopen_rest o (sockets w) w)
            end
        | None => Ret tt (onopen_rest o (sockets w) w)
        end
    | None => Raise TypeError w1
    end.
Proof.
  unfold onopen, bind, update, get. simpl.
  destruct (ws (this w)) as [c|]; simpl; [|reflexivity].
  unfold send. simpl.
  destruct (sockets w !! c) as [ch|]; [destruct (state ch)|];
    try reflexivity; unfold onopen_rest; destruct (onStart o); simpl;
    rewrite ?app_nil_r; reflexivity.
Qed.

Lemma become_fields (c : nat) (s : readyState) (w : world) :
  this (become c s w) = this w
  /\ timers (become c s w) = timers w
  /\ nextTimer (become c s w) = nextTimer w
  /\ calls (become c s w) = calls w
  /\ delays (become c s w) = delays w
  /\ uncaught (become c s w) = uncaught w.
Proof. unfold become. destruct (sockets w !! c); repeat split. Qed.

(** *** Backoff *)

(** C2. When a socket closes and the session was not stopped by the
    caller, a retry is scheduled exactly when the attempt count is below
    the maximum ([maxRetries], 3 when not given); its delay is
    [500 * 2^attempt] and the count goes up by one; otherwise no timer is
    added and the count stays. The count is 0 after every open event. With
    [maxRetries = 2], three closures in a row (the first after a
    successful open, the others of the sockets the retries created) ask
    for delays 500 then 1000 and then leave no timer; when the first retry
    does open, the next closure asks for 500 again. *)
Theorem backoff_schedule :
  (forall w c s,
      readyState_of c w = Some s -> s <> CLOSED ->
      closedByClient (this w) = false ->
      let attempt := retries (this w) in
      let w0 := become c CLOSED w in
      exists w',
        step P o (Closed c) w = Some w'
        /\ (attempt < default 3 (maxRetries o) ->
            retries (this w') = attempt + 1
            /\ delays w' = delays w ++ [500 * 2 ^ attempt]
            /\ timers w' =
                 kept w0 ++ [mkTimer (nextTimer w) (Reopen (500 * 2 ^ attempt))])
        /\ (default 3 (maxRetries o) <= attempt ->
            retries (this w') = attempt
            /\ delays w' = delays w
            /\ timers w' = kept w0))
  /\ (forall w c,
        readyState_of c w = Some CONNECTING ->
        exists w', step P o (Opened c) w = Some w' /\ retries (this w') = 0)
  /\ (maxRetries o = Some 2 ->
      (exists w,
          run P o [CallOpen; Opened 0; Closed 0; Fired 2; Closed 1; Fired 3;
                   Closed 2]%nat (created) = Some w
          /\ delays w = [500; 1000] /\ timers w = [])
      /\ (exists w,
             run P o [CallOpen; Opened 0; Closed 0; Fired 2; Opened 1;
                      Closed 1]%nat (created) = Some w
             /\ delays w = [500; 500])).
Proof.
  split; [|split].
  - intros w c s Hs Hlive Hflag attempt w0.
    eexists. split.
    { unfold step. rewrite Hs. destruct s; try reflexivity. now contradiction Hlive. }
    rewrite onclose_eq. simpl settle.
    assert (Hthis : this w0 = this w).
    { unfold w0, become. now destruct (sockets w !! c). }
    assert (Hd : delays w0 = delays w).
    { unfold w0, become. now destruct (sockets w !! c). }
    assert (Hn : nextTimer w0 = nextTimer w).
    { unfold w0, become. now destruct (sockets w !! c). }
    fold w0. rewrite Hthis, Hflag. simpl negb. simpl andb. fold attempt.
    split; intros Hcmp.
    + apply Z.ltb_lt in Hcmp. rewrite Hcmp. simpl. rewrite Hd, Hn. auto.
    + apply Z.ltb_ge in Hcmp. rewrite Hcmp. simpl. rewrite Hthis. auto.
  - intros w c Hc. unfold step. rewrite Hc.
    destruct (onopen_resets (become c OPEN w)) as (w' & Hrun & Hr & _).
    destruct Hrun as [Hrun | [e Hrun]]; rewrite Hrun; simpl;
      eexists; (split; [reflexivity | exact Hr]).
  - intros Hmax. destruct o as [u i s e r mr hb]. simpl in Hmax. subst mr.
    split; destruct s; eexists;
      (split; [vm_compute; reflexivity | vm_compute; repeat split]).
Qed.

(** *** The retry budget *)

(** What one event does to the attempt count and to the list of delays
    asked for: nothing, or (an open event) the count is reset, or (a
    closure under the guard) the count goes up by one with one more
    delay. *)
Lemma step_retries (e : event) (w w' : world) :
  step P o e w = Some w' ->
  (retries (this w') = retries (this w) /\ delays w' = delays w)
  \/ ((exists c, e = Opened c)
      /\ retries (this w') = 0 /\ delays w' = delays w)
  \/ (retries (this w) < default 3 (maxRetries o)
      /\ retries (this w') = retries (this w) + 1
      /\ exists d, delays w' = delays w ++ [d]).
Proof.
  destruct e as [| |c|c data|c|c|id]; unfold step; intros Hstep.
  - destruct (open_eq w) as [addr Ho]. rewrite Ho in Hstep.
    simplify_eq. left. split; reflexivity.
  - rewrite stop_eq in Hstep. simplify_eq. left. simpl.
    destruct (ws (this w)) as [c|]; [|split; reflexivity].
    destruct (sockets w !! c) as [ch|]; [|split; reflexivity].
    destruct (state ch); split; reflexivity.
  - destruct (readyState_of c w) as [[]|]; try discriminate.
    simplify_eq. right; left. split; [eauto|].
    destruct (onopen_resets (become c OPEN w)) as (w1 & Hrun & Hr & _ & Hd).
    destruct (become_fields c OPEN w) as (_ & _ & _ & _ & Hbd & _).
    destruct Hrun as [Hrun | [e Hrun]]; rewrite Hrun; simpl;
      (split; [exact Hr | congruence]).
  - destruct (readyState_of c w) as [[]|]; try discriminate.
    destruct (onmessage_called data w) as [cs Hm]. rewrite Hm in Hstep.
    simplify_eq. left. split; reflexivity.
  - unfold onerror in Hstep. rewrite invoke_opt_called in Hstep.
    destruct (readyState_of c w) as [[]|]; try discriminate;
      simplify_eq; left; split; reflexivity.
  - rewrite onclose_eq in Hstep.
    destruct (become_fields c CLOSED w) as (Ht & _ & _ & _ & Hd & _).
    set (w0 := become c CLOSED w) in *.
    assert (Hw' : w' = settle (Ret tt
      (if negb (closedByClient (this w0))
          && (retries (this w0) <? default 3 (maxRetries o))
       then
         {| this := set_retries (retries (this w0) + 1) (this w0);
            sockets := sockets w0;
            timers := kept w0 ++
              [mkTimer (nextTimer w0) (Reopen (500 * 2 ^ retries (this w0)))];
            nextTimer := S (nextTimer w0);
            calls := calls w0;
            delays := delays w0 ++ [500 * 2 ^ retries (this w0)];
            uncaught := uncaught w0 |}
       else with_timers (kept w0) w0))).
    { destruct (readyState_of c w) as [[]|]; try discriminate; now simplify_eq. }
    clear Hstep. subst w'. simpl settle.
    destruct (closedByClient (this w0)); simpl;
      [left; rewrite Ht, Hd; split; reflexivity|].
    destruct (Z.ltb_spec (retries (this w0)) (default 3 (maxRetries o)));
      simpl.
    + right; right. rewrite <- Ht, <- Hd. split; [assumption|]. split; eauto.
    + left. rewrite Ht, Hd. split; reflexivity.
  - destruct (find_timer id w) as [t|]; [|discriminate].
    destruct (job t).
    + rewrite heartbeat_eq in Hstep. simplify_eq. left. simpl.
      destruct (ws (this w)) as [c|]; [|split; reflexivity].
      destruct (sockets w !! c) as [ch|]; [|split; reflexivity].
      destruct (state ch); split; reflexivity.
    + destruct (open_eq (with_timers (filter (fun t' => tid t' <> id) (timers w)) w))
        as [addr Ho].
      rewrite Ho in Hstep. simplify_eq. left. split; reflexivity.
Qed.

Lemma run_within_budget (evs : list event) (w w' : world) :
  within_budget o w -> run P o evs w = Some w' -> within_budget o w'.
Proof.
  revert w. induction evs as [|e evs IH]; simpl; intros w Hw Hrun.
  - now simplify_eq.
  - destruct (step P o e w) as [w1|] eqn:Hstep; [|discriminate].
    apply (IH w1); [|exact Hrun].
    unfold within_budget in *.
    destruct (step_retries _ _ _ Hstep)
      as [[Hr _] | [(_ & Hr & _) | (Hlt & Hr & _)]]; lia.
Qed.





(** *** Sessions opened only when idle: the invariant *)

Lemma idle_spec (w : world) :
  idle w = true ->
  (forall c ch, sockets w !! c = Some ch -> state ch = CLOSED)
  /\ (forall t, t ∈ timers w -> retry_waiting t = false).
Proof.
  unfold idle. intros H. apply andb_prop in H as [Hs Ht].
  rewrite forallb_forall in Hs. rewrite forallb_forall in Ht. split.
  - intros c ch Hc.
    assert (Hin : In ch (sockets w)).
    { apply list_elem_of_In. eapply list_elem_of_lookup_2. exact Hc. }
    specialize (Hs ch Hin). unfold alive in Hs.
    rewrite negb_involutive in Hs. now apply bool_decide_eq_true in Hs.
  - intros t Hin. apply list_elem_of_In in Hin.
    specialize (Ht t Hin). now apply negb_true_iff in Ht.
Qed.

Lemma only_current_insert (c : nat) (x : channel) (socks : list channel) :
  only_current (Some c) socks -> only_current (Some c) (<[c := x]> socks).
Proof.
  intros H c' ch' Hl Hlive.
  destruct (decide (c = c')) as [->|Hne]; [reflexivity|].
  rewrite list_lookup_insert_ne in Hl by assumption. eauto.
Qed.

Lemma only_current_snoc (x : channel) (socks : list channel) :
  (forall c ch, socks !! c = Some ch -> state ch = CLOSED) ->
  only_current (Some (length socks)) (socks ++ [x]).
Proof.
  intros Hclosed c ch Hl Hlive.
  apply lookup_app_Some in Hl as [Hl | [Hge Hl]].
  - now contradiction Hlive; eauto.
  - f_equal. apply lookup_lt_Some in Hl. simpl in Hl. lia.
Qed.

(** Closing the session's socket leaves every socket closed. *)
Lemma all_closed_insert (c : nat) (ch : channel) (socks : list channel) :
  only_current (Some c) socks ->
  forall c' ch',
    <[c := set_state CLOSED ch]> socks !! c' = Some ch' -> state ch' = CLOSED.
Proof.
  intros Hcur c' ch' Hl.
  apply list_lookup_insert_Some in Hl as [(-> & <- & _) | [Hne Hl]];
    [reflexivity|].
  destruct (decide (state ch' = CLOSED)) as [|Hlive]; [assumption|].
  specialize (Hcur c' ch' Hl Hlive). congruence.
Qed.

Lemma frames_ok_insert (c : nat) (x : channel) (socks : list channel) :
  frames_ok P o socks ->
  (state x = CONNECTING -> sent x = []) ->
  (state x = OPEN -> init_then_pings P o (sent x)) ->
  (sent x = [] \/ init_then_pings P o (sent x)) ->
  frames_ok P o (<[c := x]> socks).
Proof.
  intros H H1 H2 H3 c' ch' Hl.
  apply list_lookup_insert_Some in Hl as [(-> & <- & _) | [Hne Hl]]; eauto.
Qed.

Lemma frames_ok_snoc (addr : string) (socks : list channel) :
  frames_ok P o socks ->
  frames_ok P o (socks ++ [mkChannel addr CONNECTING []]).
Proof.
  intros H c ch Hl.
  apply lookup_app_Some in Hl as [Hl | [Hge Hl]]; [eauto|].
  destruct (c - length socks)%nat; simpl in Hl; [|discriminate].
  simplify_eq. simpl. repeat split; auto; discriminate.
Qed.

(** What [timers_ok] says while the session's socket is not closed: no
    timer at all, or the remembered heartbeat and an open socket. *)
Lemma timers_ok_alive (c : nat) (ch : channel) (hbt : option nat)
    (socks : list channel) (tms : list timer) :
  timers_ok (Some c) hbt socks tms ->
  socks !! c = Some ch -> state ch <> CLOSED ->
  tms = []
  \/ exists t ms,
       tms = [t] /\ job t = Heartbeat ms /\ hbt = Some (tid t)
       /\ tid t <> 0%nat /\ state ch = OPEN.
Proof.
  intros Hok Hc Hlive. unfold timers_ok in Hok.
  destruct tms as [|t [|t' tms]]; [now left| |contradiction].
  destruct (job t) as [ms|ms] eqn:Hjob.
  - right. destruct Hok as (Hh & Hnz & c' & ch' & Hcur & Hc' & Hopen).
    simplify_eq. exists t, ms. auto.
  - destruct Hok as [Hclosed _]. now contradiction Hlive; eauto.
Qed.

Lemma kept_subseteq (w : world) (t : timer) : t ∈ kept w -> t ∈ timers w.
Proof.
  unfold kept. destruct (heartbeatTimer (this w)) as [id|]; [|auto].
  destruct (id =? 0)%nat; [auto|].
  intros H. now apply list_elem_of_filter in H as [_ H].
Qed.

(** [clear_heartbeat] under the invariant: it removes the heartbeat, and
    never a waiting retry. *)
Lemma kept_ok (w : world) :
  timers_ok (ws (this w)) (heartbeatTimer (this w)) (sockets w) (timers w) ->
  (kept w = [] /\ forall t, t ∈ timers w -> retry_waiting t = false)
  \/ (exists t ms, timers w = [t] /\ job t = Reopen ms /\ kept w = [t]).
Proof.
  unfold timers_ok, kept. intros Hok.
  destruct (timers w) as [|t [|t' tms]]; [| |contradiction].
  - left. split.
    + destruct (heartbeatTimer (this w)) as [id|]; [|reflexivity].
      now destruct (id =? 0)%nat.
    + intros t Hin. now apply elem_of_nil in Hin.
  - destruct (job t) as [ms|ms] eqn:Hjob.
    + left. destruct Hok as (Hh & Hnz & _). rewrite Hh.
      apply Nat.eqb_neq in Hnz. rewrite Hnz. split.
      * rewrite filter_cons, filter_nil. now rewrite decide_False by auto.
      * intros t' Hin. apply list_elem_of_singleton in Hin. subst t'.
        unfold retry_waiting. now rewrite Hjob.
    + right. exists t, ms. destruct Hok as [_ Hne].
      repeat split; [assumption|].
      destruct (heartbeatTimer (this w)) as [id|]; [|reflexivity].
      destruct (id =? 0)%nat; [reflexivity|].
      rewrite filter_cons, filter_nil. rewrite decide_True; [reflexivity|].
      congruence.
Qed.

(** [open()] on a session with every socket closed and no timer. *)
Lemma open_orderly (w : world) :
  (forall c ch, sockets w !! c = Some ch -> state ch = CLOSED) ->
  timers w = [] ->
  ids_fresh (nextTimer w) (heartbeatTimer (this w)) (timers w) ->
  frames_ok P o (sockets w) ->
  orderly P o (settle (open P o w)).
Proof.
  intros Hclosed Hno Hids Hframes.
  destruct (open_eq w) as [addr ->]. unfold orderly. simpl.
  rewrite Hno in *. split; [|split; [|split]].
  - now apply only_current_snoc.
  - exact Hids.
  - exact I.
  - now apply frames_ok_snoc.
Qed.

Lemma orderly_called (cs : list call) (w : world) :
  orderly P o w -> orderly P o (called cs w).
Proof. intros H. exact H. Qed.

Lemma stop_orderly (w : world) :
  orderly P o w -> orderly P o (settle (stop w)).
Proof.
  intros (Hcur & Hids & Htm & Hframes). rewrite stop_eq. simpl settle.
  assert (Hkeep :
    ids_fresh (nextTimer w) (heartbeatTimer (this w)) (kept w)).
  { destruct Hids as (H1 & H2 & H3). split; [|split]; auto.
    intros t Hin. apply H3. now apply kept_subseteq. }
  assert (Hsame : forall socks,
    only_current (ws (this w)) socks ->
    frames_ok P o socks ->
    (timers w = [] \/ (forall t, t ∈ timers w -> retry_waiting t = false)
     \/ socks = sockets w) ->
    orderly P o
      (with_sockets socks
         (with_timers (kept w) (with_this (set_closedByClient true) w)))).
  { intros socks Hc Hf Hcase. unfold orderly. simpl.
    split; [|split; [|split]]; try assumption.
    destruct (kept_ok w Htm) as [[-> _] | (t & ms & Ht & Hjob & ->)];
      [exact I|].
    destruct Hcase as [Hnil | [Hbeat | ->]].
    - rewrite Ht in Hnil. discriminate.
    - specialize (Hbeat t). rewrite Ht in Hbeat.
      specialize (Hbeat (list_elem_of_here _ _)).
      unfold retry_waiting in Hbeat. rewrite Hjob in Hbeat. discriminate.
    - rewrite Ht in Htm. exact Htm. }
  assert (Hstay :
    orderly P o
      (with_timers (kept w) (with_this (set_closedByClient true) w))).
  { specialize (Hsame (sockets w) Hcur Hframes (or_intror (or_intror eq_refl))).
    exact Hsame. }
  destruct (ws (this w)) as [c|] eqn:Hws; [|exact Hstay].
  destruct (sockets w !! c) as [ch|] eqn:Hc; [|exact Hstay].
  assert (Hclosing :
    state ch <> CLOSED ->
    orderly P o
      (with_sockets (<[c := set_state CLOSING ch]> (sockets w))
         (with_timers (kept w) (with_this (set_closedByClient true) w)))).
  { intros Hlive. apply Hsame.
    - now apply only_current_insert.
    - destruct (Hframes c ch Hc) as (_ & _ & H3).
      apply frames_ok_insert; simpl; auto; discriminate.
    - destruct (timers_ok_alive _ _ _ _ _ Htm Hc Hlive)
        as [Hnil | (t & ms & Ht & Hjob & _)]; [now left|].
      right; left. intros t' Hin. rewrite Ht in Hin.
      apply list_elem_of_singleton in Hin. subst t'.
      unfold retry_waiting. now rewrite Hjob. }
  destruct (state ch) eqn:Hs; try exact Hstay; now apply Hclosing.
Qed.

Lemma readyState_of_Some (c : nat) (s : readyState) (w : world) :
  readyState_of c w = Some s ->
  exists ch, sockets w !! c = Some ch /\ state ch = s.
Proof.
  unfold readyState_of. destruct (sockets w !! c) as [ch|]; simpl;
    intros H; simplify_eq. eauto.
Qed.

Lemma become_eq (c : nat) (s : readyState) (ch : channel) (w : world) :
  sockets w !! c = Some ch ->
  become c s w = with_sockets (<[c := set_state s ch]> (sockets w)) w.
Proof. unfold become. now intros ->. Qed.

Lemma opened_orderly (c : nat) (w : world) :
  orderly P o w ->
  readyState_of c w = Some CONNECTING ->
  orderly P o (settle (onopen P o (become c OPEN w))).
Proof.
  intros (Hcur & Hids & Htm & Hframes) Hc.
  apply readyState_of_Some in Hc as (ch & Hc & Hs).
  assert (Hws : ws (this w) = Some c).
  { apply (Hcur c ch Hc). rewrite Hs. discriminate. }
  rewrite Hws in *.
  assert (Hno : timers w = []).
  { destruct (timers_ok_alive _ _ _ _ _ Htm Hc) as [H | (t & ms & _ & _ & _ & _ & H)];
      [rewrite Hs; discriminate | assumption | congruence]. }
  assert (Hlt : (c < length (sockets w))%nat) by (eapply lookup_lt_Some; eauto).
  rewrite (become_eq _ _ _ _ Hc), onopen_eq. simpl.
  rewrite Hws, list_lookup_insert_eq by assumption. simpl.
  unfold orderly, onopen_rest. simpl. rewrite Hws, Hno. simpl.
  rewrite list_insert_insert_eq.
  destruct Hids as (H1 & H2 & H3).
  split; [|split; [|split]].
  - now apply only_current_insert.
  - split; [lia|]. split.
    + intros h Hh. simplify_eq. lia.
    + intros t Hin. apply list_elem_of_singleton in Hin. subst t. simpl. lia.
  - split; [reflexivity|]. split; [lia|].
    eexists c, _. split; [reflexivity|]. split.
    + rewrite list_lookup_insert_eq; [reflexivity | assumption].
    + reflexivity.
  - destruct (Hframes c ch Hc) as (Hnone & _ & _).
    assert (Hinit : init_then_pings P o (sent ch ++ [JSON_stringify P (init o)])).
    { rewrite (Hnone Hs). exists 0%nat. reflexivity. }
    apply frames_ok_insert; simpl; auto; discriminate.
Qed.

Lemma closed_orderly (c : nat) (s : readyState) (w : world) :
  orderly P o w ->
  readyState_of c w = Some s -> s <> CLOSED ->
  orderly P o (settle (onclose o (become c CLOSED w))).
Proof.
  intros (Hcur & Hids & Htm & Hframes) Hc Hlive.
  apply readyState_of_Some in Hc as (ch & Hc & Hs). subst s.
  assert (Hws : ws (this w) = Some c) by eauto.
  rewrite Hws in *.
  assert (Hkept : kept w = []).
  { unfold kept.
    destruct (timers_ok_alive _ _ _ _ _ Htm Hc Hlive)
      as [-> | (t & ms & -> & _ & -> & Hnz & _)].
    - destruct (heartbeatTimer (this w)) as [id|]; [|reflexivity].
      now destruct (id =? 0)%nat.
    - apply Nat.eqb_neq in Hnz. rewrite Hnz.
      rewrite filter_cons, filter_nil. now rewrite decide_False by auto. }
  rewrite (become_eq _ _ _ _ Hc), onclose_eq.
  change (kept (with_sockets (<[c:=set_state CLOSED ch]> (sockets w)) w))
    with (kept w).
  rewrite Hkept. simpl.
  destruct (Hframes c ch Hc) as (_ & _ & Hsent).
  assert (Hf : frames_ok P o (<[c := set_state CLOSED ch]> (sockets w))).
  { apply frames_ok_insert; simpl; auto; discriminate. }
  assert (Hc' : only_current (Some c) (<[c := set_state CLOSED ch]> (sockets w))).
  { now apply only_current_insert. }
  destruct Hids as (H1 & H2 & H3).
  destruct (negb (closedByClient (this w))
            && (retries (this w) <? default 3 (maxRetries o)));
    unfold orderly; simpl; rewrite Hws; (split; [|split; [|split]]);
    try assumption.
  - split; [lia|]. split.
    + intros h Hh. specialize (H2 h Hh). lia.
    + intros t Hin. apply list_elem_of_singleton in Hin. subst t. simpl. lia.
  - split.
    + now apply all_closed_insert.
    + intros Hh. specialize (H2 _ Hh). lia.
  - split; [lia|]. split; [assumption|].
    intros t Hin. now apply elem_of_nil in Hin.
  - exact I.
Qed.

Lemma find_timer_Some (id : nat) (t : timer) (w : world) :
  find_timer id w = Some t -> t ∈ timers w /\ tid t = id.
Proof.
  unfold find_timer. intros H. apply find_some in H as [Hin Hid].
  split; [now apply list_elem_of_In | now apply Nat.eqb_eq].
Qed.

Lemma fired_orderly (id : nat) (w w' : world) :
  orderly P o w ->
  step P o (Fired id) w = Some w' ->
  orderly P o w'.
Proof.
  intros (Hcur & Hids & Htm & Hframes) Hstep. unfold step in Hstep.
  destruct (find_timer id w) as [t|] eqn:Hfind; [|discriminate].
  apply find_timer_Some in Hfind as [Hin Hid].
  assert (Hone : timers w = [t]).
  { unfold timers_ok in Htm.
    destruct (timers w) as [|t1 [|t2 tms]]; [| |contradiction].
    - now apply elem_of_nil in Hin.
    - apply list_elem_of_singleton in Hin. now subst. }
  unfold timers_ok in Htm. rewrite Hone in Htm, Hids.
  destruct (job t) as [ms|ms] eqn:Hjob.
  - rewrite heartbeat_eq in Hstep.
    destruct Htm as (Hh & Hnz & c & ch & Hws & Hc & Hs).
    rewrite Hws, Hc, Hs in Hstep. simplify_eq. simpl.
    unfold orderly. simpl. rewrite Hws, Hone in *.
    split; [|split; [|split]].
    + now apply only_current_insert.
    + assumption.
    + unfold timers_ok. rewrite Hjob. split; [assumption|]. split; [assumption|].
      eexists c, _. split; [reflexivity|]. split.
      * rewrite list_lookup_insert_eq; [reflexivity|].
        eapply lookup_lt_Some; eauto.
      * exact Hs.
    + destruct (Hframes c ch Hc) as (_ & Hopen & _).
      destruct (Hopen Hs) as [n Hn].
      assert (Hping : init_then_pings P o (sent ch ++ [ping])).
      { exists (S n). rewrite Hn. simpl. f_equal.
        now rewrite <- replicate_cons_app. }
      apply frames_ok_insert; simpl; auto. congruence.
  - destruct Htm as [Hclosed Hne].
    rewrite Hone in Hstep. rewrite filter_cons, filter_nil in Hstep.
    rewrite decide_False in Hstep by auto.
    simplify_eq. apply open_orderly; simpl; auto.
    destruct Hids as (H1 & H2 & H3). split; [|split]; auto.
    intros t' Hin'. now apply elem_of_nil in Hin'.
Qed.

(** One event keeps the invariant, provided the caller calls [open()]
    only on an idle session. *)
Lemma step_orderly (e : event) (w w' : world) :
  orderly P o w ->
  allowed e w = true ->
  step P o e w = Some w' ->
  orderly P o w'.
Proof.
  intros Hinv Hallowed Hstep.
  destruct e as [| |c|c data|c|c|id].
  - simpl in Hallowed. apply idle_spec in Hallowed as [Hclosed Hquiet].
    unfold step in Hstep. simplify_eq.
    destruct Hinv as (Hcur & Hids & Htm & Hframes).
    assert (Hno : timers w = []).
    { unfold timers_ok in Htm.
      destruct (timers w) as [|t [|t' tms]]; [reflexivity| |contradiction].
      specialize (Hquiet t (list_elem_of_here _ _)).
      unfold retry_waiting in Hquiet.
      destruct (job t); [|discriminate].
      destruct Htm as (_ & _ & c & ch & _ & Hc & Hs).
      specialize (Hclosed c ch Hc). congruence. }
    now apply open_orderly.
  - unfold step in Hstep. simplify_eq. now apply stop_orderly.
  - unfold step in Hstep.
    destruct (readyState_of c w) as [[]|] eqn:Hc; try discriminate.
    simplify_eq. now apply opened_orderly.
  - unfold step in Hstep.
    destruct (readyState_of c w) as [[]|]; try discriminate.
    destruct (onmessage_called data w) as [cs Hm]. rewrite Hm in Hstep.
    simplify_eq. now apply orderly_called.
  - unfold step, onerror in Hstep. rewrite invoke_opt_called in Hstep.
    destruct (readyState_of c w) as [[]|]; try discriminate;
      simplify_eq; now apply orderly_called.
  - unfold step in Hstep.
    destruct (readyState_of c w) as [s|] eqn:Hc; [|discriminate].
    assert (Hlive : s <> CLOSED) by (destruct s; congruence).
    assert (Hw' : w' = settle (onclose o (become c CLOSED w)))
      by (destruct s; congruence).
    subst w'. now apply (closed_orderly c s).
  - now apply (fired_orderly id w).
Qed.

Lemma created_orderly : orderly P o created.
Proof.
  unfold orderly, created. simpl. split; [|split; [|split]].
  - intros c ch H. discriminate.
  - split; [lia|]. split; [discriminate|].
    intros t Hin. now apply elem_of_nil in Hin.
  - exact I.
  - intros c ch H. discriminate.
Qed.

Lemma orderly_run_orderly (evs : list event) (w w' : world) :
  orderly P o w -> orderly_run P o evs w = Some w' -> orderly P o w'.
Proof.
  revert w. induction evs as [|e evs IH]; simpl; intros w Hinv Hrun.
  - now simplify_eq.
  - destruct (allowed e w) eqn:Hal; [|discriminate].
    destruct (step P o e w) as [w1|] eqn:Hstep; [|discriminate].
    apply (IH w1); [|assumption].
    now apply (step_orderly e w).
Qed.


(** *** The history of a session opened only when idle *)










(** [stop()] never throws. *)
Lemma stop_returns (w : world) : exists w', stop w = Ret tt w'.
Proof. rewrite stop_eq. eauto. Qed.

(** A socket that closes after [stop()] schedules no retry. *)
Lemma closure_after_stop (c : nat) (s : readyState) (w : world) :
  closedByClient (this w) = true ->
  readyState_of c w = Some s -> s <> CLOSED ->
  exists w',
    step P o (Closed c) w = Some w'
    /\ delays w' = delays w /\ timers w' = kept w.
Proof.
  intros Hflag Hc Hlive. eexists. split.
  { unfold step. rewrite Hc. destruct s; try reflexivity. now contradiction Hlive. }
  rewrite onclose_eq.
  destruct (become_fields c CLOSED w) as (Ht & Htm & _ & _ & Hd & _).
  rewrite Ht, Hflag. simpl. split; [assumption|].
  unfold kept. simpl. now rewrite Ht, Htm.
Qed.

(** *** The heartbeat *)


End Manager.

(** *** The properties on the concrete page *)

Lemma malformed_frame_ignored_witness :
  JSON.parse "not-json" = None
  /\ step page stream_opts (Message 0 "not-json") streaming = Some streaming.
Proof.
  split; [reflexivity|].
  apply (malformed_frame_ignored page stream_opts "not-json" streaming 0%nat);
    reflexivity.
Defined.

(** A [token] frame without [data] reaches [onToken] as the empty
    string. *)
Example token_without_data :
  onmessage page stream_opts (bare_frame "token") streaming =
    Ret tt (called [OnToken (JStr EmptyString)] streaming).
Proof. reflexivity. Qed.

Lemma frame_dispatch_witness :
  onmessage page stream_opts (frame "error" "quota exceeded") streaming =
    Ret tt (called [OnError (JStr "quota exceeded")] streaming).
Proof.
  apply (frame_dispatch page stream_opts (frame "error" "quota exceeded")
           (JObj [("type", JStr "error"); ("data", JStr "quota exceeded")])
           {| kind := "error"; carried := Some "quota exceeded" |} streaming).
  - reflexivity.
  - split; reflexivity.
Defined.

(** C7, as stated, fails on the [error] frame whose [data] is the empty
    string: the message it carries is the empty string, and the handler calls
    [onError] with [error] instead. *)
Lemma empty_error_message_replaced :
  let data := frame "error" EmptyString in
  let f := {| kind := "error"; carried := Some EmptyString |} in
  JSON.parse data = Some (JObj [("type", JStr "error"); ("data", JStr EmptyString)])
  /\ reads_as (JObj [("type", JStr "error"); ("data", JStr EmptyString)]) f
  /\ dispatch_stated stream_opts f = [OnError (JStr EmptyString)]
  /\ onmessage page stream_opts data streaming =
       Ret tt (called [OnError (JStr "error")] streaming)
  /\ onmessage page stream_opts data streaming <>
       Ret tt (called (dispatch_stated stream_opts f) streaming).
Proof.
  repeat split; discriminate.
Qed.



Lemma backoff_schedule_witness :
  (readyState_of 0 streaming = Some OPEN
   /\ closedByClient (this streaming) = false
   /\ retries (this streaming) < 2
   /\ exists w',
        step page stream_opts (Closed 0) streaming = Some w'
        /\ retries (this w') = 1 /\ delays w' = [500])
  /\ (exists w,
        run page stream_opts
          [CallOpen; Opened 0; Closed 0; Fired 2; Closed 1; Fired 3; Closed 2]%nat
          created = Some w
        /\ delays w = [500; 1000] /\ timers w = []).
Proof.
  split.
  - split; [reflexivity|]. split; [reflexivity|]. split; [reflexivity|].
    destruct (proj1 (backoff_schedule page stream_opts) streaming 0%nat OPEN
                eq_refl ltac:(discriminate) eq_refl)
      as (w' & Hstep & Hlt & _).
    destruct (Hlt eq_refl) as (Hr & Hd & _).
    exists w'. split; [exact Hstep|]. split; [exact Hr | exact Hd].
  - exact (proj1 (proj2 (proj2 (backoff_schedule page stream_opts)) eq_refl)).
Defined.







(** C1 on the code. The socket of a session drops, which schedules a
    retry in 500 ms; the caller calls [stop()] before the timer fires.
    [stop()] returns normally and marks the session as stopped, but the
    timer stays active; when it fires it opens a new socket, whose open
    handler marks the session as running again, sends the init payload and
    starts a heartbeat that sends keep-alive frames. *)
Theorem stop_leaves_retry_pending :
  exists w1 w2,
    run page stream_opts [CallOpen; Opened 0; Closed 0; CallStop]%nat created
      = Some w1
    /\ closedByClient (this w1) = true
    /\ uncaught w1 = []
    /\ timers w1 = [mkTimer 2 (Reopen 500)]
    /\ run page stream_opts [Fired 2; Opened 1; Fired 3]%nat w1 = Some w2
    /\ closedByClient (this w2) = false
    /\ state <$> sockets w2 = [CLOSED; OPEN]
    /\ sent <$> sockets w2 =
         [[JSON.stringify (init stream_opts)];
          [JSON.stringify (init stream_opts); ping]].
Proof.
  do 2 eexists. split; [vm_compute; reflexivity|].
  repeat (split; [vm_compute; reflexivity|]). vm_compute; reflexivity.
Qed.

End SessionProps.

(** ** The session: further properties *)

Module SessionMore.

Import JSON Session SessionProps.

Section Manager.

Variable P : platform.
Variable o : WSOpts.

Lemma filter_twice {A} (Q : A -> Prop) `{forall x, Decision (Q x)}
    (l : list A) :
  filter Q (filter Q l) = filter Q l.
Proof.
  induction l as [|x l IH]; [reflexivity|].
  rewrite filter_cons. destruct (decide (Q x)) as [Hx|Hx]; [|exact IH].
  rewrite filter_cons, decide_True by assumption. now rewrite IH.
Qed.

(** X1. [stop()] is idempotent: a second call right after the first
    returns normally and leaves the world exactly as the first call left
    it. *)
Theorem stop_idempotent (w : world) :
  exists w1, stop w = Ret tt w1 /\ stop w1 = Ret tt w1.
Proof.
  eexists. split; [apply stop_eq|].
  rewrite stop_eq. f_equal.
  destruct w as [[cur r cbc hbt] socks tms next cs ds un].
  unfold kept. simpl.
  set (k := match hbt with
            | Some id => if (id =? 0)%nat then tms
                         else filter (fun t => tid t <> id) tms
            | None => tms
            end).
  assert (Hk : match hbt with
               | Some id => if (id =? 0)%nat then k
                            else filter (fun t => tid t <> id) k
               | None => k
               end = k).
  { unfold k. destruct hbt as [id|]; [|reflexivity].
    destruct (id =? 0)%nat; [reflexivity|]. apply filter_twice. }
  destruct cur as [c|]; simpl.
  - destruct (socks !! c) as [ch|] eqn:Hc; simpl.
    + destruct (state ch) eqn:Hs; simpl.
      * rewrite list_lookup_insert_eq by (eapply lookup_lt_Some; eauto).
        simpl. unfold with_sockets, with_timers, with_this. simpl.
        now rewrite Hk.
      * rewrite list_lookup_insert_eq by (eapply lookup_lt_Some; eauto).
        simpl. unfold with_sockets, with_timers, with_this. simpl.
        now rewrite Hk.
      * rewrite Hc, Hs. unfold with_timers, with_this. simpl. now rewrite Hk.
      * rewrite Hc, Hs. unfold with_timers, with_this. simpl. now rewrite Hk.
    + rewrite Hc. unfold with_timers, with_this. simpl. now rewrite Hk.
  - unfold with_timers, with_this. simpl. now rewrite Hk.
Qed.

Lemma kept_nil (w : world) : timers w = [] -> kept w = [].
Proof.
  unfold kept. intros ->.
  destruct (heartbeatTimer (this w)) as [id|]; [|reflexivity].
  now destruct (id =? 0)%nat.
Qed.

Lemma sent_set_state (c : nat) (s : readyState) (ch : channel)
    (socks : list channel) :
  socks !! c = Some ch ->
  sent <$> <[c := set_state s ch]> socks = sent <$> socks.
Proof.
  intros Hc. rewrite list_fmap_insert. simpl.
  apply list_insert_id. now rewrite list_lookup_fmap, Hc.
Qed.

(** [stop()] on a session opened only when idle, with no retry waiting,
    halts it. *)
Lemma stop_halts (w : world) :
  orderly P o w ->
  (forall t, t ∈ timers w -> retry_waiting t = false) ->
  halted (settle (stop w))
  /\ sent <$> sockets (settle (stop w)) = sent <$> sockets w
  /\ delays (settle (stop w)) = delays w.
Proof.
  intros Horderly Hquiet.
  destruct Horderly as (Hcur & _ & Htm & _).
  assert (Hkept : kept w = []).
  { destruct (kept_ok w Htm) as [[Hk _] | (t & ms & Ht & Hjob & _)];
      [exact Hk|].
    specialize (Hquiet t). rewrite Ht in Hquiet.
    specialize (Hquiet (list_elem_of_here _ _)).
    unfold retry_waiting in Hquiet. rewrite Hjob in Hquiet. discriminate. }
  assert (Hothers : forall c ch,
    sockets w !! c = Some ch -> ws (this w) <> Some c -> state ch = CLOSED).
  { intros c ch Hc Hne.
    destruct (decide (state ch = CLOSED)) as [|Hlive]; [assumption|].
    now contradiction Hne; eauto. }
  rewrite stop_eq. simpl settle. rewrite Hkept.
  destruct (ws (this w)) as [c|] eqn:Hws.
  - destruct (sockets w !! c) as [ch|] eqn:Hc.
    + assert (Hstay : forall c' ch',
        sockets w !! c' = Some ch' -> state ch = CLOSING \/ state ch = CLOSED ->
        state ch' = CLOSING \/ state ch' = CLOSED).
      { intros c' ch' Hc' Hs. destruct (decide (c' = c)) as [->|Hne].
        - now simplify_eq.
        - right. apply (Hothers c' ch' Hc'). congruence. }
      assert (Hmove : forall c' ch',
        <[c := set_state CLOSING ch]> (sockets w) !! c' = Some ch' ->
        state ch' = CLOSING \/ state ch' = CLOSED).
      { intros c' ch' Hc'.
        apply list_lookup_insert_Some in Hc' as [(-> & <- & _) | [Hne Hc']];
          [now left|].
        right. apply (Hothers c' ch' Hc'). congruence. }
      destruct (state ch) eqn:Hs; simpl;
        (split; [split; [reflexivity | split; [reflexivity|]] |]);
        eauto using sent_set_state.
    + simpl. split; [|auto]. split; [reflexivity|]. split; [reflexivity|].
      intros c' ch' Hc'. right. apply (Hothers c' ch' Hc').
      intros E. simplify_eq. simpl in Hc'. congruence.
  - simpl. split; [|auto]. split; [reflexivity|]. split; [reflexivity|].
    intros c' ch' Hc'. right. apply (Hothers c' ch' Hc'). congruence.
Qed.

(** Nothing but [open()] moves a halted session: no socket is created,
    no frame sent, no retry scheduled. *)
Lemma halted_step (e : event) (w w' : world) :
  halted w ->
  is_call_open e = false ->
  step P o e w = Some w' ->
  halted w'
  /\ sent <$> sockets w' = sent <$> sockets w
  /\ delays w' = delays w.
Proof.
  intros (Hflag & Hno & Hsocks) He Hstep.
  destruct e as [| |c|c data|c|c|id]; unfold step in Hstep.
  - discriminate.
  - rewrite stop_eq in Hstep. simplify_eq. simpl.
    rewrite (kept_nil w Hno).
    assert (Hsame : halted
      (with_timers [] (with_this (set_closedByClient true) w))).
    { split; [reflexivity|]. split; [reflexivity | exact Hsocks]. }
    destruct (ws (this w)) as [c|]; [|auto].
    destruct (sockets w !! c) as [ch|] eqn:Hc; [|auto].
    destruct (Hsocks c ch Hc) as [-> | ->]; auto.
  - destruct (readyState_of c w) as [s|] eqn:Hc; [|discriminate].
    apply readyState_of_Some in Hc as (ch & Hc & <-).
    destruct (Hsocks c ch Hc) as [Hs | Hs]; rewrite Hs in Hstep; discriminate.
  - destruct (readyState_of c w) as [s|] eqn:Hc; [|discriminate].
    apply readyState_of_Some in Hc as (ch & Hc & <-).
    destruct (Hsocks c ch Hc) as [Hs | Hs]; rewrite Hs in Hstep; discriminate.
  - unfold onerror in Hstep. rewrite invoke_opt_called in Hstep.
    assert (Hw' : w' = called (optional (onError o) (OnError (JStr "ws_error"))) w).
    { destruct (readyState_of c w) as [[]|]; try discriminate; now simplify_eq. }
    subst w'. split; [|auto]. split; [exact Hflag|]. split; assumption.
  - destruct (readyState_of c w) as [s|] eqn:Hc; [|discriminate].
    apply readyState_of_Some in Hc as (ch & Hc & <-).
    assert (Hw' : w' = settle (onclose o (become c CLOSED w))).
    { destruct (state ch); try discriminate; now simplify_eq. }
    subst w'. clear Hstep.
    rewrite (become_eq _ _ _ _ Hc), onclose_eq. simpl.
    rewrite Hflag. simpl.
    change (kept (with_sockets (<[c:=set_state CLOSED ch]> (sockets w)) w))
      with (kept w).
    rewrite (kept_nil w Hno). simpl.
    split; [|split; [now apply sent_set_state | reflexivity]].
    split; [exact Hflag|]. split; [reflexivity|].
    intros c' ch' Hc'.
    apply list_lookup_insert_Some in Hc' as [(-> & <- & _) | [Hne Hc']];
      [now right | eauto].
  - unfold find_timer in Hstep. rewrite Hno in Hstep. discriminate.
Qed.

Lemma stop_final_from (w : world) (evs : list event) (w' : world) :
  orderly P o w ->
  (forall t, t ∈ timers w -> retry_waiting t = false) ->
  forallb (fun e => negb (is_call_open e)) evs = true ->
  run P o evs (settle (stop w)) = Some w' ->
  sent <$> sockets w' = sent <$> sockets w
  /\ delays w' = delays w
  /\ timers w' = []
  /\ closedByClient (this w') = true.
Proof.
  intros Horderly Hquiet Hevs Hrun.
  destruct (stop_halts w Horderly Hquiet) as (Hhalted & Hsent & Hdelays).
  revert Hrun Hhalted Hsent Hdelays. generalize (settle (stop w)).
  induction evs as [|e evs IH]; simpl; intros w1 Hrun Hhalted Hsent Hdelays.
  - simplify_eq. destruct Hhalted as (Hflag & Hno & _). auto.
  - simpl in Hevs. apply andb_prop in Hevs as [He Hevs].
    apply negb_true_iff in He.
    destruct (step P o e w1) as [w2|] eqn:Hstep; [|discriminate].
    destruct (halted_step e w1 w2 Hhalted He Hstep) as (H2 & Hs2 & Hd2).
    apply (IH Hevs w2 Hrun H2); congruence.
Qed.

(** X2. [stop()] on a session that was opened only when idle and has no
    retry waiting is final: whatever the network and the timers do
    afterwards, and however often [stop()] is called again, no socket is
    created, no frame is sent on any socket, no retry is scheduled and no
    timer is active, until the caller calls [open()] again. *)
Theorem stop_is_final (before : list event) (w : world) (evs : list event)
    (w' : world) :
  orderly_run P o before created = Some w ->
  forallb (fun t => negb (retry_waiting t)) (timers w) = true ->
  forallb (fun e => negb (is_call_open e)) evs = true ->
  run P o evs (settle (stop w)) = Some w' ->
  sent <$> sockets w' = sent <$> sockets w
  /\ delays w' = delays w
  /\ timers w' = []
  /\ closedByClient (this w') = true.
Proof.
  intros Hbefore Hquiet Hevs Hrun.
  apply (stop_final_from w evs w'); auto.
  - exact (orderly_run_orderly P o before created w (created_orderly P o)
             Hbefore).
  - intros t Hin. rewrite forallb_forall in Hquiet.
    apply list_elem_of_In in Hin. specialize (Hquiet t Hin).
    now apply negb_true_iff in Hquiet.
Qed.

(** The message handler makes the calls [frame_calls] gives, whatever
    the world. *)
Lemma onmessage_frame_calls (data : string) (w : world) :
  onmessage P o data w = Ret tt (called (frame_calls P o data) w).
Proof.
  unfold onmessage, frame_calls, try_ignore, bind.
  destruct (JSON_parse P data) as [m|]; simpl; [|now rewrite called_nil].
  destruct (prop "type" m) as [t|]; simpl; [|now rewrite called_nil].
  destruct (is_str t "token"); [reflexivity|].
  destruct (is_str t "start"); [now rewrite invoke_opt_called|].
  destruct (is_str t "end"); [now rewrite invoke_opt_called|].
  destruct (is_str t "error"); [now rewrite invoke_opt_called|].
  unfold ret. now rewrite called_nil.
Qed.

(** One event of a session opened only when idle: the calls it makes,
    and no exception. *)
Lemma step_orderly_calls (e : event) (w w' : world) :
  orderly P o w ->
  allowed e w = true ->
  step P o e w = Some w' ->
  calls w' = calls w ++ event_calls P o e
  /\ uncaught w' = uncaught w.
Proof.
  intros Horderly _ Hstep.
  destruct e as [| |c|c data|c|c|id]; unfold step in Hstep; simpl event_calls.
  - destruct (open_eq P o w) as [addr Ho]. rewrite Ho in Hstep.
    simplify_eq. simpl. now rewrite app_nil_r.
  - rewrite stop_eq in Hstep. simplify_eq. simpl. rewrite app_nil_r.
    destruct (ws (this w)) as [c|]; [|auto].
    destruct (sockets w !! c) as [ch|]; [|auto].
    destruct (state ch); auto.
  - destruct (readyState_of c w) as [s|] eqn:Hc; [|discriminate].
    destruct s; try discriminate. simplify_eq.
    destruct Horderly as (Hcur & _ & _ & _).
    apply readyState_of_Some in Hc as (ch & Hc & Hs).
    assert (Hws : ws (this w) = Some c).
    { apply (Hcur c ch Hc). rewrite Hs. discriminate. }
    assert (Hlt : (c < length (sockets w))%nat) by (eapply lookup_lt_Some; eauto).
    rewrite (become_eq _ _ _ _ Hc), onopen_eq. simpl.
    rewrite Hws, list_lookup_insert_eq by assumption. simpl. auto.
  - destruct (readyState_of c w) as [[]|]; try discriminate.
    rewrite onmessage_frame_calls in Hstep. simplify_eq. auto.
  - unfold onerror in Hstep. rewrite invoke_opt_called in Hstep.
    destruct (readyState_of c w) as [[]|]; try discriminate;
      simplify_eq; auto.
  - rewrite onclose_eq in Hstep.
    destruct (become_fields c CLOSED w) as (_ & _ & _ & Hcalls & _ & Hun).
    set (w0 := become c CLOSED w) in *.
    assert (Hcase : calls w' = calls w0 /\ uncaught w' = uncaught w0).
    { destruct (readyState_of c w) as [[]|]; try discriminate; simplify_eq;
        simpl;
        destruct (negb (closedByClient (this w0))
                  && (retries (this w0) <? default 3 (maxRetries o)));
        auto. }
    destruct Hcase as [-> ->]. rewrite app_nil_r. auto.
  - destruct (find_timer id w) as [t|]; [|discriminate].
    destruct (job t).
    + rewrite heartbeat_eq in Hstep. simplify_eq. rewrite app_nil_r.
      destruct (ws (this w)) as [c|]; [|auto].
      destruct (sockets w !! c) as [ch|]; [|auto].
      destruct (state ch); auto.
    + destruct (open_eq P o
                  (with_timers (filter (fun t' => tid t' <> id) (timers w)) w))
        as [addr Ho].
      rewrite Ho in Hstep. simplify_eq. simpl. now rewrite app_nil_r.
Qed.

Lemma orderly_run_calls (evs : list event) (w w' : world) :
  orderly P o w ->
  orderly_run P o evs w = Some w' ->
  calls w' = calls w ++ concat (map (event_calls P o) evs)
  /\ uncaught w' = uncaught w.
Proof.
  revert w. induction evs as [|e evs IH]; simpl; intros w Hinv Hrun.
  - simplify_eq. now rewrite app_nil_r.
  - destruct (allowed e w) eqn:Hal; [|discriminate].
    destruct (step P o e w) as [w1|] eqn:Hstep; [|discriminate].
    destruct (step_orderly_calls e w w1 Hinv Hal Hstep) as [Hc Hu].
    destruct (IH w1 (step_orderly P o e w w1 Hinv Hal Hstep) Hrun) as [Hc' Hu'].
    rewrite Hc', Hc, Hu', Hu. now rewrite <- app_assoc.
Qed.


Lemma is_str_true (x : option value) (s : string) :
  is_str x s = true -> x = Some (JStr s).
Proof.
  unfold is_str. destruct x as [[]|]; try discriminate.
  intros H. apply String.eqb_eq in H. now subst.
Qed.

(** X5. A frame that parses but is not an object with one of the four
    known kinds as its [type] (the value [null], a number, a string, an
    array, an object without [type], with a [type] that is not a string,
    or with an unknown kind), like a frame that does not parse, is
    dropped: the handler returns normally and the world is unchanged. *)
Theorem unknown_frame_dropped (data : string) (w : world) :
  (forall m t,
      JSON_parse P data = Some m -> prop "type" m = Some (Some (JStr t)) ->
      known_kind t = false) ->
  onmessage P o data w = Ret tt w.
Proof.
  intros Hunknown. rewrite onmessage_frame_calls.
  assert (Hnone : frame_calls P o data = []).
  { unfold frame_calls.
    destruct (JSON_parse P data) as [m|]; [|reflexivity].
    destruct (prop "type" m) as [t|] eqn:Ht; [|reflexivity].
    assert (Hk : forall s, is_str t s = true -> known_kind s = false).
    { intros s Hs. apply is_str_true in Hs. subst t. eauto. }
    destruct (is_str t "token") eqn:H1; [now specialize (Hk _ H1)|].
    destruct (is_str t "start") eqn:H2; [now specialize (Hk _ H2)|].
    destruct (is_str t "end") eqn:H3; [now specialize (Hk _ H3)|].
    destruct (is_str t "error") eqn:H4; [now specialize (Hk _ H4)|].
    reflexivity. }
  rewrite Hnone. now rewrite called_nil.
Qed.

Lemma tokens_app (cs1 cs2 : list call) :
  tokens (cs1 ++ cs2) = tokens cs1 ++ tokens cs2.
Proof. unfold tokens. apply omap_app. Qed.

Lemma tokens_optional (b : bool) (c : call) :
  (forall s, c <> OnToken s) -> tokens (optional b c) = [].
Proof.
  intros Hc. destruct b; [|reflexivity]. simpl.
  destruct c; try reflexivity. now contradiction (Hc s).
Qed.

(** One event of any session: the tokens it hands to [onToken], the
    exception that may escape, and the manager keeps holding a socket. *)
Lemma step_tokens (e : event) (w w' : world) :
  holds_socket w ->
  step P o e w = Some w' ->
  tokens (calls w') = tokens (calls w) ++ tokens (event_calls P o e)
  /\ (uncaught w' = uncaught w
      \/ uncaught w' = uncaught w ++ [InvalidStateError])
  /\ holds_socket w'.
Proof.
  intros Hholds Hstep.
  destruct e as [| |c|c data|c|c|id]; unfold step in Hstep; simpl event_calls.
  - destruct (open_eq P o w) as [addr Ho]. rewrite Ho in Hstep.
    simplify_eq. simpl. rewrite app_nil_r.
    split; [reflexivity|]. split; [now left|]. right. simpl. eauto.
  - rewrite stop_eq in Hstep. simplify_eq. simpl. rewrite app_nil_r.
    split; [|split].
    + destruct (ws (this w)) as [c|]; [|reflexivity].
      destruct (sockets w !! c) as [ch|]; [destruct (state ch)|]; reflexivity.
    + left. destruct (ws (this w)) as [c|]; [|reflexivity].
      destruct (sockets w !! c) as [ch|]; [destruct (state ch)|]; reflexivity.
    + unfold holds_socket in *.
      destruct Hholds as [Hnil | [cur Hcur]].
      * left. rewrite Hnil. destruct (ws (this w)) as [c|]; [|exact Hnil].
        simpl. exact Hnil.
      * right. rewrite Hcur.
        destruct (sockets w !! cur) as [ch|]; [destruct (state ch)|];
          simpl; rewrite Hcur; eauto.
  - destruct (readyState_of c w) as [s|] eqn:Hc; [|discriminate].
    destruct s; try discriminate. simplify_eq.
    apply readyState_of_Some in Hc as (ch & Hc & Hs).
    rewrite (become_eq _ _ _ _ Hc), onopen_eq. simpl.
    rewrite tokens_optional by discriminate. rewrite app_nil_r.
    destruct Hholds as [Hnil | [cur Hcur]];
      [rewrite Hnil in Hc; discriminate|].
    rewrite Hcur. unfold holds_socket.
    destruct (<[c:=set_state OPEN ch]> (sockets w) !! cur) as [ch2|];
      [destruct (state ch2)|]; simpl; rewrite ?Hcur, ?tokens_app,
        ?tokens_optional, ?app_nil_r by discriminate; eauto.
  - destruct (readyState_of c w) as [[]|]; try discriminate.
    rewrite onmessage_frame_calls in Hstep. simplify_eq. simpl.
    rewrite tokens_app. auto.
  - unfold onerror in Hstep. rewrite invoke_opt_called in Hstep.
    rewrite tokens_optional by discriminate. rewrite app_nil_r.
    assert (Hw' : w' = called (optional (onError o) (OnError (JStr "ws_error"))) w).
    { destruct (readyState_of c w) as [[]|]; try discriminate; now simplify_eq. }
    subst w'. simpl. rewrite tokens_app, tokens_optional by discriminate.
    rewrite app_nil_r. auto.
  - rewrite onclose_eq in Hstep. rewrite app_nil_r.
    destruct (readyState_of c w) as [s|] eqn:Hc; [|discriminate].
    apply readyState_of_Some in Hc as (ch & Hc & <-).
    rewrite (become_eq _ _ _ _ Hc) in Hstep.
    assert (Hsome : holds_socket
      (with_sockets (<[c:=set_state CLOSED ch]> (sockets w)) w)).
    { destruct Hholds as [Hnil | Hcur]; [rewrite Hnil in Hc; discriminate|].
      now right. }
    destruct (state ch); try discriminate; simplify_eq; simpl;
      destruct (negb (closedByClient (this w))
                && (retries (this w) <? default 3 (maxRetries o)));
      simpl; auto.
  - destruct (find_timer id w) as [t|]; [|discriminate].
    rewrite app_nil_r. destruct (job t).
    + rewrite heartbeat_eq in Hstep. simplify_eq. simpl.
      split; [|split].
      * destruct (ws (this w)) as [c|]; [|reflexivity].
        destruct (sockets w !! c) as [ch|]; [destruct (state ch)|]; reflexivity.
      * left. destruct (ws (this w)) as [c|]; [|reflexivity].
        destruct (sockets w !! c) as [ch|]; [destruct (state ch)|]; reflexivity.
      * unfold holds_socket in *.
        destruct Hholds as [Hnil | [cur Hcur]].
        -- left. rewrite Hnil. destruct (ws (this w)) as [c|]; [|exact Hnil].
           simpl. exact Hnil.
        -- right. rewrite Hcur.
           destruct (sockets w !! cur) as [ch|]; [destruct (state ch)|];
             simpl; rewrite Hcur; eauto.
    + destruct (open_eq P o
                  (with_timers (filter (fun t' => tid t' <> id) (timers w)) w))
        as [addr Ho].
      rewrite Ho in Hstep. simplify_eq. simpl.
      split; [reflexivity|]. split; [now left|]. right. simpl. eauto.
Qed.

Lemma run_tokens (evs : list event) (w w' : world) :
  holds_socket w ->
  Forall (fun x => x = InvalidStateError) (uncaught w) ->
  run P o evs w = Some w' ->
  tokens (calls w') =
    tokens (calls w) ++ tokens (concat (map (event_calls P o) evs))
  /\ Forall (fun x => x = InvalidStateError) (uncaught w').
Proof.
  revert w. induction evs as [|e evs IH]; simpl; intros w Hholds Hun Hrun.
  - simplify_eq. now rewrite app_nil_r.
  - destruct (step P o e w) as [w1|] eqn:Hstep; [|discriminate].
    destruct (step_tokens e w w1 Hholds Hstep) as (Ht & Hu & Hh).
    assert (Hun1 : Forall (fun x => x = InvalidStateError) (uncaught w1)).
    { destruct Hu as [-> | ->]; [assumption|].
      apply Forall_app. split; [assumption|]. now constructor. }
    destruct (IH w1 Hh Hun1 Hrun) as [Ht' Hu'].
    split; [|exact Hu'].
    rewrite Ht', Ht, tokens_app. now rewrite <- app_assoc.
Qed.

(** X6. In every run of a session, however the caller uses it, the
    arguments of the [onToken] calls are exactly the tokens of the token
    frames delivered, in arrival order: no token is lost, repeated or
    reordered. *)
Theorem tokens_in_arrival_order (evs : list event) (w : world) :
  run P o evs created = Some w ->
  tokens (calls w) = tokens (concat (map (event_calls P o) evs)).
Proof.
  intros Hrun.
  destruct (run_tokens evs created w) as [Ht _];
    [now left | constructor | exact Hrun | exact Ht].
Qed.

(** *** Sockets over time *)

Lemma extends_refl (ch : channel) : extends ch ch.
Proof. split; [reflexivity|]. split; [reflexivity | auto]. Qed.

Lemma extends_trans (a b c : channel) :
  extends a b -> extends b c -> extends a c.
Proof.
  intros (Ha & Hs & Hc) (Ha' & Hs' & Hc'). split; [congruence|]. split.
  - etrans; eassumption.
  - intros Hcl. specialize (Hc Hcl). subst b. auto.
Qed.

Lemma extends_set_state (s : readyState) (ch : channel) :
  state ch <> CLOSED -> extends ch (set_state s ch).
Proof. intros H. split; [reflexivity|]. split; [reflexivity | done]. Qed.

Lemma extends_push_sent (data : string) (ch : channel) :
  state ch <> CLOSED -> extends ch (push_sent data ch).
Proof.
  intros H. split; [reflexivity|]. split; [|done].
  simpl. now apply prefix_app_r.
Qed.

Lemma grown_refl (socks : list channel) : grown P o socks socks.
Proof.
  split; [lia|]. intros c ch' Hc. left. eauto using extends_refl.
Qed.

Lemma grown_insert (socks s1 : list channel) (c0 : nat) (x0 x : channel) :
  grown P o socks s1 ->
  length s1 = length socks ->
  s1 !! c0 = Some x0 ->
  extends x0 x ->
  grown P o socks (<[c0 := x]> s1).
Proof.
  intros [Hlen Hold] Heq Hc0 Hext. split; [now rewrite length_insert|].
  intros c ch' Hc.
  apply list_lookup_insert_Some in Hc as [(-> & <- & Hlt) | [Hne Hc]];
    [|eauto].
  destruct (Hold c x0 Hc0) as [(ch & Hch & Hx0) | [Hnone _]].
  - left. exists ch. split; [assumption|]. eapply extends_trans; eassumption.
  - apply lookup_ge_None in Hnone. lia.
Qed.

Lemma grown_snoc (socks : list channel) :
  grown P o socks (socks ++ [mkChannel (socket_address P o) CONNECTING []]).
Proof.
  split; [rewrite length_app; lia|].
  intros c ch' Hc.
  apply lookup_app_Some in Hc as [Hc | [Hge Hc]].
  - left. eauto using extends_refl.
  - right. split; [now apply lookup_ge_None|].
    destruct (c - length socks)%nat; simpl in Hc; [|discriminate].
    now simplify_eq.
Qed.

Lemma open_address (w : world) :
  open P o w =
    Ret tt
      {| this := set_ws (Some (length (sockets w))) (this w);
         sockets :=
           sockets w ++ [mkChannel (socket_address P o) CONNECTING []];
         timers := timers w;
         nextTimer := nextTimer w;
         calls := calls w;
         delays := delays w;
         uncaught := uncaught w |}.
Proof. reflexivity. Qed.

(** One event of any session grows its sockets. *)
Lemma step_grown (e : event) (w w' : world) :
  step P o e w = Some w' -> grown P o (sockets w) (sockets w').
Proof.
  intros Hstep.
  destruct e as [| |c|c data|c|c|id]; unfold step in Hstep.
  - rewrite open_address in Hstep. simplify_eq. apply grown_snoc.
  - rewrite stop_eq in Hstep. simplify_eq. simpl.
    destruct (ws (this w)) as [c|]; [|apply grown_refl].
    destruct (sockets w !! c) as [ch|] eqn:Hc; [|apply grown_refl].
    destruct (state ch) eqn:Hs; try apply grown_refl;
      (eapply grown_insert;
       [apply grown_refl | reflexivity | exact Hc
       | apply extends_set_state; congruence]).
  - destruct (readyState_of c w) as [s|] eqn:Hc; [|discriminate].
    destruct s; try discriminate. simplify_eq.
    apply readyState_of_Some in Hc as (ch & Hc & Hs).
    rewrite (become_eq _ _ _ _ Hc), onopen_eq. simpl.
    assert (H1 : grown P o (sockets w) (<[c := set_state OPEN ch]> (sockets w))).
    { eapply grown_insert;
        [apply grown_refl | reflexivity | exact Hc
        | apply extends_set_state; congruence]. }
    destruct (ws (this w)) as [cur|]; [|exact H1].
    destruct (<[c:=set_state OPEN ch]> (sockets w) !! cur) as [ch2|] eqn:Hcur;
      [|exact H1].
    destruct (state ch2) eqn:Hs2; try exact H1. simpl.
    eapply grown_insert;
      [exact H1 | now rewrite length_insert | exact Hcur
      | apply extends_push_sent; congruence].
  - destruct (readyState_of c w) as [[]|]; try discriminate.
    rewrite onmessage_frame_calls in Hstep. simplify_eq. apply grown_refl.
  - unfold onerror in Hstep. rewrite invoke_opt_called in Hstep.
    destruct (readyState_of c w) as [[]|]; try discriminate;
      simplify_eq; apply grown_refl.
  - rewrite onclose_eq in Hstep.
    destruct (readyState_of c w) as [s|] eqn:Hc; [|discriminate].
    apply readyState_of_Some in Hc as (ch & Hc & <-).
    rewrite (become_eq _ _ _ _ Hc) in Hstep.
    assert (H1 : state ch <> CLOSED ->
      grown P o (sockets w) (<[c := set_state CLOSED ch]> (sockets w))).
    { intros Hlive. eapply grown_insert;
        [apply grown_refl | reflexivity | exact Hc
        | now apply extends_set_state]. }
    destruct (state ch) eqn:Hs; try discriminate; simplify_eq; simpl;
      destruct (negb (closedByClient (this w))
                && (retries (this w) <? default 3 (maxRetries o)));
      simpl; apply H1; discriminate.
  - destruct (find_timer id w) as [t|]; [|discriminate].
    destruct (job t).
    + rewrite heartbeat_eq in Hstep. simplify_eq.
      destruct (ws (this w)) as [c|]; [|apply grown_refl].
      destruct (sockets w !! c) as [ch|] eqn:Hc; [|apply grown_refl].
      destruct (state ch) eqn:Hs; try apply grown_refl. simpl.
      eapply grown_insert;
        [apply grown_refl | reflexivity | exact Hc
        | apply extends_push_sent; congruence].
    + rewrite open_address in Hstep. simplify_eq. apply grown_snoc.
Qed.

(** X8. In every run of a session no socket is ever removed, moved or
    reused: a socket keeps its place and its address, the frames sent on
    it stay sent and in order while more may follow, and once it is closed
    nothing about it changes any more. *)
Theorem sockets_only_grow (evs : list event) (w w' : world) (c : nat)
    (ch : channel) :
  run P o evs w = Some w' ->
  sockets w !! c = Some ch ->
  exists ch',
    sockets w' !! c = Some ch'
    /\ address ch' = address ch
    /\ sent ch `prefix_of` sent ch'
    /\ (state ch = CLOSED -> ch' = ch).
Proof.
  revert w ch. induction evs as [|e evs IH]; simpl; intros w ch Hrun Hc.
  - simplify_eq. exists ch. split; [assumption|]. apply extends_refl.
  - destruct (step P o e w) as [w1|] eqn:Hstep; [|discriminate].
    destruct (step_grown e w w1 Hstep) as [Hlen Hold].
    assert (Hlt : (c < length (sockets w1))%nat).
    { apply lookup_lt_Some in Hc. lia. }
    apply lookup_lt_is_Some in Hlt as [ch1 Hc1].
    destruct (Hold c ch1 Hc1) as [(ch0 & Hc0 & Hext) | [Hnone _]];
      [|congruence].
    simplify_eq.
    destruct (IH w1 ch1 Hrun Hc1) as (ch' & Hc' & Hext').
    exists ch'. split; [assumption|].
    exact (extends_trans ch ch1 ch' Hext Hext').
Qed.

(** X9. Every socket a session ever creates is created for one and the
    same address: the scheme [wss] when the page's protocol is [https:]
    and [ws] otherwise, then [://], the page's host and the configured
    path. *)
Theorem every_socket_same_address (evs : list event) (w : world) (c : nat)
    (ch : channel) :
  run P o evs created = Some w ->
  sockets w !! c = Some ch ->
  address ch = socket_address P o.
Proof.
  assert (Hgen : forall w0,
    (forall c ch, sockets w0 !! c = Some ch -> address ch = socket_address P o) ->
    run P o evs w0 = Some w ->
    forall c ch, sockets w !! c = Some ch -> address ch = socket_address P o).
  { induction evs as [|e evs IH]; simpl; intros w0 Hinv Hrun.
    - now simplify_eq.
    - destruct (step P o e w0) as [w1|] eqn:Hstep; [|discriminate].
      apply (IH w1); [|assumption].
      intros c1 ch1 Hc1.
      destruct (step_grown e w0 w1 Hstep) as [_ Hold].
      destruct (Hold c1 ch1 Hc1) as [(ch0 & Hc0 & Ha & _) | [_ ->]];
        [|reflexivity].
      rewrite Ha. eauto. }
  intros Hrun Hc. apply (Hgen created) with (c := c); [|assumption|assumption].
  intros c0 ch0 H. discriminate.
Qed.

(** *** Backoff delays and connection attempts *)









End Manager.

(** *** Callbacks, addresses and payloads that fail *)

Section Unguarded.

Variable P : platform.
Variable o : WSOpts.
Variable throws : list call -> call -> option exn.
Variable accepts : string -> bool.
Variable serialisable : value -> bool.

(** The message handler returns whatever its callbacks do: what they
    throw is caught, and the call stays made. *)
Lemma onmessage_u_called (data : string) (w : world) :
  exists cs, onmessage_u P o throws data w = Ret tt (called cs w).
Proof.
  assert (Hinv : forall c,
    exists cs, try_ignore (invoke_u throws c) w = Ret tt (called cs w)).
  { intros c. exists [c]. unfold try_ignore, invoke_u.
    now destruct (throws (calls w) c). }
  assert (Hopt : forall b c,
    exists cs, try_ignore (invoke_opt_u throws b c) w = Ret tt (called cs w)).
  { intros [] c; [apply Hinv|]. exists []. now rewrite called_nil. }
  unfold try_ignore in Hinv, Hopt.
  unfold onmessage_u, try_ignore, bind.
  destruct (JSON_parse P data) as [m|]; simpl;
    [|exists []; now rewrite called_nil].
  destruct (prop "type" m) as [t|]; simpl;
    [|exists []; now rewrite called_nil].
  destruct (is_str t "token"); [apply Hinv|].
  destruct (is_str t "start"); [apply Hopt|].
  destruct (is_str t "end"); [apply Hopt|].
  destruct (is_str t "error"); [apply Hopt|].
  exists []. now rewrite called_nil.
Qed.

(** With a caller and a page that behave, the handlers are those of
    [Manager]. *)
Lemma step_u_agrees (e : event) (w : world) :
  (well_behaved P o throws accepts serialisable) -> (step_u P o throws accepts serialisable) e w = step P o e w.
Proof.
  intros (Hthrows & Haccepts & Hser).
  assert (Hinvoke : forall c w1, invoke_u throws c w1 = invoke c w1).
  { intros c w1. unfold invoke_u, invoke. now rewrite Hthrows. }
  assert (Hopt : forall b c w1, invoke_opt_u throws b c w1 = invoke_opt b c w1).
  { intros [] c w1; [apply Hinvoke | reflexivity]. }
  assert (Hopen : forall w1, open_u P o accepts w1 = open P o w1).
  { intros w1. unfold open_u, open, new_WebSocket_u, bind.
    unfold socket_address in Haccepts. cbv zeta. now rewrite Haccepts. }
  destruct e as [| |c|c data|c|c|id]; unfold step_u, step.
  - now rewrite Hopen.
  - reflexivity.
  - destruct (readyState_of c w) as [[]|]; try reflexivity.
    do 2 f_equal. generalize (become c OPEN w). intros w1.
    unfold onopen_u, onopen, bind, stringify_u. simpl.
    destruct (ws (this w1)) as [c1|]; [|reflexivity].
    rewrite Hser. unfold ret.
    destruct (send c1 (JSON_stringify P (init o)) _) as [[] w2 | x w2];
      [|reflexivity].
    rewrite Hopt. reflexivity.
  - destruct (readyState_of c w) as [[]|]; try reflexivity.
    do 2 f_equal. unfold onmessage_u, onmessage, try_ignore, bind.
    destruct (JSON_parse P data) as [m|]; simpl; [|reflexivity].
    destruct (prop "type" m) as [t|]; simpl; [|reflexivity].
    destruct (is_str t "token"); [now rewrite Hinvoke|].
    destruct (is_str t "start"); [now rewrite Hopt|].
    destruct (is_str t "end"); [now rewrite Hopt|].
    destruct (is_str t "error"); [now rewrite Hopt|].
    reflexivity.
  - unfold onerror_u, onerror. now rewrite Hopt.
  - reflexivity.
  - destruct (find_timer id w) as [t|]; [|reflexivity].
    destruct (job t); [reflexivity|]. now rewrite Hopen.
Qed.

Lemma run_u_agrees (evs : list event) (w : world) :
  (well_behaved P o throws accepts serialisable) -> (run_u P o throws accepts serialisable) evs w = run P o evs w.
Proof.
  intros Hwell. revert w. induction evs as [|e evs IH]; intros w; simpl;
    [reflexivity|].
  rewrite (step_u_agrees e w Hwell).
  destruct (step P o e w); [apply IH | reflexivity].
Qed.

Lemma orderly_run_u_agrees (evs : list event) (w : world) :
  (well_behaved P o throws accepts serialisable) -> (orderly_run_u P o throws accepts serialisable) evs w = orderly_run P o evs w.
Proof.
  intros Hwell. revert w. induction evs as [|e evs IH]; intros w; simpl;
    [reflexivity|].
  rewrite (step_u_agrees e w Hwell).
  destruct (allowed e w); [|reflexivity].
  destruct (step P o e w); [apply IH | reflexivity].
Qed.

(** [open()] with a constructor that may reject the address. *)
Lemma open_u_escapes (w : world) :
  holds_socket w ->
  let w' := settle (open_u P o accepts w) in
  (uncaught w' = uncaught w
   \/ exists x, uncaught w' = uncaught w ++ [x] /\ (accounted P o throws accepts serialisable) x)
  /\ holds_socket w'.
Proof.
  intros Hholds. cbv zeta.
  unfold open_u, new_WebSocket_u, bind. cbv zeta.
  destruct (accepts _) eqn:Ha; simpl.
  - split; [now left|]. right. simpl. eauto.
  - split; [|exact Hholds].
    right. exists SyntaxError. split; [reflexivity|].
    right; left. split; [reflexivity | exact Ha].
Qed.

(** One event of any session, with any callbacks: the exception that
    may escape is (accounted P o throws accepts serialisable) for, and the manager keeps holding a
    socket. *)
Lemma step_u_escapes (e : event) (w w' : world) :
  holds_socket w ->
  (step_u P o throws accepts serialisable) e w = Some w' ->
  (uncaught w' = uncaught w
   \/ exists x, uncaught w' = uncaught w ++ [x] /\ (accounted P o throws accepts serialisable) x)
  /\ holds_socket w'.
Proof.
  intros Hholds Hstep.
  destruct e as [| |c|c data|c|c|id]; unfold step_u in Hstep.
  - simplify_eq. now apply open_u_escapes.
  - rewrite stop_eq in Hstep. simplify_eq. simpl. split.
    + left. destruct (ws (this w)) as [c|]; [|reflexivity].
      destruct (sockets w !! c) as [ch|]; [destruct (state ch)|]; reflexivity.
    + unfold holds_socket in *.
      destruct Hholds as [Hnil | [cur Hcur]].
      * left. rewrite Hnil. destruct (ws (this w)) as [c|]; [|exact Hnil].
        simpl. exact Hnil.
      * right. rewrite Hcur.
        destruct (sockets w !! cur) as [ch|]; [destruct (state ch)|];
          simpl; rewrite Hcur; eauto.
  - destruct (readyState_of c w) as [s|] eqn:Hc; [|discriminate].
    destruct s; try discriminate. simplify_eq.
    apply readyState_of_Some in Hc as (ch & Hc & Hs).
    destruct Hholds as [Hnil | [cur Hcur]];
      [rewrite Hnil in Hc; discriminate|].
    rewrite (become_eq _ _ _ _ Hc).
    unfold onopen_u, bind, update, get, stringify_u, invoke_opt_u, when,
      invoke_u, setInterval, add_timer, send, ret, raise, holds_socket.
    simpl. rewrite Hcur.
    destruct (serialisable (init o)) eqn:Hser; simpl.
    2:{ split; [|right; rewrite Hcur; eauto].
        right. exists TypeError. split; [reflexivity|].
        right; right; left. auto. }
    destruct (<[c:=set_state OPEN ch]> (sockets w) !! cur) as [ch2|];
      [destruct (state ch2)|]; simpl;
      try (split; [|right; rewrite Hcur; eauto];
           right; exists InvalidStateError; split; [reflexivity | now left]);
      destruct (onStart o) eqn:Hstart; simpl;
      try (split; [now left | right; rewrite Hcur; eauto]);
      match goal with
      | |- context [throws ?past OnStart] =>
          destruct (throws past OnStart) as [x|] eqn:Hthrow; simpl;
          [split; [|right; rewrite Hcur; eauto];
           right; exists x; split; [reflexivity|];
           right; right; right; left; eauto
          |split; [now left | right; rewrite Hcur; eauto]]
      end.
  - destruct (readyState_of c w) as [[]|]; try discriminate.
    destruct (onmessage_u_called data w) as [cs Hm]. rewrite Hm in Hstep.
    simplify_eq. simpl. auto.
  - assert (Hw' : w' = settle (onerror_u o throws w))
      by (destruct (readyState_of c w) as [[]|]; try discriminate;
          now simplify_eq).
    subst w'. unfold onerror_u, invoke_opt_u, when, invoke_u, ret.
    destruct (onError o) eqn:Herr; simpl; [|auto].
    destruct (throws (calls w) (OnError (JStr "ws_error"))) as [x|] eqn:Hthrow;
      simpl; [|auto].
    split; [|exact Hholds].
    right. exists x. split; [reflexivity|].
    right; right; right; right. eauto.
  - rewrite onclose_eq in Hstep.
    destruct (readyState_of c w) as [s|] eqn:Hc; [|discriminate].
    apply readyState_of_Some in Hc as (ch & Hc & <-).
    rewrite (become_eq _ _ _ _ Hc) in Hstep.
    assert (Hsome : holds_socket
      (with_sockets (<[c:=set_state CLOSED ch]> (sockets w)) w)).
    { destruct Hholds as [Hnil | Hcur]; [rewrite Hnil in Hc; discriminate|].
      now right. }
    destruct (state ch); try discriminate; simplify_eq; simpl;
      destruct (negb (closedByClient (this w))
                && (retries (this w) <? default 3 (maxRetries o)));
      simpl; auto.
  - destruct (find_timer id w) as [t|]; [|discriminate].
    destruct (job t).
    + rewrite heartbeat_eq in Hstep. simplify_eq. simpl. split.
      * left. destruct (ws (this w)) as [c|]; [|reflexivity].
        destruct (sockets w !! c) as [ch|]; [destruct (state ch)|]; reflexivity.
      * unfold holds_socket in *.
        destruct Hholds as [Hnil | [cur Hcur]].
        -- left. rewrite Hnil. destruct (ws (this w)) as [c|]; [|exact Hnil].
           simpl. exact Hnil.
        -- right. rewrite Hcur.
           destruct (sockets w !! cur) as [ch|]; [destruct (state ch)|];
             simpl; rewrite Hcur; eauto.
    + simplify_eq.
      exact (open_u_escapes
               (with_timers (filter (fun t' => tid t' <> id) (timers w)) w)
               Hholds).
Qed.

Lemma run_u_escapes (evs : list event) (w w' : world) :
  holds_socket w ->
  Forall (accounted P o throws accepts serialisable) (uncaught w) ->
  (run_u P o throws accepts serialisable) evs w = Some w' ->
  Forall (accounted P o throws accepts serialisable) (uncaught w').
Proof.
  revert w. induction evs as [|e evs IH]; simpl; intros w Hholds Hun Hrun.
  - now simplify_eq.
  - destruct ((step_u P o throws accepts serialisable) e w) as [w1|] eqn:Hstep; [|discriminate].
    destruct (step_u_escapes e w w1 Hholds Hstep) as (Hu & Hh).
    apply (IH w1 Hh); [|exact Hrun].
    destruct Hu as [-> | (x & -> & Hx)]; [assumption|].
    apply Forall_app. split; [assumption|]. now constructor.
Qed.

(** X4. In a session opened only when idle no exception ever leaves a
    handler or a method, when the caller's callbacks return, the
    [WebSocket] constructor accepts the session's address and the init
    payload can be serialised: the manager itself never sends on a socket
    that is still connecting. *)
Theorem orderly_never_throws (evs : list event) (w : world) :
  (well_behaved P o throws accepts serialisable) ->
  (orderly_run_u P o throws accepts serialisable) evs created = Some w ->
  uncaught w = [].
Proof.
  intros Hwell Hrun. rewrite (orderly_run_u_agrees evs created Hwell) in Hrun.
  destruct (orderly_run_calls P o evs created w (created_orderly P o) Hrun)
    as [_ Hu].
  exact Hu.
Qed.

(** X7. In every run of a session, however the caller uses it and
    whatever its callbacks do, an exception that leaves a handler or a
    method is (accounted P o throws accepts serialisable) for: it is the [InvalidStateError] of a [send] on
    a socket that is still connecting, the [SyntaxError] of the
    constructor rejecting the session's address, the [TypeError] of
    [JSON.stringify] on the init payload, or what [onStart] or [onError]
    (called with [ws_error]) throws. The message handler returns whatever
    its callbacks throw. And when the callbacks return, the address is
    accepted and the payload can be serialised, the only exception that
    ever leaves is the [InvalidStateError]. *)
Theorem escaping_exceptions_accounted (evs : list event) (w : world) :
  (run_u P o throws accepts serialisable) evs created = Some w ->
  Forall (accounted P o throws accepts serialisable) (uncaught w)
  /\ (forall data w1,
        exists cs, onmessage_u P o throws data w1 = Ret tt (called cs w1))
  /\ ((well_behaved P o throws accepts serialisable) -> Forall (fun x => x = InvalidStateError) (uncaught w)).
Proof.
  intros Hrun. split; [|split].
  - apply (run_u_escapes evs created w); [now left | constructor | exact Hrun].
  - exact onmessage_u_called.
  - intros Hwell. rewrite (run_u_agrees evs created Hwell) in Hrun.
    destruct (run_tokens P o evs created w) as [_ Hu];
      [now left | constructor | exact Hrun | exact Hu].
Qed.

End Unguarded.


(** *** Instances on the concrete page *)

Lemma stop_is_final_witness :
  exists w',
    run page stream_opts [Errored 0; Closed 0; CallStop]%nat
      (settle (stop streaming)) = Some w'
    /\ sent <$> sockets w' = sent <$> sockets streaming
    /\ delays w' = delays streaming
    /\ timers w' = []
    /\ closedByClient (this w') = true.
Proof.
  eexists. split; [vm_compute; reflexivity|].
  apply (stop_is_final page stream_opts [CallOpen; Opened 0%nat] streaming
           [Errored 0; Closed 0; CallStop]%nat);
    vm_compute; reflexivity.
Defined.


Lemma orderly_never_throws_witness :
  exists w,
    orderly_run_u page stream_opts never_throws any_address any_value
      [CallOpen; Opened 0; Message 0 "not json"; Fired 1; Closed 0; Fired 2;
       Opened 1]%nat created = Some w
    /\ uncaught w = [].
Proof.
  eexists. split; [vm_compute; reflexivity|].
  apply (orderly_never_throws page stream_opts never_throws any_address
           any_value
           [CallOpen; Opened 0; Message 0 "not json"; Fired 1; Closed 0;
            Fired 2; Opened 1]%nat).
  - split; [intros past c; reflexivity|]. split; reflexivity.
  - vm_compute; reflexivity.
Defined.

Lemma unknown_frame_dropped_witness :
  onmessage page stream_opts (bare_frame "pong") streaming = Ret tt streaming.
Proof.
  apply (unknown_frame_dropped page stream_opts (bare_frame "pong") streaming).
  intros m t Hm Ht. vm_compute in Hm. injection Hm as <-.
  vm_compute in Ht. injection Ht as <-. reflexivity.
Defined.

Lemma tokens_in_arrival_order_witness :
  exists w,
    run page stream_opts
      [CallOpen; Opened 0; Message 0 (frame "token" "a"); CallOpen; Opened 1;
       Message 0 (frame "token" "b"); Message 1 (frame "token" "c")]%nat
      created = Some w
    /\ tokens (calls w) = [JStr "a"; JStr "b"; JStr "c"].
Proof.
  eexists. split; [vm_compute; reflexivity|].
  etransitivity;
    [apply (tokens_in_arrival_order page stream_opts
              [CallOpen; Opened 0; Message 0 (frame "token" "a"); CallOpen;
               Opened 1; Message 0 (frame "token" "b");
               Message 1 (frame "token" "c")]%nat)|];
    vm_compute; reflexivity.
Defined.

Lemma escaping_exceptions_accounted_witness :
  exists w,
    run_u page stream_opts start_throws any_address any_value
      [CallOpen; Opened 0; Message 0 (bare_frame "start"); Errored 0]%nat
      created = Some w
    /\ calls w = [OnStart; OnStart; OnError (JStr "ws_error")]
    /\ uncaught w = [TypeError]
    /\ timers w = []
    /\ Forall (accounted page stream_opts start_throws any_address any_value)
         (uncaught w).
Proof.
  eexists. split; [vm_compute; reflexivity|].
  split; [reflexivity|]. split; [reflexivity|]. split; [reflexivity|].
  apply (escaping_exceptions_accounted page stream_opts start_throws
           any_address any_value
           [CallOpen; Opened 0; Message 0 (bare_frame "start"); Errored 0]%nat).
  vm_compute; reflexivity.
Defined.

Lemma sockets_only_grow_witness :
  exists w' ch,
    run page stream_opts [Fired 1; Closed 0; Fired 2]%nat streaming = Some w'
    /\ sockets streaming !! 0%nat = Some ch
    /\ exists ch',
         sockets w' !! 0%nat = Some ch'
         /\ address ch' = address ch
         /\ sent ch `prefix_of` sent ch'
         /\ (state ch = CLOSED -> ch' = ch).
Proof.
  eexists. eexists.
  split; [vm_compute; reflexivity|].
  split; [vm_compute; reflexivity|].
  apply (sockets_only_grow page stream_opts [Fired 1; Closed 0; Fired 2]%nat
           streaming);
    vm_compute; reflexivity.
Defined.

Lemma every_socket_same_address_witness :
  exists w ch,
    run page stream_opts [CallOpen; Opened 0; Closed 0; Fired 2]%nat created
      = Some w
    /\ sockets w !! 1%nat = Some ch
    /\ address ch = socket_address page stream_opts.
Proof.
  eexists. eexists.
  split; [vm_compute; reflexivity|].
  split; [vm_compute; reflexivity|].
  eapply (every_socket_same_address page stream_opts
            [CallOpen; Opened 0; Closed 0; Fired 2]%nat _ 1%nat);
    vm_compute; reflexivity.
Defined.



End SessionMore.

(** ** The output sink: further properties *)

Module SinkMore.

Import Sink SinkProps.

Section WithLayout.

Variable scrollHeight : string -> Z.

(** Appending or refreshing moves text from the fragments to the buffer
    and from the buffer to the output, and never drops any. *)
Lemma act_keeps_text (a : action) (st : state) :
  a <> Clear ->
  str_cat (textContent (act scrollHeight a st))
          (buffer (act scrollHeight a st)) =
    str_cat (str_cat (textContent st) (buffer st))
            (str_concat (fragments [a])).
Proof.
  intros Ha. destruct a as [s| |]; [| |contradiction]; simpl.
  - rewrite str_cat_empty_r. unfold appendOut. simpl.
    destruct (rafPending st); simpl; now rewrite str_cat_assoc.
  - rewrite str_cat_empty_r. unfold animationFrame.
    generalize (rafQueue st). intros n.
    set (st0 := {| textContent := textContent st; scrollTop := scrollTop st;
                   buffer := buffer st; rafPending := rafPending st;
                   rafQueue := 0; painted := painted st |}).
    change (str_cat (textContent st) (buffer st))
      with (str_cat (textContent st0) (buffer st0)).
    generalize st0. clear st0. induction n as [|n IH]; intros st0;
      [reflexivity|].
    simpl Nat.iter. unfold renderPass at 1 2. simpl.
    rewrite str_cat_empty_r. apply IH.
Qed.

Lemma fragments_app (a b : list action) :
  fragments (a ++ b) = fragments a ++ fragments b.
Proof. unfold fragments. apply omap_app. Qed.

Lemma str_concat_app (a b : list string) :
  str_concat (a ++ b) = str_cat (str_concat a) (str_concat b).
Proof.
  induction a as [|x a IH]; simpl; [reflexivity|].
  now rewrite IH, str_cat_assoc.
Qed.

Lemma run_keeps_text (acts : list action) (st : state) :
  clears acts = false ->
  str_cat (textContent (run scrollHeight acts st))
          (buffer (run scrollHeight acts st)) =
    str_cat (str_cat (textContent st) (buffer st))
            (str_concat (fragments acts)).
Proof.
  revert st. induction acts as [|a acts IH]; intros st Hc.
  - simpl. now rewrite str_cat_empty_r.
  - simpl in Hc. apply orb_false_elim in Hc as [Ha Hc].
    change (run scrollHeight (a :: acts) st)
      with (run scrollHeight acts (act scrollHeight a st)).
    rewrite (IH _ Hc), act_keeps_text by (intros ->; discriminate).
    change (a :: acts) with ([a] ++ acts).
    rewrite fragments_app, str_concat_app. now rewrite str_cat_assoc.
Qed.

(** X12. As long as the output is not cleared, nothing that was appended
    is lost, repeated or reordered: from page load, after any sequence of
    appends and display refreshes, the rendered output followed by the
    buffer is the concatenation of all fragments in arrival order, and
    right after a display refresh the rendered output alone is. *)
Theorem nothing_lost_without_clear (acts : list action) :
  clears acts = false ->
  let st := run scrollHeight acts initial in
  str_cat (textContent st) (buffer st) = str_concat (fragments acts)
  /\ textContent (animationFrame scrollHeight st) = str_concat (fragments acts).
Proof.
  intros Hc. cbv zeta.
  pose proof (run_keeps_text acts initial Hc) as Hrun. simpl in Hrun.
  split; [exact Hrun|].
  pose proof (settled_after_frame scrollHeight acts) as (Hb & _ & _).
  pose proof (act_keeps_text Frame (run scrollHeight acts initial)
                ltac:(discriminate)) as Hf.
  simpl in Hf. rewrite Hb, !str_cat_empty_r in Hf. congruence.
Qed.

Lemma frame_paints_at_most_once (st : state) :
  coherent st ->
  (length (painted (animationFrame scrollHeight st))
   <= S (length (painted st)))%nat.
Proof.
  intros [[_ Hq] | (_ & _ & Hq)]; unfold animationFrame; rewrite Hq; simpl;
    rewrite ?length_app; simpl; lia.
Qed.

Lemma run_paints (acts : list action) (st : state) :
  coherent st ->
  (length (painted (run scrollHeight acts st))
   <= length (painted st) + refreshes acts)%nat.
Proof.
  revert st. induction acts as [|a acts IH]; intros st Hst.
  - simpl. lia.
  - change (run scrollHeight (a :: acts) st)
      with (run scrollHeight acts (act scrollHeight a st)).
    pose proof (IH _ (coherent_act scrollHeight a st Hst)) as H.
    destruct a as [s| |]; unfold refreshes in *; cbn [act] in H;
      cbn [List.filter length].
    + assert (Hp : painted (appendOut s st) = painted st).
      { unfold appendOut. simpl. now destruct (rafPending st). }
      rewrite Hp in H. exact H.
    + pose proof (frame_paints_at_most_once st Hst). cbn [act]. lia.
    + exact H.
Qed.

(** X13. Rendering is throttled to the display: from page load, whatever
    is appended and however fast, the number of paints is at most the
    number of display refreshes, at most one render pass is waiting at any
    time, and there is one waiting unless the buffer is empty. *)
Theorem paints_bounded_by_refreshes (acts : list action) :
  let st := run scrollHeight acts initial in
  (length (painted st) <= refreshes acts)%nat
  /\ (rafQueue st <= 1)%nat
  /\ (buffer st = EmptyString \/ rafQueue st = 1%nat).
Proof.
  cbv zeta.
  assert (Hinit : coherent initial) by (right; repeat split).
  split; [|split].
  - pose proof (run_paints acts initial Hinit) as H. simpl in H. exact H.
  - destruct (coherent_run scrollHeight acts initial Hinit)
      as [[_ Hq] | (_ & _ & Hq)]; lia.
  - destruct (coherent_run scrollHeight acts initial Hinit)
      as [[_ Hq] | (Hb' & _ & _)]; [right; exact Hq | left; exact Hb'].
Qed.

End WithLayout.


Lemma nothing_lost_without_clear_witness :
  let acts := [Append "a"; Append "b"; Frame; Append "c"] in
  let st := run tall acts initial in
  clears acts = false
  /\ textContent st = "ab" /\ buffer st = "c"
  /\ str_cat (textContent st) (buffer st) = str_concat (fragments acts)
  /\ textContent (animationFrame tall st) = str_concat (fragments acts).
Proof.
  cbv zeta.
  split; [reflexivity|]. split; [reflexivity|]. split; [reflexivity|].
  apply (nothing_lost_without_clear tall
           [Append "a"; Append "b"; Frame; Append "c"]).
  reflexivity.
Defined.

End SinkMore.

(** ** Theme colours *)

Module ThemeProps.

Import Telegram Theme.

Lemma or_str_nonempty (x : option string) (d : string) :
  d <> EmptyString -> or_str x d <> EmptyString.
Proof. intros Hd. destruct x as [[|c s]|]; simpl; auto; discriminate. Qed.

(** X14. Whatever Telegram reports (no WebApp object at all, missing or
    empty fields, unknown colour schemes, empty colours), the function
    sets exactly the five custom properties [--bg], [--card], [--text],
    [--muted], [--border], in this order, and each to a value that is not
    the empty string, so that no property is ever removed or left
    unset. *)
Theorem theme_sets_five_colours (tg : option WebApp) :
  map fst (applyThemeFromTelegram tg)
    = ["--bg"; "--card"; "--text"; "--muted"; "--border"]
  /\ Forall (fun kv => snd kv <> EmptyString) (applyThemeFromTelegram tg).
Proof.
  split; [reflexivity|].
  unfold applyThemeFromTelegram.
  repeat (constructor;
          [apply or_str_nonempty; destruct (String.eqb _ _); discriminate|]).
  constructor.
Qed.

Lemma or_str_unusable (k : string) (p : list (string * string)) (d : string) :
  usable k p = false -> or_str (get k p) d = d.
Proof.
  unfold usable. destruct (get k p) as [[|c s]|]; simpl; auto; discriminate.
Qed.

(** X15. When none of the five theme parameters is usable (missing, or
    the empty string), the colours are one of two fixed palettes: the dark
    one when the colour scheme is [dark], missing or empty (so also
    outside Telegram), and the light one for every other scheme, known or
    not. *)
Theorem theme_falls_back_to_palette (tg : option WebApp) :
  forallb (fun k => negb (usable k (params_of tg))) theme_keys = true ->
  applyThemeFromTelegram tg =
    match scheme_of tg with
    | None | Some EmptyString => dark_palette
    | Some s => if String.eqb s "dark" then dark_palette else light_palette
    end.
Proof.
  intros H. simpl in H.
  repeat (apply andb_prop in H as [?%negb_true_iff H]).
  unfold applyThemeFromTelegram.
  fold (params_of tg). fold (scheme_of tg).
  rewrite !or_str_unusable by assumption.
  destruct (scheme_of tg) as [[|c s]|]; [reflexivity| |reflexivity].
  cbn [or_str].
  destruct (String.eqb (String c s) "dark"); reflexivity.
Qed.


Lemma theme_falls_back_to_palette_witness :
  applyThemeFromTelegram (Some telegram_plain) = light_palette.
Proof.
  apply (theme_falls_back_to_palette (Some telegram_plain)). reflexivity.
Defined.

End ThemeProps.

(** ** The page *)

Module AppProps.

Import Session SessionProps SessionMore Telegram App.

(** *** The document *)

Lemma query_assign (sel sel' : string) (e' : element) (d : document) :
  querySelector sel' (assign sel e' d) =
    if String.eqb sel' sel then
      match querySelector sel d with
      | Some _ => Some e'
      | None => None
      end
    else querySelector sel' d.
Proof.
  induction d as [|[s e] d IH]; simpl.
  - now destruct (String.eqb sel' sel).
  - destruct (String.eqb_spec sel s) as [->|Hne]; simpl.
    + destruct (String.eqb_spec sel' s) as [->|Hne']; [reflexivity|].
      reflexivity.
    + destruct (String.eqb_spec sel' s) as [->|Hne'].
      * destruct (String.eqb_spec s sel) as [->|_]; [congruence|reflexivity].
      * exact IH.
Qed.

Lemma query_assign_same (sel : string) (e e' : element) (d : document) :
  querySelector sel d = Some e ->
  querySelector sel (assign sel e' d) = Some e'.
Proof. intros H. now rewrite query_assign, String.eqb_refl, H. Qed.

Lemma query_assign_other (sel sel' : string) (e' : element) (d : document) :
  sel' <> sel ->
  querySelector sel' (assign sel e' d) = querySelector sel' d.
Proof.
  intros H. rewrite query_assign.
  now destruct (String.eqb_spec sel' sel).
Qed.

Lemma query_assign_is_Some (sel sel' : string) (e' : element) (d : document) :
  is_Some (querySelector sel' (assign sel e' d))
  <-> is_Some (querySelector sel' d).
Proof.
  rewrite query_assign.
  destruct (String.eqb_spec sel' sel) as [->|_]; [|reflexivity].
  destruct (querySelector sel d); split; intros [x H]; eauto; discriminate.
Qed.

Lemma assign_assign (sel : string) (e1 e2 : element) (d : document) :
  assign sel e2 (assign sel e1 d) = assign sel e2 d.
Proof.
  induction d as [|[s e] d IH]; simpl; [reflexivity|].
  destruct (String.eqb_spec sel s) as [->|Hne]; simpl.
  - now rewrite String.eqb_refl.
  - destruct (String.eqb_spec sel s); [contradiction|]. now rewrite IH.
Qed.

(** *** Rules for handlers *)

Section Script.

Variable P : platform.
Variable tg : option WebApp.
Variable blank : string -> bool.
Variable to_text : JSON.value -> string.
Variable scrollHeight : string -> Z.
Variable clipboard : bool.

Lemma keeps_and_then {A B} (pre : page -> Prop) (mid : A -> page -> Prop)
    (post : B -> page -> Prop) (err : page -> Prop) (m : H A) (k : A -> H B) :
  keeps pre m mid err ->
  (forall a, keeps (mid a) (k a) post err) ->
  keeps pre (and_then m k) post err.
Proof.
  intros Hm Hk pg Hpre. unfold and_then.
  specialize (Hm pg Hpre). destruct (m pg) as [a pg'|msg pg']; [|exact Hm].
  exact (Hk a pg' Hm).
Qed.

Lemma keeps_weaken {A} (pre pre' : page -> Prop) (post post' : A -> page -> Prop)
    (err err' : page -> Prop) (m : H A) :
  keeps pre' m post' err' ->
  (forall pg, pre pg -> pre' pg) ->
  (forall a pg, post' a pg -> post a pg) ->
  (forall pg, err' pg -> err pg) ->
  keeps pre m post err.
Proof.
  intros Hm H1 H2 H3 pg Hpre. specialize (Hm pg (H1 pg Hpre)).
  destruct (m pg); auto.
Qed.

(** [qs] changes nothing and returns the element the selector finds. *)
Lemma keeps_qs (sel : string) (I : page -> Prop) :
  keeps I (qs sel)
    (fun e pg => I pg /\ querySelector sel (dom pg) = Some e) I.
Proof.
  intros pg HI. unfold qs.
  destruct (querySelector sel (dom pg)) eqn:Hq; auto.
Qed.

(** A write changes the document at its selector only. *)
Lemma keeps_modify (sel : string) (f : element -> element) (I : page -> Prop) :
  keeps I (modify sel f)
    (fun _ pg' =>
       exists pg e,
         I pg /\ querySelector sel (dom pg) = Some e
         /\ pg' = with_dom (assign sel (f e) (dom pg)) pg)
    I.
Proof.
  intros pg HI. unfold modify, and_then, qs.
  destruct (querySelector sel (dom pg)) eqn:Hq; eauto.
Qed.

Lemma stop_mgr_eq (pg : page) : stop_mgr pg = Done tt (stopped pg).
Proof.
  unfold stop_mgr, stopped, call_method.
  destruct (mgr pg) as [i|]; [|reflexivity].
  destruct (managers pg !! i) as [[o w]|]; [|reflexivity].
  now rewrite stop_eq.
Qed.

Lemma insert_snoc {A} (l : list A) (x y : A) :
  <[length l := y]> (l ++ [x]) = l ++ [y].
Proof.
  induction l as [|a l IH]; simpl; [reflexivity|]. now rewrite IH.
Qed.

Lemma new_manager_open (o : WSOpts) (pg : page) :
  (i <~ new_manager o ;;
   fun pg' =>
     match managers pg' !! i with
     | Some (o', _) => call_method (open P o') i pg'
     | None => Done tt pg'
     end) pg
  = Done tt (started P o pg).
Proof.
  unfold and_then, new_manager, call_method, started.
  cbn [managers with_mgr with_managers].
  rewrite lookup_app_r by lia. rewrite Nat.sub_diag.
  cbn [lookup list_lookup]. rewrite open_address.
  cbn [Session.settle]. now rewrite insert_snoc.
Qed.

(** What [startStream] keeps: anything that survives an alert, the stop
    of the current manager, a write to [#start], [#stop] or [#wsStatus],
    and the start of a new manager on a page that has [#wsStatus]. *)
Lemma startStream_keeps (I : page -> Prop) :
  (forall pg x, I pg -> I (with_alerts x pg)) ->
  (forall pg x, I pg -> I (with_errors x pg)) ->
  (forall pg, I pg -> I (stopped pg)) ->
  (forall pg sel e',
      sel = "#start" \/ sel = "#stop" \/ sel = "#wsStatus" ->
      is_Some (querySelector sel (dom pg)) ->
      I pg -> I (with_dom (assign sel e' (dom pg)) pg)) ->
  (forall pg o,
      stream_like o -> is_Some (querySelector "#wsStatus" (dom pg)) ->
      I pg -> I (started P o pg)) ->
  forall pg, I pg -> I (settle (startStream P tg blank pg)).
Proof.
  intros Halert Herr Hstop Hdom Hstart pg HI.
  unfold startStream.
  destruct tg as [t|]; [|simpl; auto].
  unfold and_then at 1. unfold qs at 1.
  destruct (querySelector "#input" (dom pg)) as [inp|] eqn:Hinp;
    [|simpl; auto].
  destruct (blank (value inp)); [simpl; auto|].
  unfold and_then at 1. rewrite stop_mgr_eq.
  set (pg1 := stopped pg). assert (H1 : I pg1) by (apply Hstop; exact HI).
  unfold and_then at 1. unfold modify at 1, and_then at 1, qs at 1.
  destruct (querySelector "#start" (dom pg1)) as [b1|] eqn:Hb1;
    [|simpl; auto].
  set (pg2 := with_dom _ pg1).
  assert (H2 : I pg2) by (apply Hdom; eauto).
  unfold and_then at 1. unfold modify at 1, and_then at 1, qs at 1.
  destruct (querySelector "#stop" (dom pg2)) as [b2|] eqn:Hb2;
    [|simpl; auto].
  set (pg3 := with_dom _ pg2).
  assert (H3 : I pg3) by (apply Hdom; eauto).
  unfold and_then at 1. unfold setWsStatus, modify at 1, and_then at 1, qs at 1.
  destruct (querySelector "#wsStatus" (dom pg3)) as [st|] eqn:Hst;
    [|simpl; auto].
  set (pg4 := with_dom _ pg3).
  assert (H4 : I pg4) by (apply Hdom; eauto).
  assert (Hst4 : is_Some (querySelector "#wsStatus" (dom pg4))).
  { unfold pg4. simpl. apply query_assign_is_Some. eauto. }
  unfold and_then at 1. unfold qs at 1.
  destruct (querySelector "#input" (dom pg4)) as [inp'|]; [|simpl; auto].
  unfold and_then at 1. unfold qs at 1.
  destruct (querySelector "#level" (dom pg4)) as [lvl|]; [|simpl; auto].
  rewrite new_manager_open. simpl. apply Hstart; auto.
  repeat split.
Qed.

(** What [stopStream] keeps. *)
Lemma stopStream_keeps (I : page -> Prop) :
  (forall pg x, I pg -> I (with_errors x pg)) ->
  (forall pg, I pg -> I (stopped pg)) ->
  (forall pg sel e',
      sel = "#start" \/ sel = "#stop" \/ sel = "#wsStatus" ->
      is_Some (querySelector sel (dom pg)) ->
      I pg -> I (with_dom (assign sel e' (dom pg)) pg)) ->
  forall pg, I pg -> I (settle (stopStream pg)).
Proof.
  intros Herr Hstop Hdom pg HI.
  unfold stopStream.
  unfold and_then at 1. rewrite stop_mgr_eq.
  set (pg1 := stopped pg). assert (H1 : I pg1) by (apply Hstop; exact HI).
  unfold and_then at 1. unfold setWsStatus, modify at 1, and_then at 1, qs at 1.
  destruct (querySelector "#wsStatus" (dom pg1)) as [st|] eqn:Hst;
    [|simpl; auto].
  set (pg2 := with_dom _ pg1).
  assert (H2 : I pg2) by (apply Hdom; eauto).
  unfold and_then at 1. unfold modify at 1, and_then at 1, qs at 1.
  destruct (querySelector "#start" (dom pg2)) as [b1|] eqn:Hb1;
    [|simpl; auto].
  set (pg3 := with_dom _ pg2).
  assert (H3 : I pg3) by (apply Hdom; eauto).
  unfold modify, and_then, qs.
  destruct (querySelector "#stop" (dom pg3)) as [b2|] eqn:Hb2;
    [|simpl; auto].
  cbn [settle]. apply Hdom; eauto.
Qed.

(** *** Changes that leave the managers alone *)

Lemma touches_refl (sels : list string) (pg : page) : touches sels pg pg.
Proof. repeat split; auto. Qed.

Lemma touches_trans (sels : list string) (a b c : page) :
  touches sels a b -> touches sels b c -> touches sels a c.
Proof.
  intros (H1 & H2 & H3 & H4) (H1' & H2' & H3' & H4').
  split; [congruence|]. split; [congruence|]. split.
  - intros sel. now rewrite H3', H3.
  - intros sel Hsel. now rewrite H4', H4.
Qed.

Lemma touches_assign (sels : list string) (sel : string) (e' : element)
    (pg : page) :
  sel ∈ sels -> touches sels pg (with_dom (assign sel e' (dom pg)) pg).
Proof.
  intros Hin. split; [reflexivity|]. split; [reflexivity|]. split.
  - intros s. apply query_assign_is_Some.
  - intros s Hs. apply query_assign_other. intros ->. contradiction.
Qed.

Lemma touches_errors (sels : list string) (x : list string) (pg : page) :
  touches sels pg (with_errors x pg).
Proof. repeat split; auto. Qed.

Lemma settle_modify_touches (sel : string) (f : element -> element)
    (sels : list string) (pg : page) :
  sel ∈ sels -> touches sels pg (settle (modify sel f pg)).
Proof.
  intros Hin. unfold modify, and_then, qs.
  destruct (querySelector sel (dom pg)) as [e|]; simpl.
  - now apply touches_assign.
  - apply touches_errors.
Qed.

Lemma clearOut_touches (pg : page) :
  touches ["#out"] pg (settle (clearOut pg)).
Proof. apply settle_modify_touches. constructor. Qed.

Lemma copyOut_touches (pg : page) :
  touches [] pg (settle (copyOut clipboard pg))
  /\ buffer (settle (copyOut clipboard pg)) = buffer pg
  /\ painted (settle (copyOut clipboard pg)) = painted pg.
Proof.
  unfold copyOut, and_then, qs.
  destruct (querySelector "#out" (dom pg)) as [out|]; simpl;
    [|repeat split; auto].
  destruct (textContent out); simpl; [repeat split; auto|].
  destruct clipboard; simpl; repeat split; auto.
Qed.

(** The render pass on a page that has [#out], written out. *)
Lemma renderPass_eq (out : element) (pg : page) :
  querySelector "#out" (dom pg) = Some out ->
  renderPass scrollHeight pg =
    Done tt
      (with_dom
         (assign "#out"
            (set_scrollTop
               (scrollHeight (str_cat (textContent out) (buffer pg)))
               (set_textContent (str_cat (textContent out) (buffer pg)) out))
            (dom pg))
         (with_rafPending false
            (with_buffer EmptyString
               (with_painted (painted pg ++ [buffer pg]) pg)))).
Proof.
  intros Hout. unfold renderPass, and_then, qs, modify, and_then, qs. simpl.
  rewrite Hout. simpl.
  rewrite (query_assign_same _ _ _ _ Hout). simpl.
  rewrite (query_assign_same _ _ _ _ Hout). simpl.
  f_equal. unfold with_dom, with_rafPending, with_buffer, with_painted. simpl.
  f_equal. apply assign_assign.
Qed.

(** The render pass on a page without [#out]: it throws and changes
    nothing. *)
Lemma renderPass_missing (pg : page) :
  querySelector "#out" (dom pg) = None ->
  renderPass scrollHeight pg = Threw "Missing element: #out" pg.
Proof.
  intros Hout. unfold renderPass, and_then, qs. now rewrite Hout.
Qed.

(** What a render pass does to the text, to the paints and to the
    page. *)
Lemma renderPass_effects (pg : page) :
  let pg' := settle (renderPass scrollHeight pg) in
  touches ["#out"] pg pg'
  /\ str_cat (shown pg') (buffer pg') = str_cat (shown pg) (buffer pg)
  /\ rafQueue pg' = rafQueue pg
  /\ (querySelector "#out" (dom pg) = None ->
      buffer pg' = buffer pg /\ painted pg' = painted pg
      /\ rafPending pg' = rafPending pg).
Proof.
  cbv zeta. destruct (querySelector "#out" (dom pg)) as [out|] eqn:Hout.
  - rewrite (renderPass_eq out pg Hout). cbn [settle].
    split.
    { split; [reflexivity|]. split; [reflexivity|]. split.
      - intros s. apply query_assign_is_Some.
      - intros s Hs. apply query_assign_other. intros ->.
        apply Hs. constructor. }
    split; [|split; [reflexivity | discriminate]].
    unfold shown. cbn [dom with_dom buffer with_rafPending with_buffer].
    rewrite (query_assign_same _ _ _ _ Hout), Hout. simpl.
    apply str_cat_empty_r.
  - rewrite (renderPass_missing pg Hout). cbn [settle].
    split; [apply touches_errors|]. repeat split; auto.
Qed.

Lemma iter_render_effects (n : nat) (pg : page) :
  let pg' := Nat.iter n (fun p => settle (renderPass scrollHeight p)) pg in
  touches ["#out"] pg pg'
  /\ str_cat (shown pg') (buffer pg') = str_cat (shown pg) (buffer pg)
  /\ rafQueue pg' = rafQueue pg
  /\ (querySelector "#out" (dom pg) = None ->
      buffer pg' = buffer pg /\ painted pg' = painted pg
      /\ rafPending pg' = rafPending pg).
Proof.
  cbv zeta. induction n as [|n IH]; simpl.
  - split; [apply touches_refl|]. repeat split; auto.
  - destruct IH as (Ht & Htext & Hq & Hmiss).
    destruct (renderPass_effects
                (Nat.iter n (fun p => settle (renderPass scrollHeight p)) pg))
      as (Ht' & Htext' & Hq' & Hmiss').
    split; [eapply touches_trans; eassumption|].
    split; [congruence|]. split; [congruence|].
    intros Hnone. destruct (Hmiss Hnone) as (Hb & Hp & Hr).
    destruct Ht as (_ & _ & Hsome & _).
    assert (Hnone' : querySelector "#out"
              (dom (Nat.iter n (fun p => settle (renderPass scrollHeight p)) pg))
              = None).
    { destruct (querySelector "#out" (dom (Nat.iter n _ pg))) eqn:E;
        [|reflexivity].
      assert (Hs : is_Some (querySelector "#out" (dom pg)))
        by (apply Hsome; rewrite E; eauto).
      rewrite Hnone in Hs. now destruct Hs. }
    destruct (Hmiss' Hnone') as (Hb' & Hp' & Hr').
    repeat split; congruence.
Qed.

Lemma animationFrame_effects (pg : page) :
  let pg' := animationFrame scrollHeight pg in
  touches ["#out"] pg pg'
  /\ str_cat (shown pg') (buffer pg') = str_cat (shown pg) (buffer pg)
  /\ (querySelector "#out" (dom pg) = None ->
      buffer pg' = buffer pg /\ painted pg' = painted pg).
Proof.
  cbv zeta. unfold animationFrame.
  destruct (iter_render_effects (rafQueue pg) (with_rafQueue 0 pg))
    as (Ht & Htext & _ & Hmiss).
  split; [exact Ht|]. split; [exact Htext|].
  intros Hnone. destruct (Hmiss Hnone) as (Hb & Hp & _). auto.
Qed.

(** What a callback of a manager does to the page. *)
Lemma perform_effects (c : call) (pg : page) :
  let pg' := settle (perform to_text c pg) in
  touches ["#wsStatus"] pg pg'
  /\ buffer pg' = str_cat (buffer pg) (say to_text c)
  /\ painted pg' = painted pg.
Proof.
  cbv zeta.
  assert (Happend : forall s,
    touches ["#wsStatus"] pg (settle (appendOut s pg))
    /\ buffer (settle (appendOut s pg)) = str_cat (buffer pg) s
    /\ painted (settle (appendOut s pg)) = painted pg).
  { intros s. unfold appendOut. simpl.
    destruct (rafPending pg); simpl; repeat split; auto. }
  destruct c as [s| | |e]; simpl; try apply Happend.
  unfold setWsStatus.
  split; [apply settle_modify_touches; constructor|].
  rewrite str_cat_empty_r.
  unfold modify, and_then, qs.
  destruct (querySelector "#wsStatus" (dom pg)); simpl; auto.
Qed.

Lemma perform_all_effects (cs : list call) (pg : page) :
  let pg' := perform_all to_text cs pg in
  touches ["#wsStatus"] pg pg'
  /\ buffer pg' = str_cat (buffer pg) (str_concat (map (say to_text) cs))
  /\ painted pg' = painted pg.
Proof.
  cbv zeta. revert pg. induction cs as [|c cs IH]; intros pg; simpl.
  - split; [apply touches_refl|]. now rewrite str_cat_empty_r.
  - destruct (perform_effects c pg) as (Ht & Hb & Hp).
    destruct (IH (settle (perform to_text c pg))) as (Ht' & Hb' & Hp').
    unfold perform_all in *. simpl.
    split; [eapply touches_trans; eassumption|].
    split; [|congruence].
    rewrite Hb', Hb. now rewrite str_cat_assoc.
Qed.

(** *** The managers of the page *)

Lemma managed_touches (sels : list string) (pg pg' : page) :
  managed P pg -> touches sels pg pg' -> managed P pg'.
Proof.
  intros (Hm & Hi & Hs) (Hman & Hmgr & Hsome & _).
  unfold managed. rewrite Hman, Hmgr.
  split; [exact Hm|]. split; [exact Hi|].
  intros Hne. apply Hsome. auto.
Qed.

Lemma managed_alerts (x : list string) (pg : page) :
  managed P pg -> managed P (with_alerts x pg).
Proof. intros H. exact H. Qed.

Lemma managed_errors (x : list string) (pg : page) :
  managed P pg -> managed P (with_errors x pg).
Proof. intros H. exact H. Qed.

(** Replacing the world of a manager by the one an event of its session
    leads to. *)
Lemma managed_insert (i : nat) (o : WSOpts) (w w' : world) (e : Session.event)
    (pg : page) :
  managed P pg ->
  managers pg !! i = Some (o, w) ->
  allowed e w = true ->
  Session.step P o e w = Some w' ->
  managed P (with_managers (<[i := (o, w')]> (managers pg)) pg).
Proof.
  intros (Hm & Hi & Hs) Hlook Hal Hstep.
  destruct (Hm i o w Hlook) as (Hord & Hun & Hlike).
  split; [|split].
  - intros j o' w1 Hj. simpl in Hj.
    apply list_lookup_insert_Some in Hj as [(-> & Heq & _) | [Hne Hj]];
      [|eauto].
    simplify_eq. split; [eapply step_orderly; eassumption|].
    split; [|assumption].
    destruct (step_orderly_calls P o' e w w1 Hord Hal Hstep) as [_ Hu].
    congruence.
  - intros j Hj. simpl in *. rewrite length_insert. auto.
  - simpl. intros Hne. apply Hs. intros Hnil. rewrite Hnil in Hlook.
    discriminate.
Qed.

Lemma managed_stopped (pg : page) : managed P pg -> managed P (stopped pg).
Proof.
  intros Hpg. unfold stopped.
  destruct (mgr pg) as [i|]; [|exact Hpg].
  destruct (managers pg !! i) as [[o w]|] eqn:Hlook; [|exact Hpg].
  apply (managed_insert i o w _ CallStop); auto.
Qed.

Lemma managed_assign (sel : string) (e' : element) (pg : page) :
  managed P pg -> managed P (with_dom (assign sel e' (dom pg)) pg).
Proof.
  intros H. apply (managed_touches [sel] pg); [exact H|].
  apply touches_assign. constructor.
Qed.

Lemma managed_started (o : WSOpts) (pg : page) :
  stream_like o ->
  is_Some (querySelector "#wsStatus" (dom pg)) ->
  managed P pg ->
  managed P (started P o pg).
Proof.
  intros Hlike Hstatus (Hm & Hi & Hs). unfold started.
  split; [|split]; simpl.
  - intros j o' w Hj.
    apply lookup_app_Some in Hj as [Hj | [Hge Hj]]; [eauto|].
    destruct (j - length (managers pg))%nat; simpl in Hj; [|discriminate].
    simplify_eq.
    assert (Hstep : Session.step P o' CallOpen created
                    = Some (Session.settle (open P o' created)))
      by reflexivity.
    split; [|split; [|assumption]].
    + apply (step_orderly P o' CallOpen created);
        [apply created_orderly | reflexivity | exact Hstep].
    + destruct (step_orderly_calls P o' CallOpen created _
                  (created_orderly P o') eq_refl Hstep) as [_ Hu].
      exact Hu.
  - intros j Hj. simplify_eq. rewrite length_app. simpl. lia.
  - intros _. exact Hstatus.
Qed.

Lemma loaded_managed (d : document) : managed P (loaded d).
Proof.
  split; [|split]; simpl.
  - intros i o w H. discriminate.
  - intros i H. discriminate.
  - intros H. contradiction.
Qed.

(** One event of the page keeps its managers as [managed] says. *)
Lemma step_managed (ev : event) (pg pg' : page) :
  managed P pg ->
  step P tg blank to_text scrollHeight clipboard ev pg = Some pg' ->
  managed P pg'.
Proof.
  intros Hpg Hstep.
  destruct ev as [| | | | |i e]; unfold step, click in Hstep.
  - destruct (clickable "#start" pg); [|discriminate]. simplify_eq.
    apply startStream_keeps; auto using managed_alerts, managed_errors,
      managed_stopped, managed_started.
    intros. now apply managed_assign.
  - destruct (clickable "#stop" pg); [|discriminate]. simplify_eq.
    apply stopStream_keeps; auto using managed_errors, managed_stopped.
    intros. now apply managed_assign.
  - destruct (clickable "#clear" pg); [|discriminate]. simplify_eq.
    eapply managed_touches; [exact Hpg | apply clearOut_touches].
  - destruct (clickable "#copy" pg); [|discriminate]. simplify_eq.
    eapply managed_touches; [exact Hpg | apply copyOut_touches].
  - simplify_eq. eapply managed_touches; [exact Hpg|].
    apply animationFrame_effects.
  - destruct (managers pg !! i) as [[o w]|] eqn:Hlook; [|discriminate].
    destruct (from_caller e) eqn:Hcaller; [discriminate|].
    destruct (Session.step P o e w) as [w'|] eqn:Hs; [|discriminate].
    simplify_eq.
    eapply managed_touches; [|apply perform_all_effects].
    apply (managed_insert i o w w' e); auto.
    destruct e; try reflexivity; discriminate.
Qed.

Lemma run_managed (evs : list event) (pg pg' : page) :
  managed P pg ->
  run P tg blank to_text scrollHeight clipboard evs pg = Some pg' ->
  managed P pg'.
Proof.
  revert pg. induction evs as [|ev evs IH]; simpl; intros pg Hpg Hrun.
  - now simplify_eq.
  - destruct (step P tg blank to_text scrollHeight clipboard ev pg)
      as [pg1|] eqn:Hstep; [|discriminate].
    eauto using step_managed.
Qed.

(** X16. Whatever the user clicks and whatever the network and the
    timers do, every manager the page has created was given the options of
    [startStream] (budget 2, heartbeat 20000 ms, all callbacks) and is
    used as a session opened only when idle: no exception has left it, at
    most one of its sockets is not closed, at most one heartbeat interval
    is active, and each of its sockets has been sent nothing, or the init
    payload followed by keep-alive frames only. *)
Theorem page_sessions_in_order (d : document) (evs : list event) (pg : page)
    (i : nat) (o : WSOpts) (w : world) :
  run P tg blank to_text scrollHeight clipboard evs (loaded d) = Some pg ->
  managers pg !! i = Some (o, w) ->
  stream_like o
  /\ uncaught w = []
  /\ (forall c1 c2 ch1 ch2,
         sockets w !! c1 = Some ch1 -> sockets w !! c2 = Some ch2 ->
         alive ch1 = true -> alive ch2 = true -> c1 = c2)
  /\ (length (List.filter beating (timers w)) <= 1)%nat
  /\ (forall c ch,
         sockets w !! c = Some ch ->
         sent ch = []
         \/ exists n,
              sent ch = JSON_stringify P (init o) :: replicate n ping).
Proof.
  intros Hrun Hlook.
  destruct (run_managed evs (loaded d) pg (loaded_managed d) Hrun)
    as (Hm & _ & _).
  destruct (Hm i o w Hlook) as ((Hcur & _ & Htm & Hframes) & Hun & Hlike).
  split; [assumption|]. split; [assumption|]. split; [|split].
  - intros c1 c2 ch1 ch2 H1 H2 Ha1 Ha2.
    unfold alive in Ha1, Ha2.
    apply negb_true_iff, bool_decide_eq_false in Ha1.
    apply negb_true_iff, bool_decide_eq_false in Ha2.
    pose proof (Hcur c1 ch1 H1 Ha1) as E1.
    pose proof (Hcur c2 ch2 H2 Ha2) as E2.
    congruence.
  - unfold timers_ok in Htm.
    destruct (timers w) as [|t [|t' tms]]; [simpl; lia| |contradiction].
    simpl. destruct (beating t); simpl; lia.
  - intros c ch Hc. destruct (Hframes c ch Hc) as (_ & _ & H). exact H.
Qed.

(** *** What reaches the output *)


(** The output element, the buffer and the paints are left alone by the
    two stream buttons. *)
Lemma stream_buttons_leave_output (pg : page) :
  let same p :=
    querySelector "#out" (dom p) = querySelector "#out" (dom pg)
    /\ buffer p = buffer pg /\ painted p = painted pg in
  same (settle (startStream P tg blank pg))
  /\ same (settle (stopStream pg)).
Proof.
  cbv zeta.
  set (same := fun p =>
    querySelector "#out" (dom p) = querySelector "#out" (dom pg)
    /\ buffer p = buffer pg /\ painted p = painted pg).
  assert (Hstop : forall p, same p -> same (stopped p)).
  { intros p Hp. unfold stopped.
    destruct (mgr p) as [i|]; [|exact Hp].
    destruct (managers p !! i) as [[o w]|]; exact Hp. }
  assert (Hdom : forall p sel e',
    sel = "#start" \/ sel = "#stop" \/ sel = "#wsStatus" ->
    is_Some (querySelector sel (dom p)) ->
    same p -> same (with_dom (assign sel e' (dom p)) p)).
  { intros p sel e' Hsel _ (Hq & Hb & Hp). unfold same. simpl.
    rewrite query_assign_other; [auto|].
    destruct Hsel as [-> | [-> | ->]]; discriminate. }
  assert (Hinit : same pg) by (repeat split).
  split.
  - apply (startStream_keeps same); auto; intros;
      match goal with H : same _ |- _ => exact H end.
  - apply (stopStream_keeps same); auto; intros;
      match goal with H : same _ |- _ => exact H end.
Qed.

Lemma shown_same (pg pg' : page) :
  querySelector "#out" (dom pg') = querySelector "#out" (dom pg) ->
  shown pg' = shown pg.
Proof. unfold shown. now intros ->. Qed.





(** *** The two stream buttons *)

Lemma one_enabled_flip (x : bool) (b1 b2 : element) (d : document) :
  querySelector "#start" d = Some b1 ->
  querySelector "#stop" d = Some b2 ->
  querySelector "#stop" (assign "#start" (set_disabled x b1) d) = Some b2
  /\ one_enabled
       (assign "#stop" (set_disabled (negb x) b2)
          (assign "#start" (set_disabled x b1) d)).
Proof.
  intros H1 H2.
  assert (H2' : querySelector "#stop" (assign "#start" (set_disabled x b1) d)
                = Some b2).
  { rewrite query_assign_other by discriminate. exact H2. }
  split; [exact H2'|].
  exists (set_disabled x b1), (set_disabled (negb x) b2). split; [|split].
  - rewrite query_assign_other by discriminate.
    now apply query_assign_same with (e := b1).
  - now apply query_assign_same with (e := b2).
  - simpl. now rewrite negb_involutive.
Qed.

Lemma one_enabled_touches (sels : list string) (pg pg' : page) :
  touches sels pg pg' ->
  "#start" ∉ sels -> "#stop" ∉ sels ->
  one_enabled (dom pg) -> one_enabled (dom pg').
Proof.
  intros (_ & _ & _ & Hq) H1 H2 (b1 & b2 & Hb1 & Hb2 & Hd).
  exists b1, b2. rewrite !Hq by assumption. auto.
Qed.

Lemma one_enabled_status (e' : element) (d : document) :
  one_enabled d -> one_enabled (assign "#wsStatus" e' d).
Proof.
  intros (b1 & b2 & Hb1 & Hb2 & Hd). exists b1, b2.
  rewrite !query_assign_other by discriminate. auto.
Qed.

Lemma startStream_buttons (pg : page) :
  one_enabled (dom pg) ->
  one_enabled (dom (settle (startStream P tg blank pg))).
Proof.
  intros Hone. pose proof Hone as (b1 & b2 & Hb1 & Hb2 & _).
  unfold startStream.
  destruct tg as [t|]; [|exact Hone].
  unfold and_then at 1. unfold qs at 1.
  destruct (querySelector "#input" (dom pg)) as [inp|]; [|exact Hone].
  destruct (blank (value inp)); [exact Hone|].
  unfold and_then at 1. rewrite stop_mgr_eq.
  assert (Hdom : dom (stopped pg) = dom pg).
  { unfold stopped. destruct (mgr pg) as [i|]; [|reflexivity].
    now destruct (managers pg !! i) as [[o w]|]. }
  set (pg1 := stopped pg) in *.
  unfold and_then at 1. unfold modify at 1, and_then at 1, qs at 1.
  rewrite Hdom, Hb1.
  destruct (one_enabled_flip true b1 b2 (dom pg) Hb1 Hb2) as [Hb2' Hflip].
  unfold and_then at 1. unfold modify at 1, and_then at 1, qs at 1.
  cbn [dom with_dom]. rewrite ?Hdom, Hb2'.
  set (pg3 := with_dom (assign "#stop" _ _) _).
  assert (H3 : one_enabled (dom pg3)) by exact Hflip.
  unfold and_then at 1. unfold setWsStatus, modify at 1, and_then at 1, qs at 1.
  destruct (querySelector "#wsStatus" (dom pg3)) as [st|]; [|exact H3].
  set (pg4 := with_dom _ pg3).
  assert (H4 : one_enabled (dom pg4)) by (now apply one_enabled_status).
  unfold and_then at 1. unfold qs at 1.
  destruct (querySelector "#input" (dom pg4)) as [inp'|]; [|exact H4].
  unfold and_then at 1. unfold qs at 1.
  destruct (querySelector "#level" (dom pg4)) as [lvl|]; [|exact H4].
  rewrite new_manager_open. exact H4.
Qed.

Lemma stopStream_buttons (pg : page) :
  one_enabled (dom pg) -> one_enabled (dom (settle (stopStream pg))).
Proof.
  intros Hone. pose proof Hone as (b1 & b2 & Hb1 & Hb2 & _).
  unfold stopStream.
  unfold and_then at 1. rewrite stop_mgr_eq.
  assert (Hdom : dom (stopped pg) = dom pg).
  { unfold stopped. destruct (mgr pg) as [i|]; [|reflexivity].
    now destruct (managers pg !! i) as [[o w]|]. }
  set (pg1 := stopped pg) in *.
  unfold and_then at 1. unfold setWsStatus, modify at 1, and_then at 1, qs at 1.
  rewrite Hdom.
  destruct (querySelector "#wsStatus" (dom pg)) as [st|];
    [|cbn [settle dom with_errors]; now rewrite Hdom].
  rewrite ?Hdom.
  set (d2 := assign "#wsStatus" _ (dom pg)).
  assert (Hb1' : querySelector "#start" d2 = Some b1).
  { unfold d2. now rewrite query_assign_other by discriminate. }
  assert (Hb2' : querySelector "#stop" d2 = Some b2).
  { unfold d2. now rewrite query_assign_other by discriminate. }
  unfold and_then at 1. unfold modify at 1, and_then at 1, qs at 1.
  cbn [dom with_dom]. rewrite Hb1'.
  destruct (one_enabled_flip false b1 b2 d2 Hb1' Hb2') as [Hb2'' Hflip].
  unfold modify, and_then, qs. cbn [dom with_dom]. rewrite Hb2''.
  exact Hflip.
Qed.

Lemma step_buttons (ev : event) (pg pg' : page) :
  one_enabled (dom pg) ->
  step P tg blank to_text scrollHeight clipboard ev pg = Some pg' ->
  one_enabled (dom pg').
Proof.
  intros Hone Hstep.
  assert (Hout : ("#start" ∉ ["#out"]) /\ ("#stop" ∉ ["#out"])).
  { split; intros H; apply list_elem_of_singleton in H; discriminate. }
  assert (Hstatus : ("#start" ∉ ["#wsStatus"]) /\ ("#stop" ∉ ["#wsStatus"])).
  { split; intros H; apply list_elem_of_singleton in H; discriminate. }
  destruct ev as [| | | | |i e]; unfold step, click in Hstep.
  - destruct (clickable "#start" pg); [|discriminate]. simplify_eq.
    now apply startStream_buttons.
  - destruct (clickable "#stop" pg); [|discriminate]. simplify_eq.
    now apply stopStream_buttons.
  - destruct (clickable "#clear" pg); [|discriminate]. simplify_eq.
    apply (one_enabled_touches ["#out"] pg); try apply Hout; auto.
    apply clearOut_touches.
  - destruct (clickable "#copy" pg); [|discriminate]. simplify_eq.
    apply (one_enabled_touches [] pg); auto using not_elem_of_nil.
    apply copyOut_touches.
  - simplify_eq.
    apply (one_enabled_touches ["#out"] pg); try apply Hout; auto.
    apply animationFrame_effects.
  - destruct (managers pg !! i) as [[o w]|]; [|discriminate].
    destruct (from_caller e); [discriminate|].
    destruct (Session.step P o e w) as [w'|]; [|discriminate].
    simplify_eq.
    eapply (one_enabled_touches ["#wsStatus"]);
      [apply perform_all_effects | apply Hstatus | apply Hstatus | exact Hone].
Qed.

(** X19. On a page where exactly one of the buttons [#start] and
    [#stop] is enabled when the script is loaded, exactly one of them is
    enabled at any time, whatever is clicked and whatever the streams do,
    also when a handler fails half way. *)
Theorem one_button_enabled (d : document) (evs : list event) (pg : page) :
  one_enabled d ->
  run P tg blank to_text scrollHeight clipboard evs (loaded d) = Some pg ->
  one_enabled (dom pg)
  /\ (clickable "#start" pg = negb (clickable "#stop" pg)).
Proof.
  intros Hone Hrun.
  assert (Hgen : forall pg0,
    one_enabled (dom pg0) ->
    run P tg blank to_text scrollHeight clipboard evs pg0 = Some pg ->
    one_enabled (dom pg)).
  { clear Hrun. induction evs as [|ev evs IH]; simpl; intros pg0 H0 Hrun.
    - now simplify_eq.
    - destruct (step P tg blank to_text scrollHeight clipboard ev pg0)
        as [pg1|] eqn:Hstep; [|discriminate].
      eauto using step_buttons. }
  pose proof (Hgen (loaded d) Hone Hrun) as Hpg.
  split; [exact Hpg|].
  destruct Hpg as (b1 & b2 & Hb1 & Hb2 & Hd).
  unfold clickable. rewrite Hb1, Hb2, Hd. reflexivity.
Qed.

(** X20. Outside Telegram, or with an input that is blank, Start does
    nothing but show an alert: the current stream is not stopped, no
    manager is created, no button and no status changes, and nothing is
    thrown. *)
Theorem startStream_refuses (pg : page) :
  tg = None
  \/ (exists input,
        querySelector "#input" (dom pg) = Some input
        /\ blank (value input) = true) ->
  exists msg,
    startStream P tg blank pg = Done tt (with_alerts (alerts pg ++ [msg]) pg).
Proof.
  intros [Hout | (input & Hinput & Hblank)]; unfold startStream.
  - rewrite Hout. eexists. reflexivity.
  - destruct tg as [t|]; [|eexists; reflexivity].
    unfold and_then, qs. rewrite Hinput, Hblank. eexists. reflexivity.
Qed.

(** *** The sink of the page and the sink of the claims *)

Lemma sink_of_renderPass (pg : page) (st : Sink.state) :
  sink_of pg = Some st ->
  sink_of (settle (renderPass scrollHeight pg))
    = Some (Sink.renderPass scrollHeight st)
  /\ errors (settle (renderPass scrollHeight pg)) = errors pg.
Proof.
  unfold sink_of. intros Hst.
  destruct (querySelector "#out" (dom pg)) as [out|] eqn:Hout;
    [|discriminate].
  simplify_eq. rewrite (renderPass_eq out pg Hout). cbn [settle].
  split; [|reflexivity].
  cbn [dom with_dom]. rewrite (query_assign_same _ _ _ _ Hout).
  reflexivity.
Qed.

Lemma sink_of_iter (n : nat) (pg : page) (st : Sink.state) :
  sink_of pg = Some st ->
  sink_of (Nat.iter n (fun p => settle (renderPass scrollHeight p)) pg)
    = Some (Nat.iter n (Sink.renderPass scrollHeight) st)
  /\ errors (Nat.iter n (fun p => settle (renderPass scrollHeight p)) pg)
     = errors pg.
Proof.
  intros Hst. induction n as [|n [IH1 IH2]]; simpl; [auto|].
  destruct (sink_of_renderPass _ _ IH1) as [H1 H2].
  split; [exact H1 | congruence].
Qed.

(** X21. On a page that has [#out], the sink of the page is the sink
    the properties of the output are stated for: read through [#out], an
    append, a display refresh and a click on [#clear] on the page are the
    append, the refresh and the clear of that sink, and none of them
    throws. *)
Theorem page_sink_agrees (pg : page) (st : Sink.state) (s : string) :
  sink_of pg = Some st ->
  (sink_of (settle (appendOut s pg)) = Some (Sink.appendOut s st)
   /\ errors (settle (appendOut s pg)) = errors pg)
  /\ (sink_of (animationFrame scrollHeight pg)
        = Some (Sink.animationFrame scrollHeight st)
      /\ errors (animationFrame scrollHeight pg) = errors pg)
  /\ (sink_of (settle (clearOut pg)) = Some (Sink.clearOut st)
      /\ errors (settle (clearOut pg)) = errors pg).
Proof.
  intros Hst. split; [|split].
  - unfold sink_of in *.
    destruct (querySelector "#out" (dom pg)) as [out|] eqn:Hout;
      [|discriminate].
    simplify_eq. unfold appendOut, Sink.appendOut. simpl.
    destruct (rafPending pg) eqn:Hr; simpl; rewrite Hout, ?Hr; auto.
  - unfold animationFrame, Sink.animationFrame.
    assert (H0 : sink_of (with_rafQueue 0 pg)
      = Some {| Sink.textContent := Sink.textContent st;
                Sink.scrollTop := Sink.scrollTop st;
                Sink.buffer := Sink.buffer st;
                Sink.rafPending := Sink.rafPending st;
                Sink.rafQueue := 0;
                Sink.painted := Sink.painted st |}).
    { unfold sink_of in *. simpl.
      destruct (querySelector "#out" (dom pg)); [|discriminate].
      now simplify_eq. }
    assert (Hq : rafQueue pg = Sink.rafQueue st).
    { unfold sink_of in Hst.
      destruct (querySelector "#out" (dom pg)); [|discriminate].
      now simplify_eq. }
    rewrite Hq. apply (sink_of_iter _ _ _ H0).
  - unfold sink_of in *.
    destruct (querySelector "#out" (dom pg)) as [out|] eqn:Hout;
      [|discriminate].
    simplify_eq. unfold clearOut, modify, and_then, qs. rewrite Hout.
    cbn [settle dom with_dom]. rewrite (query_assign_same _ _ _ _ Hout).
    auto.
Qed.


(** *** What is copied *)

Lemma stream_buttons_leave_copied (pg : page) :
  copied (settle (startStream P tg blank pg)) = copied pg
  /\ copied (settle (stopStream pg)) = copied pg.
Proof.
  set (same := fun p => copied p = copied pg).
  assert (Hstop : forall p, same p -> same (stopped p)).
  { intros p Hp. unfold stopped.
    destruct (mgr p) as [i|]; [|exact Hp].
    destruct (managers p !! i) as [[o w]|]; exact Hp. }
  assert (Hinit : same pg) by reflexivity.
  split.
  - apply (startStream_keeps same); auto; intros;
      match goal with H : same _ |- _ => exact H end.
  - apply (stopStream_keeps same); auto; intros;
      match goal with H : same _ |- _ => exact H end.
Qed.

Lemma perform_all_copied (cs : list call) (pg : page) :
  copied (perform_all to_text cs pg) = copied pg.
Proof.
  revert pg. induction cs as [|c cs IH]; intros pg; [reflexivity|].
  change (perform_all to_text (c :: cs) pg)
    with (perform_all to_text cs (settle (perform to_text c pg))).
  rewrite IH.
  destruct c as [s| | |e]; simpl;
    unfold appendOut, setWsStatus, modify, and_then, qs; simpl.
  - now destruct (rafPending pg).
  - now destruct (querySelector "#wsStatus" (dom pg)).
  - now destruct (rafPending pg).
  - now destruct (rafPending pg).
Qed.

(** A render pass neither copies nor takes back what is shown. *)
Lemma renderPass_grows (pg : page) :
  let pg' := settle (renderPass scrollHeight pg) in
  copied pg' = copied pg
  /\ exists rest, shown pg' = str_cat (shown pg) rest.
Proof.
  cbv zeta. destruct (querySelector "#out" (dom pg)) as [out|] eqn:Hout.
  - rewrite (renderPass_eq out pg Hout). cbn [settle].
    split; [reflexivity|]. exists (buffer pg).
    unfold shown. cbn [dom with_dom].
    rewrite (query_assign_same _ _ _ _ Hout), Hout. reflexivity.
  - rewrite (renderPass_missing pg Hout). cbn [settle].
    split; [reflexivity|]. exists EmptyString.
    unfold shown. cbn [dom with_errors]. now rewrite str_cat_empty_r.
Qed.

Lemma animationFrame_grows (pg : page) :
  let pg' := animationFrame scrollHeight pg in
  copied pg' = copied pg
  /\ exists rest, shown pg' = str_cat (shown pg) rest.
Proof.
  cbv zeta. unfold animationFrame.
  change (copied pg) with (copied (with_rafQueue 0 pg)).
  change (shown pg) with (shown (with_rafQueue 0 pg)).
  generalize (with_rafQueue 0 pg) as p. generalize (rafQueue pg) as n.
  induction n as [|n IH]; intros p; simpl.
  - split; [reflexivity|]. exists EmptyString. now rewrite str_cat_empty_r.
  - destruct (IH p) as (Hc & rest & Hs).
    destruct (renderPass_grows
                (Nat.iter n (fun p => settle (renderPass scrollHeight p)) p))
      as (Hc' & rest' & Hs').
    split; [congruence|].
    exists (str_cat rest rest'). rewrite Hs', Hs. apply str_cat_assoc.
Qed.

(** One event other than a click on Clear: what is shown stays and may
    grow at its end; the copied texts stay, but that a click on Copy with
    a clipboard adds what is shown, if that is not empty. *)
Lemma step_copied (ev : event) (pg pg' : page) :
  is_clear ev = false ->
  step P tg blank to_text scrollHeight clipboard ev pg = Some pg' ->
  (exists rest, shown pg' = str_cat (shown pg) rest)
  /\ (copied pg' = copied pg
      \/ (copied pg' = copied pg ++ [shown pg]
          /\ shown pg <> EmptyString /\ clipboard = true)).
Proof.
  intros Hev Hstep.
  assert (Hsame : forall p,
    querySelector "#out" (dom p) = querySelector "#out" (dom pg) ->
    copied p = copied pg ->
    (exists rest, shown p = str_cat (shown pg) rest)
    /\ (copied p = copied pg
        \/ (copied p = copied pg ++ [shown pg]
            /\ shown pg <> EmptyString /\ clipboard = true))).
  { intros p Hq Hc. split; [|left; exact Hc].
    exists EmptyString. rewrite str_cat_empty_r. now apply shown_same. }
  destruct ev as [| | | | |i e]; unfold step, click in Hstep.
  - destruct (clickable "#start" pg); [|discriminate]. simplify_eq.
    destruct (stream_buttons_leave_output pg) as [(Hq & _) _].
    destruct (stream_buttons_leave_copied pg) as [Hc _]. auto.
  - destruct (clickable "#stop" pg); [|discriminate]. simplify_eq.
    destruct (stream_buttons_leave_output pg) as [_ (Hq & _)].
    destruct (stream_buttons_leave_copied pg) as [_ Hc]. auto.
  - discriminate.
  - destruct (clickable "#copy" pg); [|discriminate]. simplify_eq.
    unfold copyOut, and_then, qs, shown.
    destruct (querySelector "#out" (dom pg)) as [out|] eqn:Hout;
      cbn [settle dom with_errors copied];
      [|rewrite Hout; split; [exists EmptyString; reflexivity | now left]].
    destruct (textContent out) as [|c s] eqn:Htext;
      cbn [or_str done settle dom copied].
    { rewrite Hout, Htext. split; [exists EmptyString; reflexivity | now left]. }
    destruct clipboard; cbn [done settle dom with_copied copied];
      rewrite Hout, Htext;
      (split; [exists EmptyString; now rewrite str_cat_empty_r|]).
    + right. split; [reflexivity|]. split; [discriminate | reflexivity].
    + now left.
  - simplify_eq. destruct (animationFrame_grows pg) as (Hc & Hs). auto.
  - destruct (managers pg !! i) as [[o w]|] eqn:Hlook; [|discriminate].
    destruct (from_caller e) eqn:Hcaller; [discriminate|].
    destruct (Session.step P o e w) as [w'|] eqn:Hs; [|discriminate].
    simplify_eq.
    set (cs := drop _ _). set (pg1 := with_managers _ pg).
    destruct (perform_all_effects cs pg1) as ((_ & _ & _ & Hq) & _).
    apply Hsame.
    + rewrite Hq; [reflexivity|]. intros Hin.
      apply list_elem_of_singleton in Hin. discriminate.
    + now rewrite perform_all_copied.
Qed.

(** A click on Clear copies nothing. *)
Lemma clearOut_copied (pg : page) :
  copied (settle (clearOut pg)) = copied pg.
Proof.
  unfold clearOut, modify, and_then, qs.
  now destruct (querySelector "#out" (dom pg)).
Qed.

(** What a click on Copy does, written out. *)
Lemma copy_click (pg pg' : page) :
  step P tg blank to_text scrollHeight clipboard ClickCopy pg = Some pg' ->
  copied pg' =
    copied pg ++
      (if clipboard && negb (String.eqb (shown pg) EmptyString)
       then [shown pg] else [])
  /\ dom pg' = dom pg /\ buffer pg' = buffer pg.
Proof.
  unfold step, click. intros Hstep.
  destruct (clickable "#copy" pg); [|discriminate]. simplify_eq.
  unfold copyOut, and_then, qs, shown.
  destruct (querySelector "#out" (dom pg)) as [out|] eqn:Hout;
    cbn [settle dom with_errors copied buffer];
    [|rewrite andb_false_r, app_nil_r; auto].
  destruct (textContent out) as [|c s] eqn:Htext;
    cbn [or_str done settle dom copied buffer String.eqb negb].
  { rewrite andb_false_r, app_nil_r; auto. }
  destruct clipboard; cbn [done settle dom with_copied copied buffer andb];
    rewrite ?app_nil_r; auto.
Qed.

(** One event adds to the copied texts only when it is a click on Copy
    with a clipboard. *)
Lemma step_copies (ev : event) (pg pg' : page) :
  step P tg blank to_text scrollHeight clipboard ev pg = Some pg' ->
  copied pg' = copied pg \/ clipboard = true.
Proof.
  intros Hstep. destruct (is_clear ev) eqn:Hev.
  - destruct ev; try discriminate. unfold step, click in Hstep.
    destruct (clickable "#clear" pg); [|discriminate]. simplify_eq.
    left. apply clearOut_copied.
  - destruct (step_copied ev pg pg' Hev Hstep) as [_ [Hc | (_ & _ & Hc)]];
      auto.
Qed.

(** X23. Copy hands the clipboard what is on screen, never what is still
    buffered. On any page the script can reach, a click on Copy hands over
    exactly the text of [#out], when there is a clipboard and that text is
    not empty, and nothing otherwise, and changes nothing else of the
    document or the buffer; without a clipboard nothing is ever handed
    over; and on a page that is not cleared every text handed over so far
    is not empty and is a beginning of what the page shows. *)
Theorem copied_is_shown_text (d : document) (evs : list event) (pg : page) :
  run P tg blank to_text scrollHeight clipboard evs (loaded d) = Some pg ->
  (forall pg',
      step P tg blank to_text scrollHeight clipboard ClickCopy pg = Some pg' ->
      copied pg' =
        copied pg ++
          (if clipboard && negb (String.eqb (shown pg) EmptyString)
           then [shown pg] else [])
      /\ dom pg' = dom pg /\ buffer pg' = buffer pg)
  /\ (clipboard = false -> copied pg = [])
  /\ (forallb (fun ev => negb (is_clear ev)) evs = true ->
      Forall
        (fun t => t <> EmptyString /\ exists rest, shown pg = str_cat t rest)
        (copied pg)).
Proof.
  intros Hrun. split; [exact (copy_click pg)|]. split.
  - intros Hclip. revert Hrun.
    assert (Hinit : copied (loaded d) = []) by reflexivity.
    revert Hinit. generalize (loaded d) as p.
    induction evs as [|ev evs IH]; simpl; intros p Hp Hrun.
    + now simplify_eq.
    + destruct (step P tg blank to_text scrollHeight clipboard ev p)
        as [p1|] eqn:Hstep; [|discriminate].
      apply (IH p1); [|exact Hrun].
      destruct (step_copies ev p p1 Hstep) as [Hc | Hc]; congruence.
  - revert Hrun.
    assert (Hinit : Forall
              (fun t => t <> EmptyString
                        /\ exists rest, shown (loaded d) = str_cat t rest)
              (copied (loaded d))) by constructor.
    revert Hinit. generalize (loaded d) as p.
    induction evs as [|ev evs IH]; simpl; intros p Hp Hrun Hevs.
    + now simplify_eq.
    + apply andb_prop in Hevs as [Hev Hevs]. apply negb_true_iff in Hev.
      destruct (step P tg blank to_text scrollHeight clipboard ev p)
        as [p1|] eqn:Hstep; [|discriminate].
      apply (IH p1); [|exact Hrun | exact Hevs].
      destruct (step_copied ev p p1 Hev Hstep) as ((rest & Hs) & Hc).
      assert (Hold : Forall
                (fun t => t <> EmptyString
                          /\ exists rest, shown p1 = str_cat t rest)
                (copied p)).
      { eapply Forall_impl; [exact Hp|].
        intros t (Ht & rest0 & Hs0). split; [exact Ht|].
        exists (str_cat rest0 rest). rewrite Hs, Hs0. apply str_cat_assoc. }
      destruct Hc as [Hc | (Hc & Hne & Hclip)]; rewrite Hc; [exact Hold|].
      apply Forall_app. split; [exact Hold|].
      constructor; [|constructor]. split; [exact Hne|].
      exists rest. exact Hs.
Qed.

End Script.

End AppProps.

(** ** Instances on the concrete document *)

Lemma page_sessions_in_order_witness :
  exists pg o w,
    replay markup session_events = Some pg
    /\ App.managers pg !! 0%nat = Some (o, w)
    /\ App.stream_like o
    /\ Session.uncaught w = []
    /\ (forall c1 c2 ch1 ch2,
           Session.sockets w !! c1 = Some ch1 ->
           Session.sockets w !! c2 = Some ch2 ->
           Session.alive ch1 = true -> Session.alive ch2 = true -> c1 = c2)
    /\ (length (List.filter Session.beating (Session.timers w)) <= 1)%nat
    /\ (forall c ch,
           Session.sockets w !! c = Some ch ->
           Session.sent ch = []
           \/ exists n,
                Session.sent ch =
                  Session.JSON_stringify page (Session.init o)
                    :: replicate n Session.ping).
Proof.
  eexists. eexists. eexists.
  split; [vm_compute; reflexivity|].
  split; [vm_compute; reflexivity|].
  eapply (AppProps.page_sessions_in_order page (Some telegram) only_spaces
            as_text tall true markup session_events _ 0%nat);
    vm_compute; reflexivity.
Defined.



Lemma one_button_enabled_witness :
  exists pg,
    replay markup session_events = Some pg
    /\ App.one_enabled (App.dom pg)
    /\ App.clickable "#start" pg = negb (App.clickable "#stop" pg).
Proof.
  eexists. split; [vm_compute; reflexivity|].
  apply (AppProps.one_button_enabled page (Some telegram) only_spaces
           as_text tall true markup session_events).
  - exists (plain EmptyString false), (plain EmptyString true).
    split; [reflexivity|]. split; reflexivity.
  - vm_compute; reflexivity.
Defined.

Lemma startStream_refuses_witness :
  let pg := App.loaded (App.assign "#input" (plain "  " false) markup) in
  exists msg,
    App.startStream page (Some telegram) only_spaces pg
      = App.Done tt (App.with_alerts (App.alerts pg ++ [msg]) pg).
Proof.
  cbv zeta.
  apply (AppProps.startStream_refuses page (Some telegram) only_spaces).
  right. exists (plain "  " false). split; reflexivity.
Defined.

Lemma page_sink_agrees_witness :
  let pg := App.loaded markup in
  exists st,
    App.sink_of pg = Some st
    /\ (App.sink_of (App.settle (App.appendOut "Hi" pg))
          = Some (Sink.appendOut "Hi" st)
        /\ App.errors (App.settle (App.appendOut "Hi" pg)) = App.errors pg)
    /\ (App.sink_of (App.animationFrame tall pg)
          = Some (Sink.animationFrame tall st)
        /\ App.errors (App.animationFrame tall pg) = App.errors pg)
    /\ (App.sink_of (App.settle (App.clearOut pg)) = Some (Sink.clearOut st)
        /\ App.errors (App.settle (App.clearOut pg)) = App.errors pg).
Proof.
  cbv zeta. eexists. split; [reflexivity|].
  apply (AppProps.page_sink_agrees tall (App.loaded markup)).
  reflexivity.
Defined.


Lemma copied_is_shown_text_witness :
  App.shown copy_page = "Hi " /\ App.buffer copy_page = "there"
  /\ App.copied copy_page = ["Hi "]
  /\ (exists pg',
        App.step page (Some telegram) only_spaces as_text tall true
          App.ClickCopy copy_page = Some pg'
        /\ App.copied pg' = ["Hi "; "Hi "])
  /\ Forall
       (fun t =>
          t <> EmptyString
          /\ exists rest, App.shown copy_page = str_cat t rest)
       (App.copied copy_page).
Proof.
  destruct (AppProps.copied_is_shown_text page (Some telegram) only_spaces
              as_text tall true markup copying copy_page)
    as (Hclick & _ & Hall); [vm_compute; reflexivity|].
  split; [reflexivity|]. split; [reflexivity|]. split; [reflexivity|].
  split.
  - eexists. split; [vm_compute; reflexivity|].
    etransitivity; [apply Hclick; vm_compute; reflexivity|].
    vm_compute; reflexivity.
  - apply Hall. reflexivity.
Defined.
